(** * fairseq data utilities and the multilingual translation task

    A shallow embedding of [fairseq/data/data_utils.py] and of the step
    functions of [fairseq/tasks/multilingual_translation.py], followed by
    the properties of the batching and sampling engine.

    Conventions of the embedding:
    - Python [int]s and the entries of integer tensors are [Z]; dataset
      indices are [Z] (they are only copied and compared, never computed
      with, so no wrap-around arises on them);
    - a Python call that can raise returns a [result]; the exception kinds
      are the constructors of [exn];
    - a [dict] whose insertion order is observed is an association list; a
      [dict] that is only looked up and updated by key is a [gmap];
    - random draws and uninitialised storage are explicit arguments (the
      outcome of the draw), so that a statement about every outcome is a
      statement about every value of that argument. *)

From Stdlib Require Import ZArith String Ascii List Bool.
From stdpp Require Import base option list gmap strings sorting.

Local Open Scope Z_scope.

(** ** Sizes and size limits

    What [dataset.size(index)] returns and what [max_positions] holds: a
    number, [None], a tuple of optional numbers, or a [dict] from field
    names to these. The items of a [Dict] are in insertion order, which
    [list(s.values())[0]] observes; their keys are distinct. *)

Inductive atom : Type :=
| ANone
| AInt (z : Z)
| ATuple (fields : list (option Z)).

Inductive pyval : Type :=
| Atom (a : atom)
| Dict (items : list (string * atom)).

Abbreviation PInt z := (Atom (AInt z)).
Abbreviation PTuple l := (Atom (ATuple l)).

(** ** Exceptions *)

Inductive exn : Type :=
| TypeError
| AttributeError
| IndexError
| KeyError
| ValueError
| AssertionError
(** [Exception('Size of sample #{} is invalid (={}) since max_positions={},
    ...'.format(sample, size, max_positions))], with the arguments of the
    format. *)
| Exception_ (sample : Z) (sample_size : pyval) (max_positions : pyval).

Inductive result (A : Type) : Type :=
| Ok (a : A)
| Raise (e : exn).
Arguments Ok {A} a.
Arguments Raise {A} e.

#[global] Instance result_ret : MRet result := fun A a => Ok a.
#[global] Instance result_bind : MBind result := fun A B f r =>
  match r with
  | Ok a => f a
  | Raise e => Raise e
  end.
#[global] Instance result_fmap : FMap result := fun A B f r =>
  match r with
  | Ok a => Ok (f a)
  | Raise e => Raise e
  end.

Definition returns {A : Type} (r : result A) : Prop := exists a, r = Ok a.

(** ** Python strings

    A [str] is a sequence of code points. *)

Abbreviation pystr := (list Z).

(** An ASCII literal as a [str]. *)
Fixpoint str (s : string) : pystr :=
  match s with
  | EmptyString => []
  | String a s' => Z.of_nat (nat_of_ascii a) :: str s'
  end.

(** U+2581 LOWER ONE EIGHTH BLOCK, the sentencepiece word marker. *)
Definition u2581 : Z := 0x2581.

Fixpoint startswith (prefix s : pystr) : bool :=
  match prefix, s with
  | [], _ => true
  | _ :: _, [] => false
  | a :: prefix', b :: s' => (a =? b) && startswith prefix' s'
  end.

(** [str.replace] with a non-empty [old]: scan from the left; at a match
    emit [new] and skip the matched characters ([skip] counts those still
    to be passed over); matches never overlap. *)
Fixpoint replace_from (old new : pystr) (skip : nat) (s : pystr) : pystr :=
  match s with
  | [] => []
  | c :: s' =>
      match skip with
      | S k => replace_from old new k s'
      | O =>
          if startswith old s
          then new ++ replace_from old new (length old - 1) s'
          else c :: replace_from old new 0 s'
      end
  end.

(** [s.replace(old, new)]. An empty [old] matches before every character
    and at the end. *)
Definition replace (old new s : pystr) : pystr :=
  match old with
  | [] => new ++ flat_map (fun c => c :: new) s
  | _ :: _ => replace_from old new 0 s
  end.

(** [str.isspace] of one code point: the Unicode white space characters. *)
Definition isspace (c : Z) : bool :=
  ((0x9 <=? c) && (c <=? 0xd)) || ((0x1c <=? c) && (c <=? 0x20))
  || (c =? 0x85) || (c =? 0xa0) || (c =? 0x1680)
  || ((0x2000 <=? c) && (c <=? 0x200a))
  || (c =? 0x2028) || (c =? 0x2029) || (c =? 0x202f) || (c =? 0x205f)
  || (c =? 0x3000).

Fixpoint lstrip (s : pystr) : pystr :=
  match s with
  | [] => []
  | c :: s' => if isspace c then lstrip s' else s
  end.

Definition rstrip (s : pystr) : pystr := rev (lstrip (rev s)).

Definition strip (s : pystr) : pystr := rstrip (lstrip s).

(** [process_bpe_symbol(sentence, bpe_symbol)]; [bpe_symbol] may be [None]. *)
Definition process_bpe_symbol (sentence : pystr) (bpe_symbol : option pystr) : pystr :=
  match bpe_symbol with
  | Some symbol =>
      if bool_decide (symbol = str "sentencepiece")
      then strip (replace [u2581] (str " ") (replace (str " ") [] sentence))
      else rstrip (replace symbol [] (sentence ++ str " "))
  | None => sentence
  end.

(** ** Size filtering *)

(** [all(f(x) for x in l)]: the generator is consumed up to the first
    [False]; an exception raised on the way propagates. *)
Fixpoint all_r {A : Type} (f : A -> result bool) (l : list A) : result bool :=
  match l with
  | [] => Ok true
  | x :: l' =>
      b ← f x;
      if b : bool then all_r f l' else Ok false
  end.

(** [a is None or b is None or a <= b] on two optional numbers. *)
Definition none_or_le (a b : option Z) : bool :=
  match a, b with
  | Some x, Some y => x <=? y
  | _, _ => true
  end.

(** The same test when [a] is a value of a size [dict]. *)
Definition value_none_or_le (a : atom) (b : option Z) : result bool :=
  match a, b with
  | ANone, _ => Ok true
  | _, None => Ok true
  | AInt x, Some y => Ok (x <=? y)
  | ATuple _, Some _ => Raise TypeError
  end.

(** [a <= b] for a value [a] and a number [b]. *)
Definition value_le_int (a : atom) (b : Z) : result bool :=
  match a with
  | AInt x => Ok (x <=? b)
  | ANone | ATuple _ => Raise TypeError
  end.

(** [iter(v)] of a [dict] value inside [zip]. *)
Definition iter_atom (v : atom) : result (list (option Z)) :=
  match v with
  | ATuple l => Ok l
  | ANone | AInt _ => Raise TypeError
  end.

(** [d[key]] on the items of a [dict]. *)
Fixpoint getitem (d : list (string * atom)) (key : string) : result atom :=
  match d with
  | [] => Raise KeyError
  | (k, v) :: d' => if String.eqb k key then Ok v else getitem d' key
  end.

Definition keys (d : list (string * atom)) : list string := map fst d.
Definition values (d : list (string * atom)) : list atom := map snd d.

(** [set(max_positions.keys()) & set(idx_size.keys())]. The iteration
    order of a [set] of strings is unspecified; it is taken here as the
    order of the keys of [idx_size]. The order is only observable when one
    key compares [False] and another raises. *)
Definition intersect_keys (max_positions idx_size : list (string * atom)) : list string :=
  List.filter (fun k => bool_decide (k ∈ keys max_positions)) (keys idx_size).

(** The inner function [check_size(idx)] of [_filter_by_size_dynamic]. *)
Definition check_size (size_fn : Z -> pyval) (max_positions : pyval) (idx : Z) : result bool :=
  match max_positions with
  | Atom (AInt m) =>
      match size_fn idx with
      | Atom (AInt s) => Ok (s <=? m)
      | Dict items =>
          match values items with
          | [] => Raise IndexError
          | v :: _ => value_le_int v m
          end
      | Atom ANone | Atom (ATuple _) => Raise AttributeError
      end
  | Dict max_items =>
      match size_fn idx with
      | Dict idx_size =>
          all_r (fun key =>
                   a ← getitem idx_size key;
                   b ← getitem max_items key;
                   la ← iter_atom a;
                   lb ← iter_atom b;
                   Ok (forallb (fun '(x, y) => none_or_le x y) (combine la lb)))
                (intersect_keys max_items idx_size)
      | Atom _ => Raise AssertionError
      end
  | Atom (ATuple max_fields) =>
      match size_fn idx with
      | Dict idx_size =>
          all_r (fun '(a, b) => value_none_or_le a b) (combine (values idx_size) max_fields)
      | Atom (AInt s) =>
          all_r (fun b => match b with Some y => Ok (s <=? y) | None => Raise TypeError end)
                max_fields
      | Atom ANone =>
          all_r (fun _ : option Z => Raise TypeError) max_fields
      | Atom (ATuple size_fields) =>
          Ok (forallb (fun '(x, y) => none_or_le x y) (combine size_fields max_fields))
      end
  | Atom ANone => Raise TypeError
  end.

(** Python [list] objects live in a store, addressed by position: the
    generator of [collect_filtered] and its caller share one. *)
Abbreviation heap := (list (list Z)).
Abbreviation loc := nat.

Definition new_list (h : heap) : loc * heap := (length h, h ++ [[]]).
Definition list_append (l : loc) (el : Z) (h : heap) : heap := alter (fun v => v ++ [el]) l h.
Definition read_list (l : loc) (h : heap) : list Z := default [] (h !! l).

(** The generator [collect_filtered(function, iterable, filtered, noskip)]
    run to exhaustion: the elements it yields, and the store after the
    appends to [filtered]. *)
Fixpoint collect_filtered (function : Z -> result bool) (iterable : list Z)
    (filtered : loc) (noskip : bool) (h : heap) : result (list Z * heap) :=
  match iterable with
  | [] => Ok ([], h)
  | el :: rest =>
      b ← function el;
      if b || noskip
      then '(yielded, h') ← collect_filtered function rest filtered noskip h;
           Ok (el :: yielded, h')
      else collect_filtered function rest filtered noskip (list_append filtered el h)
  end.

(** [_filter_by_size_dynamic]: [ignored] first names the list handed to the
    generator; under [noskip] the name is rebound to a fresh list before
    [np.fromiter] runs the generator. *)
Definition _filter_by_size_dynamic (indices : list Z) (size_fn : Z -> pyval)
    (max_positions : pyval) (raise_exception noskip : bool) : result (list Z * list Z) :=
  let '(ignored, h) := new_list [] in
  let itr := collect_filtered (check_size size_fn max_positions) indices ignored noskip in
  let '(ignored, h) := if noskip then new_list h else (ignored, h) in
  '(indices', h) ← itr h;
  Ok (indices', read_list ignored h).

(** What [dataset.sizes] is, as far as [filter_by_size] looks: absent or of
    another type, one [np.ndarray], or a [list] of arrays. *)
Inductive sizes_attr : Type :=
| NoSizes
| SizesNdarray (a : list Z)
| SizesList (arrays : list (list Z)).

Record dataset : Type := {
  sizes : sizes_attr;
  size : Z -> pyval
}.

(** [a[i]] for an array [a] and one integer [i]: negative positions count
    from the end. *)
Definition np_getitem (a : list Z) (i : Z) : result Z :=
  let n := Z.of_nat (length a) in
  if (- n <=? i) && (i <? n)
  then match a !! Z.to_nat (if i <? 0 then i + n else i) with
       | Some v => Ok v
       | None => Raise IndexError
       end
  else Raise IndexError.

(** [a[indices]] for an array of positions. *)
Definition np_take (a : list Z) (indices : list Z) : result (list Z) :=
  mapM (M := result) (np_getitem a) indices.

(** [indices[mask]] for a boolean mask of the same length. *)
Definition np_mask (indices : list Z) (mask : list bool) : list Z :=
  map fst (List.filter snd (combine indices mask)).

(** The vectorised branch of [filter_by_size] over one array of sizes. *)
Definition filter_by_sizes_array (indices : list Z) (a : list Z) (max_positions : Z)
    : result (list Z * list Z) :=
  s ← np_take a indices;
  let ignored := np_mask indices (map (fun v => max_positions <? v) s) in
  let indices' := np_mask indices (map (fun v => v <=? max_positions) s) in
  Ok (indices', ignored).

(** The first statement of [filter_by_size]: the pair [(indices, ignored)]
    it computes. *)
Definition filter_by_size_select (indices : list Z) (ds : dataset) (max_positions : pyval)
    (noskip : bool) : result (list Z * list Z) :=
  match max_positions with
  | Atom (AInt m) =>
      match sizes ds with
      | SizesNdarray a => filter_by_sizes_array indices a m
      | SizesList [a] => filter_by_sizes_array indices a m
      | _ => _filter_by_size_dynamic indices (size ds) max_positions false noskip
      end
  | _ => _filter_by_size_dynamic indices (size ds) max_positions false noskip
  end.

(** What [filter_by_size] prints: the number of ignored samples,
    [max_positions] and [ignored[:10]]. *)
Record warning : Type := {
  warn_count : nat;
  warn_max_positions : pyval;
  warn_first : list Z
}.

(** [filter_by_size]: the indices returned and the warning printed, or the
    exception raised. *)
Definition filter_by_size (indices : list Z) (ds : dataset) (max_positions : pyval)
    (raise_exception noskip : bool) : result (list Z * option warning) :=
  '(indices', ignored) ← filter_by_size_select indices ds max_positions noskip;
  match ignored with
  | first :: _ =>
      if raise_exception
      then Raise (Exception_ first (size ds first) max_positions)
      else Ok (indices',
               Some {| warn_count := length ignored;
                       warn_max_positions := max_positions;
                       warn_first := take 10 ignored |})
  | [] => Ok (indices', None)
  end.

(** Whether [filter_by_size] takes the branch through
    [_filter_by_size_dynamic]: [max_positions] is not a number, or
    [dataset.sizes] is neither an array nor a list of one array. *)
Definition dynamic_path (ds : dataset) (max_positions : pyval) : bool :=
  match max_positions with
  | Atom (AInt _) =>
      match sizes ds with
      | SizesNdarray _ => false
      | SizesList [_] => false
      | _ => true
      end
  | _ => true
  end.

(** The test that one index undergoes in [filter_by_size]: on the
    vectorised branches its entry in the array of sizes against the
    number, on the other branch [check_size]. *)
Definition limit_predicate (ds : dataset) (max_positions : pyval) (i : Z) : result bool :=
  match max_positions with
  | Atom (AInt m) =>
      match sizes ds with
      | SizesNdarray a => s ← np_getitem a i; Ok (s <=? m)
      | SizesList [a] => s ← np_getitem a i; Ok (s <=? m)
      | _ => check_size (size ds) max_positions i
      end
  | _ => check_size (size ds) max_positions i
  end.

(** A test that returned [True]. *)
Definition passes (r : result bool) : bool :=
  match r with
  | Ok true => true
  | _ => false
  end.

(** ** Padded batches *)

(** [res[i][start:start + len(src)] = src] on one row. *)
Definition write_at (start : nat) (src row : list Z) : list Z :=
  take start row ++ src ++ drop (start + length src) row.

(** The last element, [src[-1]]. *)
Definition last_item (src : list Z) : result Z :=
  match last src with
  | Some x => Ok x
  | None => Raise IndexError
  end.

(** The inner [copy_tensor(src, dst)]: what is written to [dst]. The
    slices that [collate_tokens] passes as [dst] have the length of [src],
    so the assertion on [numel] holds. *)
Definition copy_tensor (eos_idx : option Z) (move_eos_to_beginning : bool) (src : list Z)
    : result (list Z) :=
  if move_eos_to_beginning
  then
    x ← last_item src;
    match eos_idx with
    | Some eos =>
        if x =? eos then Ok (eos :: removelast src) else Raise AssertionError
    | None => Raise AssertionError
    end
  else Ok src.

(** [max(v.size(0) for v in values)]. *)
Definition max_size (values : list (list Z)) : result nat :=
  match values with
  | [] => Raise ValueError
  | v :: values' => Ok (fold_left (fun m w => Nat.max m (length w)) values' (length v))
  end.

(** [collate_tokens(values, pad_idx, eos_idx, left_pad, move_eos_to_beginning)]. *)
Definition collate_tokens (values : list (list Z)) (pad_idx : Z) (eos_idx : option Z)
    (left_pad move_eos_to_beginning : bool) : result (list (list Z)) :=
  size ← max_size values;
  mapM (M := result)
       (fun v =>
          let row := replicate size pad_idx in
          dst ← copy_tensor eos_idx move_eos_to_beginning v;
          Ok (write_at (if left_pad then size - length v else 0)%nat dst row))
       values.

(** Undoing the padding of one row, given the original length. *)
Definition decollate_row (left_pad : bool) (len : nat) (row : list Z) : list Z :=
  if left_pad then drop (length row - len)%nat row else take len row.

(** ** SwitchOut *)

(** What [switchout] asks of the dictionary: [dic.pad()], [dic.eos()],
    [dic.bos()] and [len(dic)]. *)
Record dictionary : Type := {
  pad : Z;
  eos : Z;
  bos : Z;
  dic_len : Z
}.

(** The outcomes of the draws inside [switchout], by row and column, and
    the contents of the storage it allocates without initialising, by
    offset. [tau] and the softmax over the masked logits only shape the
    distribution of [num_words]. *)
Record draws : Type := {
  (** [Categorical(probs).sample()]: the count of each row *)
  num_words : nat -> Z;
  (** the coins of [torch.bernoulli], used where the probability is
      neither 0 nor 1 *)
  coins : nat -> nat -> bool;
  (** [torch.LongTensor(total_words)] *)
  corrupt_val : nat -> Z
}.

(** Arithmetic on [int64] tensors wraps around. *)
Definition wrap64 (z : Z) : Z := (z + 2 ^ 63) mod 2 ^ 64 - 2 ^ 63.

(** [torch.bernoulli] at one position with probability [n / len]. *)
Definition bernoulli (n len : Z) (coin : bool) : bool :=
  if n =? 0 then false else if n =? len then true else coin.

(** [~((~pad_mask) & (~eos_mask) & (~bos_mask))] at one position. *)
Definition sample_mask (dic : dictionary) (t : Z) : bool :=
  let pad_mask := t =? pad dic in
  let eos_mask := t =? eos dic in
  let bos_mask := t =? bos dic in
  negb (negb pad_mask && negb eos_mask && negb bos_mask).

(** [corrupt_pos]: the probability [num_words / lengths] of each row, set
    to 0 under [sample_mask], then the Bernoulli draw. [tokens] is
    rectangular and [lengths] has one entry per row. *)
Definition corrupt_pos (dic : dictionary) (d : draws) (tokens : list (list Z)) (lengths : list Z)
    : list (list bool) :=
  imap (fun i row =>
          imap (fun j t =>
                  let n := if sample_mask dic t then 0 else num_words d i in
                  bernoulli n (lengths !!! i) (coins d i j))
               row)
       tokens.

(** [zeros.masked_scatter_(mask, source)] on one row: the elements of
    [source] are consumed in order, from offset [k]. *)
Fixpoint masked_scatter_row (mask : list bool) (source : nat -> Z) (k : nat) : list Z * nat :=
  match mask with
  | [] => ([], k)
  | true :: mask' =>
      let '(r, k') := masked_scatter_row mask' source (S k) in (source k :: r, k')
  | false :: mask' =>
      let '(r, k') := masked_scatter_row mask' source k in (0 :: r, k')
  end.

(** The same on a matrix, row after row. *)
Fixpoint masked_scatter (mask : list (list bool)) (source : nat -> Z) (k : nat) : list (list Z) :=
  match mask with
  | [] => []
  | m :: mask' =>
      let '(r, k') := masked_scatter_row m source k in r :: masked_scatter mask' source k'
  end.

(** [int(corrupt_pos.sum())]. *)
Definition count_true (mask : list (list bool)) : nat :=
  length (List.filter id (concat mask)).

(** [switchout(tokens, lengths, tau, dic)] at the draws [d]. *)
Definition switchout (d : draws) (tokens : list (list Z)) (lengths : list Z) (dic : dictionary)
    : list (list Z) :=
  let pos := corrupt_pos dic d tokens lengths in
  let total_words := count_true pos in
  if (total_words =? 0)%nat then tokens
  else
    let corrupts := masked_scatter pos (corrupt_val d) 0 in
    zip_with (zip_with (fun t c =>
                          let sampled := wrap64 (t + c) mod dic_len dic in
                          if t =? pad dic then pad dic else sampled))
             tokens corrupts.

(** ** Seeded random scope *)

(** Code that reads and writes a global state [S] and may raise. *)
Definition M (S A : Type) : Type := S -> result A * S.

#[global] Instance M_ret {S} : MRet (M S) := fun A a st => (Ok a, st).
#[global] Instance M_bind {S} : MBind (M S) := fun A B f m st =>
  match m st with
  | (Ok a, st') => f a st'
  | (Raise e, st') => (Raise e, st')
  end.

(** [try: body finally: final]. *)
Definition try_finally {S A : Type} (body : M S A) (final : M S unit) : M S A :=
  fun st =>
    let '(r, st1) := body st in
    match final st1 with
    | (Ok _, st2) => (r, st2)
    | (Raise e, st2) => (Raise e, st2)
    end.

(** [float(n)] for an [int] below the range limit of doubles, as the
    integer the double holds: [n] rounded to 53 significant bits, ties to
    even. *)
Definition float_of_int (n : Z) : Z :=
  let m := Z.abs n in
  let e := Z.log2 m - 52 in
  if e <=? 0 then n
  else
    let q := Z.shiftr m e in
    let r := Z.land m (Z.ones e) in
    let half := Z.shiftl 1 (e - 1) in
    let q' := if (half <? r) || ((r =? half) && Z.odd q) then q + 1 else q in
    Z.sgn n * Z.shiftl q' e.

(** [int(h % 1e6)]: [h] is converted to a double, the remainder of two
    integral doubles is exact and takes the sign of the divisor. *)
Definition mod_1e6 (h : Z) : Z := float_of_int h mod 1000000.

Section NumpySeed.
(** The state of the global NumPy generator, [np.random.seed] and the
    built-in [hash] on a tuple of integers. *)
Context {rng : Type}.
Variable np_random_seed : Z -> M rng unit.
Variable hash : list Z -> Z.

Definition np_random_get_state : M rng rng := fun st => (Ok st, st).
Definition np_random_set_state (state : rng) : M rng unit := fun _ => (Ok tt, state).

(** [with numpy_seed(seed, *addl_seeds): body]. *)
Definition numpy_seed {A : Type} (seed : option Z) (addl_seeds : list Z) (body : M rng A)
    : M rng A :=
  match seed with
  | None => body
  | Some seed =>
      let seed := if (0 <? length addl_seeds)%nat
                  then mod_1e6 (hash (seed :: addl_seeds))
                  else seed in
      state ← np_random_get_state;
      _ ← np_random_seed seed;
      try_finally body (np_random_set_state state)
  end.
End NumpySeed.

(** CPython's [hash] of an [int] and of a tuple of [int]s (the xxHash-style
    combination of CPython 3.8 and later, 64-bit build), used to run
    [numpy_seed] on concrete seeds. *)
Definition wrapu64 (z : Z) : Z := z mod 2 ^ 64.
Definition hash_int (n : Z) : Z :=
  let h := Z.sgn n * (Z.abs n mod (2 ^ 61 - 1)) in
  if h =? -1 then -2 else h.
Definition xxrotate (x : Z) : Z := wrapu64 (Z.lor (Z.shiftl x 31) (Z.shiftr x 33)).
Definition cpython_tuple_hash (items : list Z) : Z :=
  let acc :=
    fold_left (fun acc item =>
                 let lane := wrapu64 (hash_int item) in
                 let acc := wrapu64 (acc + lane * 14029467366897019727) in
                 let acc := xxrotate acc in
                 wrapu64 (acc * 11400714785074694791))
              items 2870177450012600261 in
  let acc := wrapu64 (acc + Z.lxor (Z.of_nat (length items))
                                   (Z.lxor 2870177450012600261 3527539)) in
  if acc =? 2 ^ 64 - 1 then 1546275796
  else if 2 ^ 63 <=? acc then acc - 2 ^ 64 else acc.

(** ** Batching by size *)

(** Modelled from the spec: the running maximum of [batch_by_size_fast],
    the largest [num_tokens] in the running batch; 0 for an empty batch. *)
Definition running_max (num_tokens_fn : Z -> Z) (batch : list Z) : Z :=
  foldr (fun i m => Z.max (num_tokens_fn i) m) 0 batch.

(** Modelled from the spec: one index taken by [batch_by_size_fast], from
    the batches emitted so far and the running batch to the same after the
    index. *)
Definition pack_index (num_tokens_fn : Z -> Z) (max_tokens max_sentences : Z) (bsz_mult : nat)
    (st : list (list Z) * list Z) (idx : Z) : list (list Z) * list Z :=
  let '(batches, batch) := st in
  let tokens_if_added :=
    Z.max (running_max num_tokens_fn batch) (num_tokens_fn idx) * Z.of_nat (length batch + 1) in
  let full := (max_tokens <? tokens_if_added) || (max_sentences <? Z.of_nat (length batch + 1)) in
  match batch with
  | [] => (batches, [idx])
  | _ :: _ =>
      if full
      then
        let mod_len :=
          Nat.max (bsz_mult * (length batch / bsz_mult)) (length batch mod bsz_mult) in
        (batches ++ [take mod_len batch], drop mod_len batch ++ [idx])
      else (batches, batch ++ [idx])
  end.

(** Modelled from the spec: [batch_by_size_fast] of the compiled module
    [fairseq.data.data_utils_fast], which is not among the sources. A
    single greedy pass in input order: an index that would push the padded
    cost [max * (len + 1)] over [max_tokens], or the length over
    [max_sentences], closes the running batch, unless that batch is empty;
    a closed batch is cut at a multiple of [bsz_mult] when it is at least
    that long, the indices held back opening the next batch; the batch
    left at the end is emitted when it is not empty. *)
Definition batch_by_size_fast (indices : list Z) (num_tokens_fn : Z -> Z)
    (max_tokens max_sentences : Z) (bsz_mult : nat) : list (list Z) :=
  let '(batches, batch) :=
    fold_left (pack_index num_tokens_fn max_tokens max_sentences bsz_mult) indices ([], []) in
  match batch with
  | [] => batches
  | _ :: _ => batches ++ [batch]
  end.

(** [sys.maxsize] on a 64-bit build. *)
Definition sys_maxsize : Z := 2 ^ 63 - 1.

(** [batch_by_size(indices, num_tokens_fn, max_tokens, max_sentences,
    required_batch_size_multiple)], the compiled module being importable. *)
Definition batch_by_size (indices : list Z) (num_tokens_fn : Z -> Z)
    (max_tokens max_sentences : option Z) (required_batch_size_multiple : nat)
    : list (list Z) :=
  let max_tokens := default sys_maxsize max_tokens in
  let max_sentences := default sys_maxsize max_sentences in
  let bsz_mult := required_batch_size_multiple in
  batch_by_size_fast indices num_tokens_fn max_tokens max_sentences bsz_mult.

(** ** The steps of the multilingual translation task *)

(** The collaborators of the step functions: numbers and tensors with the
    operations the steps apply to them, the per-pair sample, and what the
    criterion returns. Nothing is assumed of the operations. *)
Class Torch : Type := {
  num : Type;
  tensor : Type;
  batch : Type;
  submodel : Type;
  logging : Type;
  loss_t : Type;
  nll_t : Type;
  optim : Type;
  (** [0.], [0] and [+] *)
  float_zero : num;
  int_zero : num;
  add : num -> num -> num;
  (** [len(sample[lang_pair])] and [cur_sample['nsentences']] *)
  batch_len : batch -> nat;
  nsentences : batch -> option num;
  (** [score.sum()] *)
  tensor_sum : tensor -> num;
  (** [torch.softmax(score, dim=0) * example_size] *)
  softmax_times : tensor -> num -> tensor;
  (** [score * example_size / sum_score] *)
  times_div : tensor -> num -> num -> tensor;
  (** [loss *= 0] and [loss.detach().item()] *)
  loss_times_zero : loss_t -> loss_t;
  loss_item : loss_t -> num
}.

Section Steps.
Context `{Torch}.

(** What a step does to its surroundings. *)
Inductive event : Type :=
| ModelTrain
| ModelEval
| Backward (o : optim) (loss : loss_t) (retain_graph : bool).

(** The objects a step mutates: the calls made so far, and the
    dictionaries [loss_copy] and [data_actor_out] of the caller (either
    may be [None]). *)
Record world : Type := {
  events : list event;
  loss_copy : option (gmap string nll_t);
  data_actor_out : option (gmap string tensor)
}.

Definition emit (e : event) : M world unit := fun w =>
  (Ok tt, {| events := events w ++ [e];
             loss_copy := loss_copy w;
             data_actor_out := data_actor_out w |}).

Definition raise {A : Type} (e : exn) : M world A := fun w => (Raise e, w).

(** [data_actor_out[lang_pair] = score]. *)
Definition set_data_actor_out (lang_pair : string) (score : tensor) : M world unit := fun w =>
  match data_actor_out w with
  | Some d => (Ok tt, {| events := events w;
                         loss_copy := loss_copy w;
                         data_actor_out := Some (<[lang_pair := score]> d) |})
  | None => (Raise TypeError, w)
  end.

(** [if loss_copy is not None: loss_copy[lang_pair] = nll_loss_data]. *)
Definition set_loss_copy (lang_pair : string) (nll_loss_data : nll_t) : M world unit := fun w =>
  (Ok tt, {| events := events w;
             loss_copy := (fun d => <[lang_pair := nll_loss_data]> d) <$> loss_copy w;
             data_actor_out := data_actor_out w |}).

Definition loss_copy_is_not_None : M world bool := fun w =>
  (Ok (bool_decide (is_Some (loss_copy w))), w).

(** [for x in l: acc = body(x, acc)]. *)
Fixpoint for_each {X A : Type} (l : list X) (body : X -> A -> M world A) (acc : A)
    : M world A :=
  match l with
  | [] => mret acc
  | x :: l' => acc' ← body x acc; for_each l' body acc'
  end.

(** [d[key]] on a dictionary. *)
Definition dict_get {V : Type} (d : gmap string V) (key : string) : M world V :=
  match d !! key with
  | Some v => mret v
  | None => raise KeyError
  end.

(** The sample of a step: a dictionary from language pairs to the
    per-pair sample or [None]. *)
Abbreviation sample_t := (gmap string (option batch)).

(** [lang_pair not in sample or sample[lang_pair] is None or
    len(sample[lang_pair]) == 0]. *)
Definition absent (sample : sample_t) (lang_pair : string) : bool :=
  match sample !! lang_pair with
  | None => true
  | Some None => true
  | Some (Some b) => (batch_len b =? 0)%nat
  end.

(** [sample[lang_pair]], used as a per-pair sample. *)
Definition sample_get (sample : sample_t) (lang_pair : string) : M world batch :=
  match sample !! lang_pair with
  | Some (Some b) => mret b
  | Some None => raise TypeError
  | None => raise KeyError
  end.

(** The keyword arguments [data_score] and [loss_copy] of the criterion;
    [valid_step] passes none. *)
Definition criterion_t : Type :=
  submodel -> batch -> option (option tensor * bool) -> loss_t * num * logging * nll_t.

Inductive optimizer_t : Type :=
| Optimizer (o : optim)
| OptimizerList (os : list optim).

(** The [self.args] a step reads, and the language pairs of the task. *)
Record task : Type := {
  data_actor_step_update : bool;
  out_score_type : string;
  select_by_dds_epoch : Z;
  model_lang_pairs : list string;
  eval_lang_pairs : list string
}.

(** [optimizer.backward(loss)], or on a list every optimizer but the
    last with [retain_graph=True], then the last. *)
Definition backward (optimizer : optimizer_t) (loss : loss_t) : M world unit :=
  match optimizer with
  | Optimizer o => emit (Backward o loss false)
  | OptimizerList os =>
      _ ← for_each (removelast os) (fun o _ => emit (Backward o loss true)) tt;
      match last os with
      | Some o => emit (Backward o loss false)
      | None => raise IndexError
      end
  end.

(** The first loop under [data_actor_step_update]: the scores, their sum
    and the number of sentences. *)
Definition score_loop (sample : sample_t) (data_actor : batch -> tensor)
    (lang_pairs : list string) : M world (gmap string tensor * num * num) :=
  for_each lang_pairs
    (fun lang_pair '(data_score, sum_score, example_size) =>
       if absent sample lang_pair then mret (data_score, sum_score, example_size)
       else
         cur_sample ← sample_get sample lang_pair;
         let score := data_actor cur_sample in
         _ ← set_data_actor_out lang_pair score;
         let data_score := <[lang_pair := score]> data_score in
         let sum_score := add sum_score (tensor_sum score) in
         match nsentences cur_sample with
         | Some n => mret (data_score, sum_score, add example_size n)
         | None => raise KeyError
         end)
    (∅, int_zero, int_zero).

(** The second loop: the normalised scores. *)
Definition normalise_loop (self : task) (sample : sample_t) (data_score : gmap string tensor)
    (sum_score example_size : num) (lang_pairs : list string)
    : M world (gmap string tensor) :=
  for_each lang_pairs
    (fun lang_pair normed_data_score =>
       if absent sample lang_pair then mret normed_data_score
       else
         score ← dict_get data_score lang_pair;
         if String.eqb (out_score_type self) "tanh"
         then mret (<[lang_pair := softmax_times score example_size]> normed_data_score)
         else mret (<[lang_pair := times_div score example_size sum_score]> normed_data_score))
    ∅.

(** The third loop: the criterion on every pair of the sample, the
    backward pass, and the sums. *)
Definition loss_loop (self : task) (sample : sample_t) (model : gmap string submodel)
    (criterion : criterion_t) (optimizer : optimizer_t) (ignore_grad : bool)
    (data_score : option (gmap string tensor)) (normed_data_score : gmap string tensor)
    (lang_pairs : list string) : M world (num * num * gmap string logging) :=
  for_each lang_pairs
    (fun lang_pair '(agg_loss, agg_sample_size, agg_logging_output) =>
       if absent sample lang_pair then mret (agg_loss, agg_sample_size, agg_logging_output)
       else
         score ←
           (if bool_decide (is_Some data_score) && (select_by_dds_epoch self <? 0)
            then v ← dict_get normed_data_score lang_pair; mret (Some v)
            else mret None);
         m ← dict_get model lang_pair;
         cur_sample ← sample_get sample lang_pair;
         with_copy ← loss_copy_is_not_None;
         let '(loss, sample_size, logging_output, nll_loss_data) :=
           criterion m cur_sample (Some (score, with_copy)) in
         _ ← set_loss_copy lang_pair nll_loss_data;
         loss ← (if ignore_grad then mret (loss_times_zero loss)
                 else _ ← backward optimizer loss; mret loss);
         mret (add agg_loss (loss_item loss),
               add agg_sample_size sample_size,
               <[lang_pair := logging_output]> agg_logging_output))
    (float_zero, float_zero, ∅).

(** [train_step(self, sample, model, criterion, optimizer, ignore_grad,
    data_actor)]; [loss_copy] and [data_actor_out] are in the [world]. *)
Definition train_step (self : task) (sample : sample_t) (model : gmap string submodel)
    (criterion : criterion_t) (optimizer : optimizer_t) (ignore_grad : bool)
    (data_actor : option (batch -> tensor))
    : M world (num * num * gmap string logging) :=
  _ ← emit ModelTrain;
  '(data_score, normed_data_score) ←
    match data_actor_step_update self, data_actor with
    | true, Some data_actor =>
        '(data_score, sum_score, example_size) ←
          score_loop sample data_actor (model_lang_pairs self);
        normed ← normalise_loop self sample data_score sum_score example_size
                   (model_lang_pairs self);
        mret (Some data_score, normed)
    | _, _ => mret (None, ∅)
    end;
  loss_loop self sample model criterion optimizer ignore_grad data_score normed_data_score
            (model_lang_pairs self).

(** The loop of [valid_step]. *)
Definition valid_loop (sample : sample_t) (model : gmap string submodel)
    (criterion : criterion_t) (lang_pairs : list string)
    : M world (num * num * gmap string logging) :=
  for_each lang_pairs
    (fun lang_pair '(agg_loss, agg_sample_size, agg_logging_output) =>
       if absent sample lang_pair then mret (agg_loss, agg_sample_size, agg_logging_output)
       else
         m ← dict_get model lang_pair;
         cur_sample ← sample_get sample lang_pair;
         let '(loss, sample_size, logging_output, _) := criterion m cur_sample None in
         mret (add agg_loss (loss_item loss),
               add agg_sample_size sample_size,
               <[lang_pair := logging_output]> agg_logging_output))
    (float_zero, float_zero, ∅).

(** [valid_step(self, sample, model, criterion)]. *)
Definition valid_step (self : task) (sample : sample_t) (model : gmap string submodel)
    (criterion : criterion_t) : M world (num * num * gmap string logging) :=
  _ ← emit ModelEval;
  valid_loop sample model criterion (eval_lang_pairs self).

(** The task with one language pair taken out of its configuration. *)
Definition without_pair (lang_pair : string) (self : task) : task :=
  let others := List.filter (fun lp => negb (String.eqb lp lang_pair)) in
  {| data_actor_step_update := data_actor_step_update self;
     out_score_type := out_score_type self;
     select_by_dds_epoch := select_by_dds_epoch self;
     model_lang_pairs := others (model_lang_pairs self);
     eval_lang_pairs := others (eval_lang_pairs self) |}.
End Steps.

(** ** Splitting and joining *)

(** [s.split(sep)] for a separator of one character, the only kind the
    sources use: the pieces between the separators, in order; there is
    always at least one piece. *)
Fixpoint split_on {A : Type} `{EqDecision A} (sep : A) (s : list A) : list (list A) :=
  match s with
  | [] => [[]]
  | c :: s' =>
      if decide (c = sep) then [] :: split_on sep s'
      else match split_on sep s' with
           | piece :: pieces => (c :: piece) :: pieces
           | [] => [[c]]
           end
  end.

(** [sep.join(pieces)]. *)
Fixpoint join {A : Type} (sep : list A) (pieces : list (list A)) : list A :=
  match pieces with
  | [] => []
  | piece :: pieces' =>
      match pieces' with
      | [] => piece
      | _ :: _ => piece ++ sep ++ join sep pieces'
      end
  end.

(** The same on the names of languages and language pairs, which are held
    as [string]s. *)
Definition split_string (sep : ascii) (s : string) : list string :=
  map string_of_list_ascii (split_on sep (list_ascii_of_string s)).

(** ** Language pairs from file names, and tags *)

(** [infer_language_pair(path)] over the names that [os.listdir(path)]
    returns: the two languages of the first name of the form
    [<split>.<lang1>-<lang2>.(...)], or [(None, None)]. *)
Fixpoint infer_language_pair (listdir : list pystr) : list (option pystr) :=
  match listdir with
  | [] => [None; None]
  | filename :: rest =>
      let parts := split_on 46 filename in
      match parts !! 1%nat with
      | Some part =>
          if (3 <=? length parts)%nat && (length (split_on 45%Z part) =? 2)%nat
          then Some <$> split_on 45 part
          else infer_language_pair rest
      | None => infer_language_pair rest
      end
  end.

(** [add_tag(samples, key, tag)]: the samples are distinct [dict]s from
    field names to 1d tensors; each is updated in place, so the list of
    samples is the state. [done] holds the samples already updated. *)
Fixpoint add_tag_from (key : string) (tag : Z) (done todo : list (gmap string (list Z)))
    : result unit * list (gmap string (list Z)) :=
  match todo with
  | [] => (Ok tt, done)
  | sample :: todo' =>
      match sample !! key with
      | Some orig_data => add_tag_from key tag (done ++ [<[key := tag :: orig_data]> sample]) todo'
      | None => (Raise KeyError, done ++ todo)
      end
  end.

Definition add_tag (key : string) (tag : Z) : M (list (gmap string (list Z))) unit :=
  fun samples => add_tag_from key tag [] samples.

(** ** The configuration of the multilingual translation task *)

(** [_lang_token(lang)]. *)
Definition _lang_token (lang : string) : string := ("__" ++ lang ++ "__")%string.

(** What the task asks of the dictionary of one language: [eos()],
    [unk_index] and [index(symbol)]. *)
Record lang_dictionary : Type := {
  lang_eos : Z;
  unk_index : Z;
  index : string -> Z
}.

(** [_lang_token_index(dic, lang)]. *)
Definition _lang_token_index (dic : lang_dictionary) (lang : string) : result Z :=
  let idx := index dic (_lang_token lang) in
  if idx =? unk_index dic then Raise AssertionError else Ok idx.

(** The [args] that the methods below read. *)
Record task_args : Type := {
  lang_pairs : list string;
  source_lang : option string;
  target_lang : option string;
  encoder_langtok : option string;
  decoder_langtok : bool;
  max_source_positions : Z;
  max_target_positions : Z
}.

(** [d[key]] on a dictionary, outside any state. *)
Definition getitem_map {V : Type} (d : gmap string V) (key : string) : result V :=
  match d !! key with
  | Some v => Ok v
  | None => Raise KeyError
  end.

(** [get_encoder_langtok(self, src_lang, tgt_lang)]. *)
Definition get_encoder_langtok (args : task_args) (dicts : gmap string lang_dictionary)
    (src_lang tgt_lang : string) : result Z :=
  match encoder_langtok args with
  | None => d ← getitem_map dicts src_lang; Ok (lang_eos d)
  | Some langtok =>
      if String.eqb langtok "src"
      then d ← getitem_map dicts src_lang; _lang_token_index d src_lang
      else d ← getitem_map dicts src_lang; _lang_token_index d tgt_lang
  end.

(** [get_decoder_langtok(self, tgt_lang)]. *)
Definition get_decoder_langtok (args : task_args) (dicts : gmap string lang_dictionary)
    (tgt_lang : string) : result Z :=
  if negb (decoder_langtok args)
  then d ← getitem_map dicts tgt_lang; Ok (lang_eos d)
  else d ← getitem_map dicts tgt_lang; _lang_token_index d tgt_lang.

(** The property [target_dictionary]: [self.dicts[self.args.target_lang]];
    no dictionary has the key [None]. *)
Definition target_dictionary (args : task_args) (dicts : gmap string lang_dictionary)
    : result lang_dictionary :=
  match target_lang args with
  | Some lang => getitem_map dicts lang
  | None => Raise KeyError
  end.

(** The [bos_token] that [inference_step] hands to the generator. The
    language of [_lang_token_index(..., self.args.target_lang)] is a
    string whenever the dictionary lookup before it succeeded. *)
Definition inference_bos_token (args : task_args) (dicts : gmap string lang_dictionary)
    : result Z :=
  if decoder_langtok args
  then d ← target_dictionary args dicts;
       _lang_token_index d (default EmptyString (target_lang args))
  else d ← target_dictionary args dicts; Ok (lang_eos d).

(** What [check_args] of [build_model] can complain about. *)
Inductive check_message : Type :=
| LangPairsShouldInclude (expected : list string)
| EncoderLangtokShouldBe (expected : option string)
| DecoderLangtokShould (expected : bool).

(** The [messages] of [check_args]: [self_args] are the task's arguments,
    [args] the model's. *)
Definition check_args_messages (self_args args : task_args) : list check_message :=
  let given : gset string := list_to_set (lang_pairs self_args) in
  let expected : gset string := list_to_set (lang_pairs args) in
  let symmetric_difference := (given ∖ expected) ∪ (expected ∖ given) in
  (if bool_decide (base.size symmetric_difference ≠ 0%nat)
   then [LangPairsShouldInclude (lang_pairs args)] else [])
  ++ (if bool_decide (encoder_langtok self_args ≠ encoder_langtok args)
      then [EncoderLangtokShouldBe (encoder_langtok args)] else [])
  ++ (if bool_decide (decoder_langtok self_args ≠ decoder_langtok args)
      then [DecoderLangtokShould (decoder_langtok args)] else []).

(** [check_args()]: a [ValueError] that joins the messages, if any. *)
Definition check_args (self_args args : task_args) : result unit :=
  if (0 <? length (check_args_messages self_args args))%nat
  then Raise ValueError
  else Ok tt.

(** ['%s' % x] for a string or [None]. *)
Definition percent_s (x : option string) : string := default "None"%string x.

(** [OrderedDict(items)]: a key met again keeps its place and takes the
    new value. *)
Fixpoint setitem (d : list (string * atom)) (key : string) (v : atom) : list (string * atom) :=
  match d with
  | [] => [(key, v)]
  | (k, v') :: d' => if String.eqb k key then (k, v) :: d' else (k, v') :: setitem d' key v
  end.

Definition ordered_dict (items : list (string * atom)) : list (string * atom) :=
  fold_left (fun d '(k, v) => setitem d k v) items [].

(** [max_positions(self)]; [datasets] gives, for every split loaded, the
    keys of its dataset. *)
Definition max_positions (args : task_args) (datasets : list (string * list string)) : pyval :=
  let limit := ATuple [Some (max_source_positions args); Some (max_target_positions args)] in
  if (length datasets =? 0)%nat
  then Dict [((percent_s (source_lang args) ++ "-" ++ percent_s (target_lang args))%string,
              limit)]
  else Dict (ordered_dict (flat_map (fun '(split, dataset_keys) =>
                                       map (fun key => (key, limit)) dataset_keys)
                                    datasets)).

(** [{l: i for i, l in enumerate(self.model_lang_pairs)}], the
    [langpair2id] of [__init__]. *)
Definition langpair2id (model_lang_pairs : list string) : gmap string nat :=
  fold_left (fun d '(i, l) => <[l := i]> d) (imap (fun i l => (i, l)) model_lang_pairs) ∅.

(** [a, b = s.split('-')]. *)
Definition unpack_pair (s : string) : result (string * string) :=
  match split_string "-" s with
  | [a; b] => Ok (a, b)
  | _ => Raise ValueError
  end.

(** [__init__]: the language pairs of the task and the source and target
    language left in [args]. *)
Definition init_lang_pairs (args : task_args) (training : bool)
    : result (list string * option string * option string) :=
  if training
  then
    match lang_pairs args with
    | first :: _ =>
        '(src, tgt) ← unpack_pair first;
        Ok (lang_pairs args, Some src, Some tgt)
    | [] => Raise IndexError
    end
  else
    Ok ([(percent_s (source_lang args) ++ "-" ++ percent_s (target_lang args))%string],
        source_lang args, target_lang args).

(** The order of [sorted] on strings. *)
Definition string_le (a b : string) : Prop := Is_true (String.leb a b).

#[global] Instance string_le_dec : RelDecision string_le.
Proof. intros a b. unfold string_le. apply _. Defined.

(** The language pairs and languages of [prepare]: [args.lang_pairs] and
    [args.eval_lang_pairs] as given on the command line, the pairs and
    evaluation pairs split at the commas, [sorted_langs] and [training]. *)
Definition prepare_languages (lang_pairs_arg eval_lang_pairs_arg : option string)
    (source_lang_arg target_lang_arg : option string)
    : result (list string * list string * list string * bool) :=
  match lang_pairs_arg with
  | None => Raise ValueError
  | Some given =>
      let lang_pairs := split_string "," given in
      let eval_lang_pairs :=
        match eval_lang_pairs_arg with
        | Some e => split_string "," e
        | None => lang_pairs
        end in
      let langs : gset string :=
        list_to_set (flat_map (split_string "-") lang_pairs) in
      let sorted_langs := merge_sort string_le (elements langs) in
      let training :=
        negb (bool_decide (is_Some source_lang_arg) || bool_decide (is_Some target_lang_arg)) in
      Ok (lang_pairs, eval_lang_pairs, sorted_langs, training)
  end.

Section Logging.
Context `{Torch}.
(** [sample_lang.get('ntokens')] and [sample_lang['target'].size(0)],
    [None] when the key is not there. *)
Variable get_ntokens : batch -> option num.
Variable target_size : batch -> option num.

(** [sum(f(sample_lang) for sample_lang in sample.values())]; a sample
    that is [None] has neither [get] nor [in]. *)
Fixpoint sum_over (f : batch -> num) (e : exn) (values : list (option batch)) (acc : num)
    : result num :=
  match values with
  | [] => Ok acc
  | Some sample_lang :: values' => sum_over f e values' (add acc (f sample_lang))
  | None :: _ => Raise e
  end.

(** [init_logging_output(self, sample)] as the pair of [ntokens] and
    [nsentences]; [sample] lists the items of the dictionary in order. *)
Definition init_logging_output (sample : option (list (string * option batch)))
    : result (num * num) :=
  match sample with
  | Some items =>
      ntokens ← sum_over (fun s => default int_zero (get_ntokens s)) AttributeError
                         (map snd items) int_zero;
      nsentences ← sum_over (fun s => default int_zero (target_size s)) TypeError
                            (map snd items) int_zero;
      Ok (ntokens, nsentences)
  | None => Ok (int_zero, int_zero)
  end.
End Logging.

(** The test of one shared field in the [dict] branch of [check_size]:
    [all(a is None or b is None or a <= b
         for a, b in zip(idx_size[key], max_positions[key]))]. *)
Definition compare_field (idx_size max_items : list (string * atom)) (key : string)
    : result bool :=
  a ← getitem idx_size key;
  b ← getitem max_items key;
  la ← iter_atom a;
  lb ← iter_atom b;
  Ok (forallb (fun '(x, y) => none_or_le x y) (combine la lb)).

(** ** Inputs of the examples *)

(** A dataset of sizes [(10 * i, 3)]. *)
Definition pairs_dataset : dataset :=
  {| sizes := NoSizes; size := fun i => PTuple [Some (10 * i); Some 3] |}.

(** A dataset of sizes [{'src': 4 * i, 'tgt': 100}]. *)
Definition dict_dataset : dataset :=
  {| sizes := NoSizes;
     size := fun i => Dict [("src"%string, AInt (4 * i)); ("tgt"%string, AInt 100)] |}.

(** A dictionary of ten symbols with the usual special ids. *)
Definition small_dic : dictionary := {| pad := 1; eos := 2; bos := 0; dic_len := 10 |}.

(** Draws that select every position they may, over a given storage. *)
Definition eager_draws (storage : nat -> Z) : draws :=
  {| num_words := fun _ => 2; coins := fun _ _ => true; corrupt_val := storage |}.

(** A generator whose state is the last seed it was given. *)
Definition last_seed (seed : Z) : M Z unit := fun _ => (Ok tt, seed).

(** A generator that refuses the seeds [np.random.seed] refuses, those
    outside [0, 2 ** 32), with [ValueError] and without touching its
    state; its state is otherwise the last seed it was given. *)
Definition checked_seed (seed : Z) : M Z unit := fun st =>
  if (0 <=? seed) && (seed <? 2 ^ 32) then (Ok tt, seed) else (Raise ValueError, st).

(** Collaborators over integers, to run the steps: a sample is the list
    of its sentences, its loss their sum. *)
Definition toy_torch : Torch :=
  {| num := Z; tensor := Z; batch := list Z; submodel := Z; logging := nat;
     loss_t := Z; nll_t := Z; optim := nat;
     float_zero := 0; int_zero := 0; add := Z.add;
     batch_len := @length Z;
     nsentences := fun b => Some (Z.of_nat (length b));
     tensor_sum := fun t => t;
     softmax_times := fun t n => t * n;
     times_div := fun t n d => t * n / d;
     loss_times_zero := fun _ => 0;
     loss_item := fun l => l |}.

(** A sample with sentences for [en-de], [None] for [en-fr], an empty
    sample for [en-es] and nothing for [en-it]. *)
Definition toy_sample : gmap string (option (list Z)) :=
  <["en-de"%string := Some [3; 4]]>
    (<["en-fr"%string := None]> (<["en-es"%string := Some []]> ∅)).

Definition toy_task : @task :=
  {| data_actor_step_update := true;
     out_score_type := "tanh"%string;
     select_by_dds_epoch := -1;
     model_lang_pairs := ["en-fr"; "en-de"; "en-it"; "en-es"]%string;
     eval_lang_pairs := ["en-fr"; "en-de"; "en-it"; "en-es"]%string |}.

(** A criterion whose loss is the model's weight times the sum of the
    sentences. *)
Definition toy_criterion : @criterion_t toy_torch :=
  fun m b _ => (m * foldr Z.add 0 b, Z.of_nat (length b), length b, 0).

Definition toy_model : gmap string Z := <["en-de"%string := 2]> ∅.

Definition toy_world : @world toy_torch :=
  {| events := []; loss_copy := None; data_actor_out := Some ∅ |}.

(** * Properties *)

(** ** [process_bpe_symbol] *)

Example replace_empty_old : replace [] (str "X") (str "abc") = str "XaXbXcX".
Proof. reflexivity. Qed.

Example replace_no_overlap : replace (str "aa") (str "b") (str "aaa") = str "ba".
Proof. reflexivity. Qed.

Lemma process_bpe_symbol_None sentence : process_bpe_symbol sentence None = sentence.
Proof. reflexivity. Qed.

(** With the symbol that carries the separating space, the pieces are
    joined, and so are the words. *)
Example process_bpe_symbol_at_at_space :
  process_bpe_symbol (str "he@@ llo@@ world") (Some (str "@@ ")) = str "helloworld".
Proof. vm_compute. reflexivity. Qed.

(** C8, as stated, fails on its first example: removing ["@@"] leaves the
    space that follows each marker, so the result is not ["hello world"]. *)
Lemma process_bpe_symbol_at_at_not_hello_world :
  process_bpe_symbol (str "he@@ llo@@ world") (Some (str "@@")) <> str "hello world".
Proof. vm_compute. discriminate. Qed.

(** C8, amended: [process_bpe_symbol] applied to ["he@@ llo@@ world"] with
    symbol ["@@"] returns ["he llo world"] (every occurrence of the symbol
    is deleted, the spaces stay), and applied to ["▁he ▁llo"] with symbol
    ["sentencepiece"] returns ["he llo"]. *)
Theorem process_bpe_symbol_examples :
  process_bpe_symbol (str "he@@ llo@@ world") (Some (str "@@")) = str "he llo world"
  /\ process_bpe_symbol ([u2581] ++ str "he " ++ [u2581] ++ str "llo")
                        (Some (str "sentencepiece")) = str "he llo".
Proof. split; vm_compute; reflexivity. Qed.

(** ** [batch_by_size] *)

(** The example of the specification. *)
Example batch_by_size_example :
  batch_by_size [0; 1; 2; 3] (fun i => default 0 ([3; 5; 2; 9] !! Z.to_nat i))
                (Some 10) (Some 3) 1
  = [[0; 1]; [2]; [3]].
Proof. vm_compute. reflexivity. Qed.

Example batch_by_size_multiple :
  batch_by_size [0; 1; 2; 3; 4; 5; 6; 7; 8; 9; 10] (fun _ => 1) (Some 7) None 4
  = [[0; 1; 2; 3]; [4; 5; 6; 7; 8; 9; 10]].
Proof. vm_compute. reflexivity. Qed.

(** The packer only moves indices from the running batch to the emitted
    batches: what it has taken so far is always the emitted batches
    followed by the running batch. *)
Lemma pack_index_concat num_tokens_fn max_tokens max_sentences bsz_mult batches batch idx :
  let '(batches', batch') :=
    pack_index num_tokens_fn max_tokens max_sentences bsz_mult (batches, batch) idx in
  concat batches' ++ batch' = concat batches ++ batch ++ [idx].
Proof.
  unfold pack_index. destruct batch as [|i batch]; [done|].
  destruct (_ || _); [|done].
  rewrite concat_app. simpl. rewrite app_nil_r, <- !app_assoc.
  f_equal. rewrite (app_assoc (take _ _)). by rewrite take_drop.
Qed.

Lemma fold_pack_index_concat num_tokens_fn max_tokens max_sentences bsz_mult indices :
  forall batches batch,
    let '(batches', batch') :=
      fold_left (pack_index num_tokens_fn max_tokens max_sentences bsz_mult)
                indices (batches, batch) in
    concat batches' ++ batch' = concat batches ++ batch ++ indices.
Proof.
  induction indices as [|idx indices IH]; intros batches batch; cbn [fold_left].
  - by rewrite app_nil_r.
  - pose proof (pack_index_concat num_tokens_fn max_tokens max_sentences bsz_mult
                  batches batch idx) as Hstep.
    destruct (pack_index _ _ _ _ (batches, batch) idx) as [batches1 batch1].
    specialize (IH batches1 batch1).
    destruct (fold_left _ indices (batches1, batch1)) as [batches' batch'].
    rewrite IH, app_assoc, Hstep. by rewrite <- !app_assoc.
Qed.

Lemma batch_by_size_fast_concat indices num_tokens_fn max_tokens max_sentences bsz_mult :
  concat (batch_by_size_fast indices num_tokens_fn max_tokens max_sentences bsz_mult) = indices.
Proof.
  unfold batch_by_size_fast.
  pose proof (fold_pack_index_concat num_tokens_fn max_tokens max_sentences bsz_mult
                indices [] []) as Hfold.
  destruct (fold_left _ indices ([], [])) as [batches batch].
  simpl in Hfold. destruct batch as [|i batch].
  - by rewrite app_nil_r in Hfold.
  - rewrite concat_app. simpl. by rewrite app_nil_r.
Qed.

(** C1: for every index sequence (empty or not), every [max_tokens] and
    [max_sentences] (given or defaulted) and every batch size multiple,
    the concatenation, in order, of the batches of [batch_by_size] is the
    input sequence: no index is lost, duplicated or reordered. *)
Theorem batch_by_size_concat indices num_tokens_fn max_tokens max_sentences
    required_batch_size_multiple :
  concat (batch_by_size indices num_tokens_fn max_tokens max_sentences
                        required_batch_size_multiple)
  = indices.
Proof. apply batch_by_size_fast_concat. Qed.

(** ** [collate_tokens] *)

Lemma mapM_result_fmap {A B : Type} (f : A -> result B) (g : A -> B) (l : list A) :
  (forall x, x ∈ l -> f x = Ok (g x)) ->
  mapM (M := result) f l = Ok (g <$> l).
Proof.
  induction l as [|x l IH]; intros Hf; [done|].
  cbn [mapM]. rewrite (Hf x) by left. cbn.
  rewrite IH; [done|]. intros y Hy. apply Hf. by right.
Qed.

Lemma fold_max_length (values : list (list Z)) : forall m : nat,
  fold_left (fun m w => Nat.max m (length w)) values m
  = Nat.max m (max_list (length <$> values)).
Proof.
  induction values as [|v values IH]; intros m; cbn.
  - lia.
  - rewrite IH. lia.
Qed.

Lemma max_size_max_list values :
  values <> [] -> max_size values = Ok (max_list (length <$> values)).
Proof.
  destruct values as [|v values]; [done|]. intros _.
  unfold max_size. by rewrite fold_max_length.
Qed.

Lemma write_at_left (size : nat) (pad_idx : Z) (v : list Z) :
  (length v <= size)%nat ->
  write_at (size - length v) v (replicate size pad_idx)
  = replicate (size - length v) pad_idx ++ v.
Proof.
  intros Hle. unfold write_at. rewrite take_replicate, drop_replicate.
  replace (size - (size - length v + length v))%nat with 0%nat by lia.
  replace ((size - length v) `min` size)%nat with (size - length v)%nat by lia.
  simpl. by rewrite app_nil_r.
Qed.

Lemma write_at_right (size : nat) (pad_idx : Z) (v : list Z) :
  write_at 0 v (replicate size pad_idx) = v ++ replicate (size - length v) pad_idx.
Proof. unfold write_at. by rewrite drop_replicate. Qed.

Example collate_tokens_right :
  collate_tokens [[5; 6; 2]; [7; 2]] 1 (Some 2) false false = Ok [[5; 6; 2]; [7; 2; 1]].
Proof. reflexivity. Qed.

Example collate_tokens_left_move_eos :
  collate_tokens [[5; 6; 2]; [7; 2]] 1 (Some 2) true true = Ok [[2; 5; 6]; [1; 2; 7]].
Proof. reflexivity. Qed.

Example collate_tokens_empty_batch :
  collate_tokens [] 1 (Some 2) false false = Raise ValueError.
Proof. reflexivity. Qed.

(** C7: on a non-empty list of sequences and with [move_eos_to_beginning]
    false, [collate_tokens] returns one row per sequence; every row has the
    width of the longest sequence; a row is its sequence with [pad_idx]
    filled in on the left or on the right as [left_pad] says; and cutting
    the row back to the length of the sequence gives the sequence again,
    in both modes. *)
Theorem collate_tokens_roundtrip values pad_idx eos_idx left_pad :
  values <> [] ->
  let size := max_list (length <$> values) in
  exists res,
    collate_tokens values pad_idx eos_idx left_pad false = Ok res
    /\ Forall2 (fun v row =>
                  length row = size
                  /\ row = (if left_pad
                            then replicate (size - length v) pad_idx ++ v
                            else v ++ replicate (size - length v) pad_idx)
                  /\ decollate_row left_pad (length v) row = v)
               values res.
Proof.
  intros Hne size.
  exists ((fun v => if left_pad
                    then replicate (size - length v) pad_idx ++ v
                    else v ++ replicate (size - length v) pad_idx) <$> values).
  assert (Hle : forall v, v ∈ values -> (length v <= size)%nat).
  { intros v Hv. apply max_list_elem_of_le. by apply list_elem_of_fmap_2. }
  split.
  - unfold collate_tokens. rewrite max_size_max_list by done. cbn.
    apply mapM_result_fmap. intros v Hv. cbn.
    destruct left_pad.
    + by rewrite write_at_left by auto.
    + by rewrite write_at_right.
  - apply Forall2_fmap_r, Forall_Forall2_diag, Forall_forall.
    intros v Hv. specialize (Hle v Hv).
    destruct left_pad; unfold decollate_row, compose.
    + rewrite length_app, length_replicate. split_and!; [lia|done|].
      apply drop_app_length'. rewrite length_replicate. lia.
    + rewrite length_app, length_replicate. split_and!; [lia|done|].
      by rewrite take_app_length.
Qed.

Lemma collate_tokens_roundtrip_witness :
  [[5; 6; 2]; [7; 2]] <> []
  /\ exists res,
       collate_tokens [[5; 6; 2]; [7; 2]] 1 None true false = Ok res
       /\ Forall2 (fun v row =>
                     length row = 3%nat
                     /\ row = replicate (3 - length v) 1 ++ v
                     /\ decollate_row true (length v) row = v)
                  [[5; 6; 2]; [7; 2]] res.
Proof.
  assert (H : [[5; 6; 2]; [7; 2]] <> ([] : list (list Z))) by discriminate.
  split; [exact H|].
  exact (collate_tokens_roundtrip [[5; 6; 2]; [7; 2]] 1 None true H).
Defined.

(** ** Size filtering *)

Lemma filter_sublist {A : Type} (p : A -> bool) (l : list A) : sublist (List.filter p l) l.
Proof.
  induction l as [|x l IH]; simpl; [constructor|].
  destruct (p x); by constructor.
Qed.

Lemma Forall_filter_true {A : Type} (p : A -> bool) (l : list A) :
  Forall (fun x => p x = true) (List.filter p l).
Proof.
  induction l as [|x l IH]; simpl; [constructor|].
  destruct (p x) eqn:Hp; [by constructor|done].
Qed.

Lemma passes_true (r : result bool) : passes r = true -> r = Ok true.
Proof. by destruct r as [[]|]. Qed.

Lemma passes_false (r : result bool) : returns r -> passes r = false -> r = Ok false.
Proof. intros [b ->]. by destruct b. Qed.

Lemma read_list_append (l : loc) (el : Z) (h : heap) :
  (l < length h)%nat ->
  read_list l (list_append l el h) = read_list l h ++ [el].
Proof.
  intros Hl. unfold read_list, list_append.
  destruct (lookup_lt_is_Some_2 h l Hl) as [v Hv].
  by rewrite list_lookup_alter_eq, Hv.
Qed.

Lemma length_list_append (l : loc) (el : Z) (h : heap) :
  length (list_append l el h) = length h.
Proof. apply length_alter. Qed.

(** The generator with [noskip] off: it yields the elements that pass, in
    order, and appends the others, in order, to the shared list. *)
Lemma collect_filtered_partition (function : Z -> result bool) (iterable : list Z)
    (filtered : loc) :
  Forall (fun el => returns (function el)) iterable ->
  forall h, (filtered < length h)%nat ->
  exists h',
    collect_filtered function iterable filtered false h
    = Ok (List.filter (fun el => passes (function el)) iterable, h')
    /\ length h' = length h
    /\ read_list filtered h'
       = read_list filtered h
         ++ List.filter (fun el => negb (passes (function el))) iterable.
Proof.
  induction 1 as [|el rest [b Hb] _ IH]; intros h Hl; cbn [collect_filtered List.filter].
  - exists h. by rewrite app_nil_r.
  - rewrite Hb. cbn. destruct b; cbn.
    + destruct (IH h Hl) as (h' & -> & Hlen & Hread). by exists h'.
    + destruct (IH (list_append filtered el h)) as (h' & -> & Hlen & Hread).
      { by rewrite length_list_append. }
      exists h'. split_and!; [done|by rewrite Hlen, length_list_append|].
      by rewrite Hread, read_list_append, <- app_assoc.
Qed.

(** The generator with [noskip] on: every element is yielded and the
    shared list is left alone. *)
Lemma collect_filtered_noskip (function : Z -> result bool) (iterable : list Z)
    (filtered : loc) (h : heap) :
  Forall (fun el => returns (function el)) iterable ->
  collect_filtered function iterable filtered true h = Ok (iterable, h).
Proof.
  induction 1 as [|el rest [b Hb] _ IH]; cbn [collect_filtered]; [done|].
  rewrite Hb. cbn. rewrite orb_true_r, IH. done.
Qed.

Lemma filter_by_size_dynamic_partition indices size_fn max_positions raise_exception :
  Forall (fun i => returns (check_size size_fn max_positions i)) indices ->
  _filter_by_size_dynamic indices size_fn max_positions raise_exception false
  = Ok (List.filter (fun i => passes (check_size size_fn max_positions i)) indices,
        List.filter (fun i => negb (passes (check_size size_fn max_positions i))) indices).
Proof.
  intros Hret. unfold _filter_by_size_dynamic. cbn.
  destruct (collect_filtered_partition _ _ 0%nat Hret [[]]) as (h' & -> & _ & Hread);
    [simpl; lia|].
  cbn. by rewrite Hread.
Qed.

Lemma filter_by_size_dynamic_noskip indices size_fn max_positions raise_exception :
  Forall (fun i => returns (check_size size_fn max_positions i)) indices ->
  _filter_by_size_dynamic indices size_fn max_positions raise_exception true
  = Ok (indices, []).
Proof.
  intros Hret. unfold _filter_by_size_dynamic. cbn.
  by rewrite collect_filtered_noskip.
Qed.

Lemma np_mask_filter {A : Type} (p : A -> bool) (g : Z -> A) (indices : list Z) :
  np_mask indices (map p (g <$> indices)) = List.filter (fun i => p (g i)) indices.
Proof.
  unfold np_mask. induction indices as [|i indices IH]; [done|].
  cbn. destruct (p (g i)); cbn; by rewrite <- IH.
Qed.

(** The vectorised branch computes the same partition, entry by entry. *)
Lemma filter_by_sizes_array_partition indices a m :
  Forall (fun i => returns (np_getitem a i)) indices ->
  let test i := s ← np_getitem a i; Ok (s <=? m) in
  filter_by_sizes_array indices a m
  = Ok (List.filter (fun i => passes (test i)) indices,
        List.filter (fun i => negb (passes (test i))) indices).
Proof.
  intros Hret test. unfold filter_by_sizes_array, np_take.
  set (g i := match np_getitem a i with Ok v => v | Raise _ => 0 end).
  rewrite (mapM_result_fmap _ g).
  2:{ intros i Hi. rewrite Forall_forall in Hret.
      destruct (Hret i Hi) as [v Hv]. unfold g. by rewrite Hv. }
  cbn. rewrite !np_mask_filter. f_equal. f_equal.
  - induction Hret as [|i rest [v Hv] _ IH]; [done|].
    cbn. unfold test at 1, g at 1. rewrite Hv. cbn. rewrite IH.
    by destruct (v <=? m).
  - induction Hret as [|i rest [v Hv] _ IH]; [done|].
    cbn. unfold test at 1, g at 1. rewrite Hv. cbn. rewrite IH.
    rewrite (Z.ltb_antisym v m). by destruct (v <=? m).
Qed.

Lemma filter_by_size_select_partition indices ds max_positions :
  Forall (fun i => returns (limit_predicate ds max_positions i)) indices ->
  filter_by_size_select indices ds max_positions false
  = Ok (List.filter (fun i => passes (limit_predicate ds max_positions i)) indices,
        List.filter (fun i => negb (passes (limit_predicate ds max_positions i))) indices).
Proof.
  unfold filter_by_size_select, limit_predicate.
  destruct max_positions as [[| m |]|]; try apply filter_by_size_dynamic_partition.
  destruct (sizes ds) as [|a|[|a [|]]]; try apply filter_by_size_dynamic_partition.
  - intros Hret. apply filter_by_sizes_array_partition.
    eapply Forall_impl; [exact Hret|]. intros i [b Hb].
    destruct (np_getitem a i); [by eexists|done].
  - intros Hret. apply filter_by_sizes_array_partition.
    eapply Forall_impl; [exact Hret|]. intros i [b Hb].
    destruct (np_getitem a i); [by eexists|done].
Qed.

Lemma filter_by_size_of_select indices ds max_positions raise_exception noskip kept ignored :
  filter_by_size_select indices ds max_positions noskip = Ok (kept, ignored) ->
  filter_by_size indices ds max_positions raise_exception noskip
  = match ignored with
    | [] => Ok (kept, None)
    | first :: _ =>
        if raise_exception
        then Raise (Exception_ first (size ds first) max_positions)
        else Ok (kept, Some {| warn_count := length ignored;
                               warn_max_positions := max_positions;
                               warn_first := take 10 ignored |})
    end.
Proof. intros Hsel. unfold filter_by_size. by rewrite Hsel. Qed.

(** The first index on which the test raises stops the generator: the
    exception leaves [collect_filtered], with [noskip] as without, since
    [function(el)] is evaluated before [noskip] is looked at. *)
Lemma collect_filtered_raise (function : Z -> result bool) (before : list Z) (i : Z)
    (after : list Z) (filtered : loc) (noskip : bool) (e : exn) :
  Forall (fun el => returns (function el)) before ->
  function i = Raise e ->
  forall h, collect_filtered function (before ++ i :: after) filtered noskip h = Raise e.
Proof.
  induction 1 as [|el rest [b Hb] _ IH]; intros Hi h; cbn [app collect_filtered].
  - by rewrite Hi.
  - rewrite Hb. cbn. destruct (b || noskip); [by rewrite IH|by apply IH].
Qed.

Lemma filter_by_size_dynamic_raise before i after size_fn max_positions raise_exception
    noskip e :
  Forall (fun j => returns (check_size size_fn max_positions j)) before ->
  check_size size_fn max_positions i = Raise e ->
  _filter_by_size_dynamic (before ++ i :: after) size_fn max_positions raise_exception noskip
  = Raise e.
Proof.
  intros Hbefore Hi. unfold _filter_by_size_dynamic.
  destruct noskip; cbn; by rewrite (collect_filtered_raise _ _ _ _ _ _ e).
Qed.

Lemma mapM_result_first_raise {A B : Type} (f : A -> result B) (before : list A) (x : A)
    (after : list A) (e : exn) :
  Forall (fun y => returns (f y)) before ->
  f x = Raise e ->
  mapM (M := result) f (before ++ x :: after) = Raise e.
Proof.
  induction 1 as [|y rest [b Hb] _ IH]; intros Hx; cbn [app mapM].
  - by rewrite Hx.
  - rewrite Hb. cbn. by rewrite IH.
Qed.

(** On every branch, the exception of the first index whose test raises is
    the outcome of the selection, and of [filter_by_size], whatever the
    flags. *)
Lemma filter_by_size_select_raise before i after ds max_positions noskip e :
  Forall (fun j => returns (limit_predicate ds max_positions j)) before ->
  limit_predicate ds max_positions i = Raise e ->
  filter_by_size_select (before ++ i :: after) ds max_positions noskip = Raise e.
Proof.
  unfold filter_by_size_select, limit_predicate.
  destruct max_positions as [[| m |]|]; try apply filter_by_size_dynamic_raise.
  destruct (sizes ds) as [|a|[|a [|]]]; try apply filter_by_size_dynamic_raise.
  - intros Hbefore Hi. unfold filter_by_sizes_array, np_take.
    rewrite (mapM_result_first_raise _ _ _ _ e); [done| |].
    + eapply Forall_impl; [exact Hbefore|]. intros j [b Hb].
      destruct (np_getitem a j); [by eexists|done].
    + destruct (np_getitem a i); cbn in Hi; [discriminate Hi|congruence].
  - intros Hbefore Hi. unfold filter_by_sizes_array, np_take.
    rewrite (mapM_result_first_raise _ _ _ _ e); [done| |].
    + eapply Forall_impl; [exact Hbefore|]. intros j [b Hb].
      destruct (np_getitem a j); [by eexists|done].
    + destruct (np_getitem a i); cbn in Hi; [discriminate Hi|congruence].
Qed.

Lemma filter_by_size_raise before i after ds max_positions raise_exception noskip e :
  Forall (fun j => returns (limit_predicate ds max_positions j)) before ->
  limit_predicate ds max_positions i = Raise e ->
  filter_by_size (before ++ i :: after) ds max_positions raise_exception noskip = Raise e.
Proof.
  intros Hbefore Hi. unfold filter_by_size.
  by rewrite (filter_by_size_select_raise _ _ _ _ _ _ e).
Qed.

(** C2, as stated, fails where the limit test raises: with the limit
    [(10, None)] and a size function that gives the number 7, the test
    compares 7 with 10 and then with [None], which raises [TypeError];
    [filter_by_size] returns no kept sequence at all. *)
Lemma filter_by_size_none_bound_raises :
  let ds := {| sizes := NoSizes; size := fun _ => PInt 7 |} in
  check_size (size ds) (PTuple [Some 10; None]) 0 = Raise TypeError
  /\ filter_by_size [0] ds (PTuple [Some 10; None]) false false = Raise TypeError
  /\ ~ returns (filter_by_size [0] ds (PTuple [Some 10; None]) false false).
Proof. split_and!; [reflexivity|reflexivity|by intros [? ?]]. Qed.

(** C2, amended: [filter_by_size] (called without [noskip]) on indices
    for each of which the limit test returns: the kept indices are the
    input indices that pass the limit test, in input order; the ignored
    ones are those that fail it, in the order they were met; both are
    subsequences of the input; every kept index passes and every ignored
    index fails; without [raise_exception] the kept indices are what is
    returned, and with it an exception naming the first ignored index is
    raised when there is one. When the test raises on an index,
    [filter_by_size] raises the exception of the first such index and
    returns nothing. *)
Theorem filter_by_size_kept_dropped indices ds max_positions :
  let ok i := passes (limit_predicate ds max_positions i) in
  let kept := List.filter ok indices in
  let dropped := List.filter (fun i => negb (ok i)) indices in
  (Forall (fun i => returns (limit_predicate ds max_positions i)) indices ->
   filter_by_size_select indices ds max_positions false = Ok (kept, dropped)
   /\ (exists printed, filter_by_size indices ds max_positions false false = Ok (kept, printed))
   /\ filter_by_size indices ds max_positions true false
      = match dropped with
        | [] => Ok (kept, None)
        | first :: _ => Raise (Exception_ first (size ds first) max_positions)
        end
   /\ sublist kept indices
   /\ sublist dropped indices
   /\ Forall (fun i => limit_predicate ds max_positions i = Ok true) kept
   /\ Forall (fun i => limit_predicate ds max_positions i = Ok false) dropped)
  /\ (forall before i after e raise_exception,
        indices = before ++ i :: after ->
        Forall (fun j => returns (limit_predicate ds max_positions j)) before ->
        limit_predicate ds max_positions i = Raise e ->
        filter_by_size_select indices ds max_positions false = Raise e
        /\ filter_by_size indices ds max_positions raise_exception false = Raise e).
Proof.
  intros ok kept dropped. subst ok kept dropped. split.
  - intros Hret.
    pose proof (filter_by_size_select_partition indices ds max_positions Hret) as Hsel.
    split_and!.
    + done.
    + rewrite (filter_by_size_of_select _ _ _ _ _ _ _ Hsel).
      destruct (List.filter (fun i => negb _) indices); by eexists.
    + rewrite (filter_by_size_of_select _ _ _ _ _ _ _ Hsel).
      by destruct (List.filter (fun i => negb _) indices).
    + apply filter_sublist.
    + apply filter_sublist.
    + eapply Forall_impl; [apply Forall_filter_true|]. intros i. apply passes_true.
    + pose proof (Forall_filter_true
                    (fun i => negb (passes (limit_predicate ds max_positions i))) indices)
        as Hneg.
      rewrite Forall_forall in Hret, Hneg. apply Forall_forall. intros i Hi.
      apply passes_false.
      * apply Hret. eapply elem_of_sublist; [apply Hi|]. apply filter_sublist.
      * specialize (Hneg i Hi). by apply negb_true_iff in Hneg.
  - intros before i after e raise_exception -> Hbefore Hi. split.
    + by apply filter_by_size_select_raise.
    + by apply filter_by_size_raise.
Qed.

Lemma filter_by_size_kept_dropped_witness :
  Forall (fun i => returns (limit_predicate pairs_dataset (PTuple [Some 15; None]) i))
         [2; 0; 3; 1]
  /\ filter_by_size_select [2; 0; 3; 1] pairs_dataset (PTuple [Some 15; None]) false
     = Ok ([0; 1], [2; 3]).
Proof.
  assert (H : Forall (fun i => returns (limit_predicate pairs_dataset
                                          (PTuple [Some 15; None]) i)) [2; 0; 3; 1]).
  { repeat (constructor; [eexists; reflexivity|]). constructor. }
  split; [exact H|].
  exact (proj1 (proj1 (filter_by_size_kept_dropped [2; 0; 3; 1] pairs_dataset
                         (PTuple [Some 15; None])) H)).
Defined.

Example filter_by_size_fast_path :
  filter_by_size [2; 0; -1] {| sizes := SizesNdarray [7; 30; 9]; size := fun _ => Atom ANone |}
                 (PInt 8) false true
  = Ok ([0], Some {| warn_count := 2; warn_max_positions := PInt 8; warn_first := [2; -1] |}).
Proof. reflexivity. Qed.

Example filter_by_size_warns :
  filter_by_size [2; 0; 3; 1] pairs_dataset (PTuple [Some 15; None]) false false
  = Ok ([0; 1], Some {| warn_count := 2;
                        warn_max_positions := PTuple [Some 15; None];
                        warn_first := [2; 3] |}).
Proof. reflexivity. Qed.

(** C10, as stated, fails where the size test raises: on the branch
    through [_filter_by_size_dynamic] and with [noskip] set, the test is
    still run on every index before [noskip] is looked at; with the limit
    10 and the size [(0, 3)] it raises [AttributeError], and so does
    [filter_by_size], with or without [raise_exception]: the index is not
    returned. *)
Lemma filter_by_size_noskip_still_raises :
  dynamic_path pairs_dataset (PInt 10) = true
  /\ filter_by_size [0] pairs_dataset (PInt 10) true true = Raise AttributeError
  /\ filter_by_size [0] pairs_dataset (PInt 10) false true = Raise AttributeError.
Proof. split_and!; reflexivity. Qed.

(** C10, amended: on the branch through [_filter_by_size_dynamic] and with
    [noskip] set, [filter_by_size] on indices for each of which the size
    test returns gives back every input index, the list of ignored indices
    is empty, and so no exception is raised, with or without
    [raise_exception], and no warning is printed. When the size test
    raises on an index, [filter_by_size] raises the exception of the first
    such index, with or without [raise_exception]. *)
Theorem filter_by_size_noskip indices ds max_positions raise_exception :
  dynamic_path ds max_positions = true ->
  (Forall (fun i => returns (check_size (size ds) max_positions i)) indices ->
   filter_by_size_select indices ds max_positions true = Ok (indices, [])
   /\ filter_by_size indices ds max_positions raise_exception true = Ok (indices, None))
  /\ (forall before i after e,
        indices = before ++ i :: after ->
        Forall (fun j => returns (check_size (size ds) max_positions j)) before ->
        check_size (size ds) max_positions i = Raise e ->
        filter_by_size indices ds max_positions raise_exception true = Raise e).
Proof.
  intros Hdyn.
  assert (Hpred : forall j, limit_predicate ds max_positions j
                            = check_size (size ds) max_positions j).
  { intros j. unfold limit_predicate, dynamic_path in *.
    destruct max_positions as [[| m |]|]; try done.
    by destruct (sizes ds) as [|a|[|a [|]]]. }
  split.
  - intros Hret.
    assert (Hsel : filter_by_size_select indices ds max_positions true = Ok (indices, [])).
    { unfold filter_by_size_select, dynamic_path in *.
      destruct max_positions as [[| m |]|]; try by apply filter_by_size_dynamic_noskip.
      destruct (sizes ds) as [|a|[|a [|]]]; by try apply filter_by_size_dynamic_noskip. }
    split; [done|]. by rewrite (filter_by_size_of_select _ _ _ _ _ _ _ Hsel).
  - intros before i after e -> Hbefore Hi. apply filter_by_size_raise.
    + eapply Forall_impl; [exact Hbefore|]. intros j Hj. by rewrite Hpred.
    + by rewrite Hpred.
Qed.

Lemma filter_by_size_noskip_witness :
  dynamic_path pairs_dataset (PTuple [Some 15; None]) = true
  /\ Forall (fun i => returns (check_size (size pairs_dataset) (PTuple [Some 15; None]) i))
            [2; 0; 3; 1]
  /\ check_size (size pairs_dataset) (PTuple [Some 15; None]) 2 = Ok false
  /\ filter_by_size [2; 0; 3; 1] pairs_dataset (PTuple [Some 15; None]) true true
     = Ok ([2; 0; 3; 1], None).
Proof.
  assert (H : Forall (fun i => returns (check_size (size pairs_dataset)
                                          (PTuple [Some 15; None]) i)) [2; 0; 3; 1]).
  { repeat (constructor; [eexists; reflexivity|]). constructor. }
  split_and!; [reflexivity|exact H|reflexivity|].
  exact (proj2 (proj1 (filter_by_size_noskip [2; 0; 3; 1] pairs_dataset
                         (PTuple [Some 15; None]) true eq_refl) H)).
Defined.

(** A scalar limit needs the sizes to be numbers or dictionaries:
    [s.values()] does not exist on a tuple. *)
Lemma check_size_scalar_limit_tuple size_fn m idx fields :
  size_fn idx = PTuple fields ->
  check_size size_fn (PInt m) idx = Raise AttributeError.
Proof. intros Hs. unfold check_size. by rewrite Hs. Qed.

(** C3, as stated, fails for a tuple: with the limit 10 and the size
    [(3, 4)], whose first field is below the limit, the index is not kept;
    the test raises, and so does [filter_by_size]. *)
Lemma scalar_limit_tuple_size_raises :
  let ds := {| sizes := NoSizes; size := fun _ => PTuple [Some 3; Some 4] |} in
  check_size (size ds) (PInt 10) 0 = Raise AttributeError
  /\ filter_by_size [0] ds (PInt 10) false false = Raise AttributeError.
Proof. split; reflexivity. Qed.

(** C3, amended: with a scalar limit, on the branch through
    [_filter_by_size_dynamic], when the size of every index is a dictionary
    whose first value is a number, an index is kept if and only if that
    first value is at most the limit, whatever the other fields hold; a
    tuple as size is not accepted with a scalar limit. *)
Theorem scalar_limit_first_field indices ds m (first : Z -> Z) :
  dynamic_path ds (PInt m) = true ->
  (forall i, i ∈ indices ->
             exists key rest, size ds i = Dict ((key, AInt (first i)) :: rest)) ->
  (forall i, i ∈ indices -> check_size (size ds) (PInt m) i = Ok (first i <=? m))
  /\ filter_by_size_select indices ds (PInt m) false
     = Ok (List.filter (fun i => first i <=? m) indices,
           List.filter (fun i => negb (first i <=? m)) indices)
  /\ (forall i, i ∈ indices ->
        (exists kept ignored, filter_by_size_select indices ds (PInt m) false = Ok (kept, ignored)
                              /\ (i ∈ kept <-> first i <= m)))
  /\ (forall size_fn idx fields,
        size_fn idx = PTuple fields ->
        check_size size_fn (PInt m) idx = Raise AttributeError).
Proof.
  intros Hdyn Hsize.
  assert (Hcheck : forall i, i ∈ indices ->
                             check_size (size ds) (PInt m) i = Ok (first i <=? m)).
  { intros i Hi. destruct (Hsize i Hi) as (key & rest & Hs).
    unfold check_size. by rewrite Hs. }
  assert (Hlim : forall i, limit_predicate ds (PInt m) i = check_size (size ds) (PInt m) i).
  { intros i. unfold limit_predicate, dynamic_path in *.
    by destruct (sizes ds) as [|a|[|a [|]]]. }
  assert (Hsel : filter_by_size_select indices ds (PInt m) false
                 = Ok (List.filter (fun i => first i <=? m) indices,
                       List.filter (fun i => negb (first i <=? m)) indices)).
  { rewrite filter_by_size_select_partition.
    - f_equal. f_equal; apply filter_ext_in; intros i Hi%list_elem_of_In;
        rewrite Hlim, Hcheck by done; by destruct (first i <=? m).
    - apply Forall_forall. intros i Hi. rewrite Hlim, Hcheck by done. by eexists. }
  split_and!; [done|done| |].
  - intros i Hi. eexists _, _. split; [exact Hsel|].
    rewrite list_elem_of_In, filter_In, <- list_elem_of_In, Z.leb_le. tauto.
  - intros size_fn idx fields. apply check_size_scalar_limit_tuple.
Qed.

Lemma scalar_limit_first_field_witness :
  dynamic_path dict_dataset (PInt 10) = true
  /\ (forall i, i ∈ [3; 1; 2] ->
                exists key rest, size dict_dataset i = Dict ((key, AInt (4 * i)) :: rest))
  /\ filter_by_size_select [3; 1; 2] dict_dataset (PInt 10) false = Ok ([1; 2], [3]).
Proof.
  assert (H : forall i, i ∈ [3; 1; 2] ->
                exists key rest, size dict_dataset i = Dict ((key, AInt (4 * i)) :: rest)).
  { intros i _. eexists _, _. reflexivity. }
  split_and!; [reflexivity|exact H|].
  exact (proj1 (proj2 (scalar_limit_first_field [3; 1; 2] dict_dataset 10 (fun i => 4 * i)
                         eq_refl H))).
Defined.

(** ** [switchout] *)

Lemma bernoulli_zero len coin : bernoulli 0 len coin = false.
Proof. reflexivity. Qed.

Lemma length_masked_scatter_row (mask : list bool) (source : nat -> Z) : forall k : nat,
  length (masked_scatter_row mask source k).1 = length mask.
Proof.
  induction mask as [|[] mask IH]; intros k; cbn [masked_scatter_row]; [done| |].
  - specialize (IH (S k)). destruct (masked_scatter_row mask source (S k)). cbn in *. lia.
  - specialize (IH k). destruct (masked_scatter_row mask source k). cbn in *. lia.
Qed.

(** Where the mask is off, the scattered row holds 0; where it is on, it
    holds an element of the source. *)
Lemma masked_scatter_row_lookup (mask : list bool) (source : nat -> Z) :
  forall (k j : nat) (b : bool),
  mask !! j = Some b ->
  exists c, (masked_scatter_row mask source k).1 !! j = Some c
            /\ (if b then exists k', c = source k' else c = 0).
Proof.
  induction mask as [|b0 mask IH]; intros k j b Hj; [done|].
  destruct j as [|j]; cbn in Hj.
  - injection Hj as ->. destruct b; cbn [masked_scatter_row].
    + destruct (masked_scatter_row mask source (S k)). eexists. split; [done|by eexists].
    + destruct (masked_scatter_row mask source k). by eexists.
  - destruct b0; cbn [masked_scatter_row].
    + specialize (IH (S k) j b Hj). by destruct (masked_scatter_row mask source (S k)).
    + specialize (IH k j b Hj). by destruct (masked_scatter_row mask source k).
Qed.

Lemma masked_scatter_lookup (mask : list (list bool)) (source : nat -> Z) :
  forall (k i : nat) (m : list bool),
  mask !! i = Some m ->
  exists k', masked_scatter mask source k !! i = Some (masked_scatter_row m source k').1.
Proof.
  induction mask as [|m0 mask IH]; intros k i m Hi; [done|].
  cbn [masked_scatter].
  destruct (masked_scatter_row m0 source k) as [r k1] eqn:Hrow.
  destruct i as [|i]; cbn in Hi.
  - injection Hi as ->. exists k. by rewrite Hrow.
  - by apply IH.
Qed.

Lemma corrupt_pos_lookup dic d (tokens : list (list Z)) (lengths : list Z)
    (i : nat) (row : list Z) (j : nat) (t : Z) :
  tokens !! i = Some row -> row !! j = Some t ->
  exists m, corrupt_pos dic d tokens lengths !! i = Some m
            /\ length m = length row
            /\ m !! j = Some (bernoulli (if sample_mask dic t then 0 else num_words d i)
                                        (lengths !!! i) (coins d i j)).
Proof.
  intros Hi Hj. unfold corrupt_pos. rewrite list_lookup_imap, Hi. cbn.
  eexists. split; [done|]. by rewrite length_imap, list_lookup_imap, Hj.
Qed.

Lemma wrap64_small z : - 2 ^ 63 <= z < 2 ^ 63 -> wrap64 z = z.
Proof. intros Hz. unfold wrap64. rewrite Z.mod_small; lia. Qed.

(** What [switchout] leaves at one position: the token itself when the
    position was not selected (and the token is an id of the dictionary),
    and otherwise the token plus whatever the storage held at some offset,
    modulo the size of the dictionary. *)
Lemma switchout_position d (tokens : list (list Z)) (lengths : list Z) dic
    (i j : nat) (row : list Z) (t : Z) :
  tokens !! i = Some row -> row !! j = Some t ->
  exists row' m,
    switchout d tokens lengths dic !! i = Some row'
    /\ length row' = length row
    /\ corrupt_pos dic d tokens lengths !! i = Some m
    /\ (row' !! j = Some t
        \/ exists c, row' !! j = Some (if t =? pad dic then pad dic
                                       else wrap64 (t + c) mod dic_len dic)
                     /\ (if bernoulli (if sample_mask dic t then 0 else num_words d i)
                                      (lengths !!! i) (coins d i j)
                         then exists k, c = corrupt_val d k
                         else c = 0)).
Proof.
  intros Hi Hj.
  destruct (corrupt_pos_lookup dic d tokens lengths i row j t Hi Hj) as (m & Hm & Hlen & Hmj).
  unfold switchout. destruct (_ =? _)%nat.
  { exists row, m. split_and!; [done|done|done|by left]. }
  destruct (masked_scatter_lookup _ (corrupt_val d) 0%nat i m Hm) as (k' & Hsc).
  destruct (masked_scatter_row_lookup m (corrupt_val d) k' j _ Hmj) as (c & Hc & Hval).
  eexists _, m. rewrite lookup_zip_with, Hi, Hsc. cbn.
  split_and!; [done| |done|].
  - rewrite length_zip_with, length_masked_scatter_row. lia.
  - right. exists c. rewrite lookup_zip_with, Hj, Hc. by cbn.
Qed.

(** C5: whatever the draws and the storage, and for a dictionary whose
    [eos] and [bos] are ids below its size (itself an [int64]), the output
    of [switchout] has the shape of the input and holds the input token at
    every position whose token is [pad], [eos] or [bos]. *)
Theorem switchout_keeps_special d (tokens : list (list Z)) (lengths : list Z) dic
    (i j : nat) (row : list Z) (t : Z) :
  0 <= eos dic < dic_len dic ->
  0 <= bos dic < dic_len dic ->
  dic_len dic <= 2 ^ 63 ->
  tokens !! i = Some row ->
  row !! j = Some t ->
  t = pad dic \/ t = eos dic \/ t = bos dic ->
  exists row',
    switchout d tokens lengths dic !! i = Some row'
    /\ length row' = length row
    /\ row' !! j = Some t.
Proof.
  intros Heos Hbos Hlen Hi Hj Hspecial.
  destruct (switchout_position d tokens lengths dic i j row t Hi Hj)
    as (row' & m & Hout & Hlen' & _ & [Hsame | (c & Hval & Hc)]).
  { by exists row'. }
  exists row'. split_and!; [done|done|].
  rewrite Hval. f_equal.
  destruct (t =? pad dic) eqn:Hpad; [symmetry; by apply Z.eqb_eq|].
  assert (Hmask : sample_mask dic t = true).
  { unfold sample_mask. destruct Hspecial as [-> | [-> | ->]].
    - by rewrite Z.eqb_refl.
    - rewrite Z.eqb_refl. by destruct (eos dic =? pad dic).
    - rewrite Z.eqb_refl. by destruct (bos dic =? pad dic), (bos dic =? eos dic). }
  rewrite Hmask, bernoulli_zero in Hc. subst c.
  assert (0 <= t < dic_len dic) as Ht.
  { destruct Hspecial as [-> | [-> | ->]]; [|done|done].
    by rewrite Z.eqb_refl in Hpad. }
  rewrite Z.add_0_r, wrap64_small by lia. by apply Z.mod_small.
Qed.

Lemma switchout_keeps_special_witness :
  0 <= eos small_dic < dic_len small_dic
  /\ 0 <= bos small_dic < dic_len small_dic
  /\ dic_len small_dic <= 2 ^ 63
  /\ exists row',
       switchout (eager_draws (fun k => 7 + Z.of_nat k)) [[0; 5; 6; 2; 1]] [4] small_dic
         !! 0%nat = Some row'
       /\ length row' = 5%nat
       /\ row' !! 3%nat = Some 2.
Proof.
  assert (H1 : 0 <= eos small_dic < dic_len small_dic) by (simpl; lia).
  assert (H2 : 0 <= bos small_dic < dic_len small_dic) by (simpl; lia).
  assert (H3 : dic_len small_dic <= 2 ^ 63) by (simpl; lia).
  split; [exact H1|]. split; [exact H2|]. split; [exact H3|].
  exact (switchout_keeps_special (eager_draws (fun k => 7 + Z.of_nat k))
           [[0; 5; 6; 2; 1]] [4] small_dic 0 3 [0; 5; 6; 2; 1] 2
           H1 H2 H3 eq_refl eq_refl (or_intror (or_introl eq_refl))).
Defined.

Example switchout_none_selected :
  switchout {| num_words := fun _ => 0; coins := fun _ _ => true; corrupt_val := fun _ => 7 |}
            [[0; 5; 6; 2; 1]] [4] small_dic
  = [[0; 5; 6; 2; 1]].
Proof. reflexivity. Qed.

(** C6 does not hold of the code: the replacement is not drawn. The
    positions 1 and 2 of the row are selected; what they receive is their
    token plus the content of the storage that [torch.LongTensor] returns
    uninitialised, modulo the size of the dictionary. Over storage that
    holds zeros the selected positions keep their tokens, and over storage
    that holds 7 and 8 they receive [(5 + 7) mod 10] and [(6 + 8) mod 10].
    Only the re-masking of [pad] positions is as the claim says. *)
Theorem switchout_replacement_from_storage :
  corrupt_pos small_dic (eager_draws (fun _ => 0)) [[0; 5; 6; 2; 1]] [4]
  = [[false; true; true; false; false]]
  /\ switchout (eager_draws (fun _ => 0)) [[0; 5; 6; 2; 1]] [4] small_dic
     = [[0; 5; 6; 2; 1]]
  /\ switchout (eager_draws (fun k => 7 + Z.of_nat k)) [[0; 5; 6; 2; 1]] [4] small_dic
     = [[0; 2; 4; 2; 1]]
  /\ forall storage, exists a b,
       switchout (eager_draws storage) [[0; 5; 6; 2; 1]] [4] small_dic = [[0; a; b; 2; 1]]
       /\ a = wrap64 (5 + storage 0%nat) mod 10
       /\ b = wrap64 (6 + storage 1%nat) mod 10.
Proof.
  split_and!; [reflexivity|reflexivity|reflexivity|].
  intros storage. eexists _, _. split_and!; reflexivity.
Qed.

(** ** [numpy_seed] *)

Example float_of_int_rounds :
  float_of_int (2 ^ 53 + 1) = 2 ^ 53 /\ float_of_int (2 ^ 53 + 3) = 2 ^ 53 + 4.
Proof. split; reflexivity. Qed.

Example cpython_tuple_hash_1_2 : cpython_tuple_hash [1; 2] = -3550055125485641917.
Proof. vm_compute. reflexivity. Qed.

(** Below [2 ^ 53] the conversion to a double is exact, and [% 1e6] is the
    remainder on integers. *)
Lemma mod_1e6_exact h : Z.abs h < 2 ^ 53 -> mod_1e6 h = h mod 1000000.
Proof.
  intros Hh. unfold mod_1e6, float_of_int.
  assert (Z.log2 (Z.abs h) - 52 <= 0) as Hlog.
  { destruct (Z.eq_dec (Z.abs h) 0) as [-> | Hne]; [done|].
    assert (Z.log2 (Z.abs h) < 53); [|lia].
    apply Z.log2_lt_pow2; lia. }
  apply Z.leb_le in Hlog. by rewrite Hlog.
Qed.

Lemma mod_1e6_range h : 0 <= mod_1e6 h < 1000000.
Proof. unfold mod_1e6. apply Z.mod_pos_bound. lia. Qed.

(** C4, as stated, fails on the seed: for [numpy_seed(1, 2)] under
    CPython's tuple hash, the generator is seeded with 358272, which is not
    [hash((1, 2)) mod 1_000_000 = 358083]; and whatever the hash function,
    a hash of [2 ^ 53 + 1] is rounded before the remainder is taken. *)
Lemma numpy_seed_not_hash_mod :
  (numpy_seed last_seed cpython_tuple_hash (Some 1) [2] np_random_get_state 0).1
  = Ok 358272
  /\ cpython_tuple_hash [1; 2] mod 1000000 = 358083
  /\ (numpy_seed last_seed cpython_tuple_hash (Some 1) [2] np_random_get_state 0).1
     <> Ok (cpython_tuple_hash [1; 2] mod 1000000)
  /\ (numpy_seed last_seed (fun _ => 2 ^ 53 + 1) (Some 1) [2] np_random_get_state 0).1
     <> Ok ((2 ^ 53 + 1) mod 1000000).
Proof. split_and!; vm_compute; [reflexivity|reflexivity|discriminate|discriminate]. Qed.

(** A scope with a seed: the generator is seeded with the effective seed;
    if that succeeds the body runs, and whatever its outcome the state
    saved on entry is put back. *)
Lemma numpy_seed_seeded {rng A : Type} (np_random_seed : Z -> M rng unit)
    (hash : list Z -> Z) (seed : Z) (addl_seeds : list Z) (body : M rng A) (st : rng) :
  numpy_seed np_random_seed hash (Some seed) addl_seeds body st
  = match np_random_seed (if (0 <? length addl_seeds)%nat
                          then mod_1e6 (hash (seed :: addl_seeds))
                          else seed) st with
    | (Ok _, st_seeded) => ((body st_seeded).1, st)
    | (Raise e, st') => (Raise e, st')
    end.
Proof.
  unfold numpy_seed, mbind, M_bind, np_random_get_state, try_finally, np_random_set_state.
  destruct (np_random_seed _ st) as [[[]|e] st1]; [|done].
  by destruct (body st1).
Qed.

(** C4, amended: with seed [None] the scope is the body alone, the
    generator is not touched by the scope; with a seed and no auxiliary
    seed the generator is seeded with the seed itself; with auxiliary seeds
    it is seeded with [int(hash((seed, *aux_seeds)) % 1e6)], the hash being
    converted to a double before the remainder is taken, which is
    [hash mod 1_000_000] whenever the hash is below [2 ^ 53] in absolute
    value. The body runs from the seeded state, and the state after the
    scope is the state captured before it, whether the body returns or
    raises. When [np.random.seed] itself raises, before the [try], the
    scope restores nothing and the state is the one [np.random.seed] left:
    the captured one again, given that a refused seed leaves the generator
    alone. *)
Theorem numpy_seed_scope {rng A : Type} (np_random_seed : Z -> M rng unit)
    (hash : list Z -> Z) (body : M rng A) (st : rng) :
  let seeded_with (s : Z) : result A * rng :=
    match np_random_seed s st with
    | (Ok _, st_seeded) => ((body st_seeded).1, st)
    | (Raise e, st') => (Raise e, st')
    end in
  (forall addl_seeds, numpy_seed np_random_seed hash None addl_seeds body st = body st)
  /\ (forall seed, numpy_seed np_random_seed hash (Some seed) [] body st = seeded_with seed)
  /\ (forall seed aux addl_seeds,
        numpy_seed np_random_seed hash (Some seed) (aux :: addl_seeds) body st
        = seeded_with (float_of_int (hash (seed :: aux :: addl_seeds)) mod 1000000))
  /\ (forall seed aux addl_seeds,
        Z.abs (hash (seed :: aux :: addl_seeds)) < 2 ^ 53 ->
        numpy_seed np_random_seed hash (Some seed) (aux :: addl_seeds) body st
        = seeded_with (hash (seed :: aux :: addl_seeds) mod 1000000))
  /\ ((forall s e st', np_random_seed s st = (Raise e, st') -> st' = st) ->
      forall seed addl_seeds,
        (numpy_seed np_random_seed hash (Some seed) addl_seeds body st).2 = st).
Proof.
  cbv zeta. split_and!.
  - done.
  - intros seed. apply numpy_seed_seeded.
  - intros seed aux addl_seeds. apply numpy_seed_seeded.
  - intros seed aux addl_seeds Hsmall. rewrite numpy_seed_seeded. cbn [length Nat.ltb Nat.leb].
    by rewrite mod_1e6_exact.
  - intros Hframe seed addl_seeds. rewrite numpy_seed_seeded.
    destruct (np_random_seed _ st) as [[[]|e] st'] eqn:Hseed; [done|].
    cbn. by eapply Hframe.
Qed.

Lemma numpy_seed_scope_witness :
  (forall s e st', checked_seed s 5 = (Raise e, st') -> st' = 5)
  /\ (numpy_seed checked_seed cpython_tuple_hash (Some 7) [] (last_seed 9) 5).2 = 5
  /\ (numpy_seed checked_seed cpython_tuple_hash (Some (-1)) [] (last_seed 9) 5)
     = (Raise ValueError, 5).
Proof.
  assert (H : forall s e st', checked_seed s 5 = (Raise e, st') -> st' = 5).
  { intros s e st'. unfold checked_seed. destruct (_ && _); congruence. }
  split; [exact H|]. split; [|reflexivity].
  exact (proj2 (proj2 (proj2 (proj2
           (numpy_seed_scope checked_seed cpython_tuple_hash (last_seed 9) 5)))) H 7 []).
Defined.

(** A scope that was entered restores the state. *)
Lemma numpy_seed_restores {rng A : Type} (np_random_seed : Z -> M rng unit)
    (hash : list Z -> Z) (seed : Z) (addl_seeds : list Z) (body : M rng A) (st : rng) :
  (forall s, exists st', np_random_seed s st = (Ok tt, st')) ->
  (numpy_seed np_random_seed hash (Some seed) addl_seeds body st).2 = st.
Proof.
  intros Hseed. rewrite numpy_seed_seeded.
  by destruct (Hseed (if (0 <? length addl_seeds)%nat
                      then mod_1e6 (hash (seed :: addl_seeds)) else seed)) as [st' ->].
Qed.

(** ** [train_step] and [valid_step] *)

Section StepFacts.
Context `{Torch}.

(** Iterations that leave the accumulator and the world alone can be
    taken out of a loop. *)
Lemma for_each_skip {X A : Type} (skip : X -> bool) (body : X -> A -> M world A)
    (l : list X) :
  (forall x acc w, skip x = true -> body x acc w = (Ok acc, w)) ->
  forall acc w,
    for_each l body acc w = for_each (List.filter (fun x => negb (skip x)) l) body acc w.
Proof.
  intros Hskip. induction l as [|x l IH]; intros acc w; cbn [for_each List.filter]; [done|].
  destruct (skip x) eqn:Hx; cbn [negb for_each]; unfold mbind, M_bind.
  - rewrite Hskip by done. apply IH.
  - destruct (body x acc w) as [[acc'|e] w']; [apply IH|done].
Qed.

(** A property of the accumulator that every iteration keeps holds
    after the loop. *)
Lemma for_each_invariant {X A : Type} (P : A -> Prop) (body : X -> A -> M world A)
    (l : list X) :
  (forall x acc w acc' w', P acc -> body x acc w = (Ok acc', w') -> P acc') ->
  forall acc w acc' w', P acc -> for_each l body acc w = (Ok acc', w') -> P acc'.
Proof.
  intros Hbody. induction l as [|x l IH]; intros acc w acc' w' Hacc Hrun;
    cbn [for_each] in Hrun.
  - by injection Hrun as -> _.
  - unfold mbind, M_bind in Hrun.
    destruct (body x acc w) as [[acc1|e] w1] eqn:Hx; [|done].
    eapply IH; [|exact Hrun]. by eapply Hbody.
Qed.

Variable sample : gmap string (option batch).
Variable lang_pair : string.
Hypothesis Habsent : absent sample lang_pair = true.

Local Abbreviation others := (List.filter (fun lp => negb (String.eqb lp lang_pair))).

Lemma absent_eqb lp : String.eqb lp lang_pair = true -> absent sample lp = true.
Proof using Habsent. intros Heq%String.eqb_eq. by subst lp. Qed.

Lemma score_loop_without data_actor lang_pairs w :
  score_loop sample data_actor lang_pairs w
  = score_loop sample data_actor (others lang_pairs) w.
Proof using Habsent.
  unfold score_loop. apply for_each_skip.
  intros lp [[data_score sum_score] example_size] w0 Hlp.
  by rewrite (absent_eqb lp Hlp).
Qed.

Lemma normalise_loop_without self data_score sum_score example_size lang_pairs w :
  normalise_loop self sample data_score sum_score example_size lang_pairs w
  = normalise_loop self sample data_score sum_score example_size (others lang_pairs) w.
Proof using Habsent.
  unfold normalise_loop. apply for_each_skip.
  intros lp normed w0 Hlp. by rewrite (absent_eqb lp Hlp).
Qed.

Lemma loss_loop_without self model criterion optimizer ignore_grad data_score normed
    lang_pairs w :
  loss_loop self sample model criterion optimizer ignore_grad data_score normed lang_pairs w
  = loss_loop self sample model criterion optimizer ignore_grad data_score normed
              (others lang_pairs) w.
Proof using Habsent.
  unfold loss_loop. apply for_each_skip.
  intros lp [[agg_loss agg_sample_size] agg_logging_output] w0 Hlp.
  by rewrite (absent_eqb lp Hlp).
Qed.

Lemma valid_loop_without model criterion lang_pairs w :
  valid_loop sample model criterion lang_pairs w
  = valid_loop sample model criterion (others lang_pairs) w.
Proof using Habsent.
  unfold valid_loop. apply for_each_skip.
  intros lp [[agg_loss agg_sample_size] agg_logging_output] w0 Hlp.
  by rewrite (absent_eqb lp Hlp).
Qed.

(** The loops only add logging outputs under pairs that are in the
    sample. *)
Lemma loss_loop_no_entry self model criterion optimizer ignore_grad data_score normed
    lang_pairs w agg_loss agg_sample_size agg_logging_output w' :
  loss_loop self sample model criterion optimizer ignore_grad data_score normed lang_pairs w
  = (Ok (agg_loss, agg_sample_size, agg_logging_output), w') ->
  agg_logging_output !! lang_pair = None.
Proof using Habsent.
  unfold loss_loop. intros Hrun.
  eapply (for_each_invariant (fun acc => acc.2 !! lang_pair = None)) in Hrun; [done| |done].
  clear Hrun. intros lp [[l s] out] w0 [[l' s'] out'] w0' Hout Hbody. cbn in Hout |- *.
  destruct (absent sample lp) eqn:Hlp.
  { by injection Hbody as -> -> -> _. }
  assert (lp <> lang_pair) as Hne by (intros ->; congruence).
  unfold mbind, M_bind, mret, M_ret in Hbody.
  repeat (case_match; simplify_eq/=); by rewrite lookup_insert_ne.
Qed.

Lemma valid_loop_no_entry model criterion lang_pairs w agg_loss agg_sample_size
    agg_logging_output w' :
  valid_loop sample model criterion lang_pairs w
  = (Ok (agg_loss, agg_sample_size, agg_logging_output), w') ->
  agg_logging_output !! lang_pair = None.
Proof using Habsent.
  unfold valid_loop. intros Hrun.
  eapply (for_each_invariant (fun acc => acc.2 !! lang_pair = None)) in Hrun; [done| |done].
  clear Hrun. intros lp [[l s] out] w0 [[l' s'] out'] w0' Hout Hbody. cbn in Hout |- *.
  destruct (absent sample lp) eqn:Hlp.
  { by injection Hbody as -> -> -> _. }
  assert (lp <> lang_pair) as Hne by (intros ->; congruence).
  unfold mbind, M_bind, mret, M_ret in Hbody.
  repeat (case_match; simplify_eq/=); by rewrite lookup_insert_ne.
Qed.
End StepFacts.

Example train_step_toy :
  (train_step (H := toy_torch) toy_task toy_sample toy_model toy_criterion
              (OptimizerList (H := toy_torch) [0; 1]%nat) false
              (Some (fun b => foldr Z.add 0 b)) toy_world)
  = (Ok (14, 2, <["en-de"%string := 2%nat]> ∅),
     {| events := [ModelTrain; Backward (H := toy_torch) 0%nat 14 true;
                   Backward (H := toy_torch) 1%nat 14 false];
        loss_copy := None;
        data_actor_out := Some (<["en-de"%string := 7]> ∅) |}).
Proof. vm_compute. reflexivity. Qed.

(** When no configured pair is in the sample, the step returns the zeros
    it started from and an empty logging output. *)
Lemma valid_step_all_absent `{Torch} (self : task) (sample : gmap string (option batch))
    (model : gmap string submodel) (criterion : criterion_t) (w : world) :
  Forall (fun lp => absent sample lp = true) (eval_lang_pairs self) ->
  (valid_step self sample model criterion w).1 = Ok (float_zero, float_zero, ∅).
Proof.
  intros Hall. unfold valid_step, valid_loop, mbind, M_bind. cbn.
  generalize (events w ++ [ModelEval]). intros evs.
  induction Hall as [|lp lps Hlp _ IH]; [done|].
  cbn [for_each]. rewrite Hlp. unfold mbind, M_bind, mret, M_ret. apply IH.
Qed.

(** C9: a configured language pair that is absent from the sample (no
    such key, [None], or an empty sample) is passed over by [train_step]
    and by [valid_step]: the step does exactly what it does when that pair
    is not configured at all (same sums, same logging output, same calls,
    same exception if another pair raises one), and the logging output it
    returns has no entry for the pair. *)
Theorem absent_lang_pair_skipped `{Torch} (self : task)
    (sample : gmap string (option batch)) (model : gmap string submodel)
    (criterion : criterion_t) (optimizer : optimizer_t) (ignore_grad : bool)
    (data_actor : option (batch -> tensor)) (lang_pair : string) (w : world) :
  absent sample lang_pair = true ->
  train_step self sample model criterion optimizer ignore_grad data_actor w
  = train_step (without_pair lang_pair self) sample model criterion optimizer ignore_grad
               data_actor w
  /\ valid_step self sample model criterion w
     = valid_step (without_pair lang_pair self) sample model criterion w
  /\ (forall agg_loss agg_sample_size agg_logging_output w',
        train_step self sample model criterion optimizer ignore_grad data_actor w
        = (Ok (agg_loss, agg_sample_size, agg_logging_output), w') ->
        agg_logging_output !! lang_pair = None)
  /\ (forall agg_loss agg_sample_size agg_logging_output w',
        valid_step self sample model criterion w
        = (Ok (agg_loss, agg_sample_size, agg_logging_output), w') ->
        agg_logging_output !! lang_pair = None).
Proof.
  intros Habsent. split_and!.
  - unfold train_step, mbind, M_bind, emit.
    change (model_lang_pairs (without_pair lang_pair self))
      with (List.filter (fun lp => negb (String.eqb lp lang_pair)) (model_lang_pairs self)).
    change (data_actor_step_update (without_pair lang_pair self))
      with (data_actor_step_update self).
    change (normalise_loop (without_pair lang_pair self)) with (normalise_loop self).
    change (loss_loop (without_pair lang_pair self)) with (loss_loop self).
    generalize ({| events := events w ++ [ModelTrain];
                   loss_copy := loss_copy w;
                   data_actor_out := data_actor_out w |}).
    intros w0.
    destruct (data_actor_step_update self), data_actor as [actor|];
      try apply (loss_loop_without sample lang_pair Habsent).
    rewrite <- (score_loop_without sample lang_pair Habsent).
    destruct (score_loop _ _ _ _) as [[[[data_score sum_score] example_size]|e] w1]; [|done].
    rewrite <- (normalise_loop_without sample lang_pair Habsent).
    destruct (normalise_loop _ _ _ _ _ _ _) as [[normed|e] w2]; [|done].
    apply (loss_loop_without sample lang_pair Habsent).
  - unfold valid_step, mbind, M_bind, emit.
    apply (valid_loop_without sample lang_pair Habsent).
  - intros agg_loss agg_sample_size agg_logging_output w' Hrun.
    unfold train_step, mbind, M_bind, mret, M_ret, emit in Hrun.
    destruct (data_actor_step_update self), data_actor as [actor|];
      try (by eapply loss_loop_no_entry).
    destruct (score_loop _ _ _ _) as [[[[data_score sum_score] example_size]|e] w1]; [|done].
    destruct (normalise_loop _ _ _ _ _ _ _) as [[normed|e] w2]; [|done].
    by eapply loss_loop_no_entry.
  - intros agg_loss agg_sample_size agg_logging_output w' Hrun.
    unfold valid_step, mbind, M_bind, emit in Hrun.
    by eapply valid_loop_no_entry.
Qed.

Lemma absent_lang_pair_skipped_witness :
  absent (H := toy_torch) toy_sample "en-fr" = true
  /\ train_step (H := toy_torch) toy_task toy_sample toy_model toy_criterion
                (Optimizer (H := toy_torch) 0%nat) false None toy_world
     = train_step (H := toy_torch) (without_pair "en-fr" toy_task) toy_sample toy_model
                  toy_criterion (Optimizer (H := toy_torch) 0%nat) false None toy_world.
Proof.
  split; [reflexivity|].
  exact (proj1 (absent_lang_pair_skipped (H := toy_torch) toy_task toy_sample toy_model
                  toy_criterion (Optimizer (H := toy_torch) 0%nat) false None "en-fr" toy_world eq_refl)).
Defined.


(** * Further properties *)

(** ** Size filtering: what is kept, what is dropped *)

Lemma filter_complement_Permutation {A : Type} (p : A -> bool) (l : list A) :
  List.filter p l ++ List.filter (fun x => negb (p x)) l ≡ₚ l.
Proof.
  induction l as [|x l IH]; [done|]. cbn. destruct (p x); cbn.
  - by f_equiv.
  - rewrite <- Permutation_middle. by f_equiv.
Qed.

Lemma filter_filter_same {A : Type} (p : A -> bool) (l : list A) :
  List.filter p (List.filter p l) = List.filter p l.
Proof.
  induction l as [|x l IH]; [done|]. cbn. destruct (p x) eqn:Hp; cbn; [|done].
  by rewrite Hp, IH.
Qed.

Lemma filter_filter_complement {A : Type} (p : A -> bool) (l : list A) :
  List.filter (fun x => negb (p x)) (List.filter p l) = [].
Proof.
  induction l as [|x l IH]; [done|]. cbn. destruct (p x) eqn:Hp; cbn; [|done].
  by rewrite Hp.
Qed.

Lemma Forall_returns_filter (f : Z -> result bool) (p : Z -> bool) (l : list Z) :
  Forall (fun i => returns (f i)) l -> Forall (fun i => returns (f i)) (List.filter p l).
Proof.
  intros Hret. apply Forall_forall. intros i Hi. rewrite Forall_forall in Hret.
  apply Hret. eapply elem_of_sublist; [exact Hi|apply filter_sublist].
Qed.

(** X1: [filter_by_size] loses no index: the kept indices followed by the
    ignored ones are a rearrangement of the input, and the warning it
    prints counts exactly the indices that are not returned and shows at
    most the first ten of them. *)
Theorem filter_by_size_loses_no_index indices ds max_positions :
  Forall (fun i => returns (limit_predicate ds max_positions i)) indices ->
  exists kept ignored,
    filter_by_size_select indices ds max_positions false = Ok (kept, ignored)
    /\ kept ++ ignored ≡ₚ indices
    /\ forall printed,
         filter_by_size indices ds max_positions false false = Ok (kept, Some printed) ->
         warn_count printed = (length indices - length kept)%nat
         /\ warn_first printed = take 10 ignored
         /\ (length (warn_first printed) <= 10)%nat.
Proof.
  intros Hret. eexists _, _.
  pose proof (filter_by_size_select_partition indices ds max_positions Hret) as Hsel.
  split; [exact Hsel|].
  pose proof (filter_complement_Permutation
                (fun i => passes (limit_predicate ds max_positions i)) indices) as Hperm.
  split; [exact Hperm|].
  intros printed Hrun.
  rewrite (filter_by_size_of_select _ _ _ _ _ _ _ Hsel) in Hrun.
  apply Permutation_length in Hperm. rewrite length_app in Hperm.
  destruct (List.filter (fun i => negb _) indices) as [|first rest] eqn:Hign; [done|].
  injection Hrun as <-. cbn [warn_count warn_first]. cbn [length] in Hperm |- *.
  split_and!; [lia|done|]. rewrite length_take. lia.
Qed.

Lemma filter_by_size_loses_no_index_witness :
  Forall (fun i => returns (limit_predicate pairs_dataset (PTuple [Some 15; None]) i))
         [2; 0; 3; 1]
  /\ exists kept ignored,
       filter_by_size_select [2; 0; 3; 1] pairs_dataset (PTuple [Some 15; None]) false
       = Ok (kept, ignored)
       /\ kept ++ ignored ≡ₚ [2; 0; 3; 1].
Proof.
  assert (H : Forall (fun i => returns (limit_predicate pairs_dataset
                                          (PTuple [Some 15; None]) i)) [2; 0; 3; 1]).
  { repeat (constructor; [eexists; reflexivity|]). constructor. }
  split; [exact H|].
  destruct (filter_by_size_loses_no_index [2; 0; 3; 1] pairs_dataset
              (PTuple [Some 15; None]) H) as (kept & ignored & Hsel & Hperm & _).
  by exists kept, ignored.
Defined.

(** X2: filtering is idempotent: the indices that [filter_by_size] keeps,
    filtered again against the same limit, are all kept, nothing is
    ignored, no warning is printed, and no exception is raised even with
    [raise_exception]. *)
Theorem filter_by_size_idempotent indices ds max_positions raise_exception :
  Forall (fun i => returns (limit_predicate ds max_positions i)) indices ->
  exists kept printed,
    filter_by_size indices ds max_positions false false = Ok (kept, printed)
    /\ filter_by_size kept ds max_positions raise_exception false = Ok (kept, None).
Proof.
  intros Hret.
  pose proof (filter_by_size_select_partition indices ds max_positions Hret) as Hsel.
  set (ok i := passes (limit_predicate ds max_positions i)) in *.
  exists (List.filter ok indices).
  assert (Hagain : filter_by_size_select (List.filter ok indices) ds max_positions false
                   = Ok (List.filter ok indices, [])).
  { rewrite filter_by_size_select_partition by by apply Forall_returns_filter.
    fold ok. by rewrite filter_filter_same, filter_filter_complement. }
  rewrite (filter_by_size_of_select _ _ _ _ _ _ _ Hsel),
    (filter_by_size_of_select _ _ _ _ _ _ _ Hagain).
  destruct (List.filter (fun i => negb _) indices); eexists; split; reflexivity.
Qed.

Lemma filter_by_size_idempotent_witness :
  Forall (fun i => returns (limit_predicate pairs_dataset (PTuple [Some 15; None]) i))
         [2; 0; 3; 1]
  /\ exists kept printed,
       filter_by_size [2; 0; 3; 1] pairs_dataset (PTuple [Some 15; None]) false false
       = Ok (kept, printed)
       /\ filter_by_size kept pairs_dataset (PTuple [Some 15; None]) true false
          = Ok (kept, None).
Proof.
  assert (H : Forall (fun i => returns (limit_predicate pairs_dataset
                                          (PTuple [Some 15; None]) i)) [2; 0; 3; 1]).
  { repeat (constructor; [eexists; reflexivity|]). constructor. }
  split; [exact H|].
  exact (filter_by_size_idempotent [2; 0; 3; 1] pairs_dataset (PTuple [Some 15; None])
           true H).
Defined.

Lemma filter_sublist_mono {A : Type} (p q : A -> bool) (l : list A) :
  (forall x, x ∈ l -> p x = true -> q x = true) ->
  sublist (List.filter p l) (List.filter q l).
Proof.
  induction l as [|x l IH]; intros Hpq; cbn; [constructor|].
  assert (Hl : sublist (List.filter p l) (List.filter q l)).
  { apply IH. intros y Hy. apply Hpq. by right. }
  destruct (p x) eqn:Hp.
  - rewrite (Hpq x) by (done || left). by constructor.
  - destruct (q x); [by constructor|done].
Qed.

(** With a scalar limit, the test of an index that can be tested at all
    compares one number, the same for every limit. *)
Lemma limit_predicate_scalar ds m i :
  returns (limit_predicate ds (PInt m) i) ->
  exists s, forall n, limit_predicate ds (PInt n) i = Ok (s <=? n).
Proof.
  unfold limit_predicate, check_size. intros [b Hb].
  destruct (sizes ds) as [|a|[|a [|]]];
    try (destruct (np_getitem a i) as [s|]; [by exists s|done]);
    (destruct (size ds i) as [[| s |]|[|[k [| v |]] items]]; try done; by eexists).
Qed.

(** X3: a larger scalar limit keeps more: with limits [m <= m'], the
    indices kept under [m] are a subsequence of those kept under [m'], and
    the indices ignored under [m'] a subsequence of those ignored under
    [m]. *)
Theorem filter_by_size_monotone indices ds m m' :
  m <= m' ->
  Forall (fun i => returns (limit_predicate ds (PInt m) i)) indices ->
  exists kept ignored kept' ignored',
    filter_by_size_select indices ds (PInt m) false = Ok (kept, ignored)
    /\ filter_by_size_select indices ds (PInt m') false = Ok (kept', ignored')
    /\ sublist kept kept'
    /\ sublist ignored' ignored.
Proof.
  intros Hle Hret.
  assert (Hret' : Forall (fun i => returns (limit_predicate ds (PInt m') i)) indices).
  { eapply Forall_impl; [exact Hret|]. intros i Hi.
    destruct (limit_predicate_scalar ds m i Hi) as [s Hs]. rewrite Hs. by eexists. }
  eexists _, _, _, _.
  split; [by apply filter_by_size_select_partition|].
  split; [by apply filter_by_size_select_partition|].
  rewrite Forall_forall in Hret.
  split; apply filter_sublist_mono; intros i Hi;
    destruct (limit_predicate_scalar ds m i (Hret i Hi)) as [s Hs];
    rewrite !Hs; cbn;
    destruct (s <=? m) eqn:H1, (s <=? m') eqn:H2; try done; lia.
Qed.

Lemma filter_by_size_monotone_witness :
  10 <= 20
  /\ Forall (fun i => returns (limit_predicate dict_dataset (PInt 10) i)) [3; 1; 2; 5; 6]
  /\ exists kept ignored kept' ignored',
       filter_by_size_select [3; 1; 2; 5; 6] dict_dataset (PInt 10) false = Ok (kept, ignored)
       /\ filter_by_size_select [3; 1; 2; 5; 6] dict_dataset (PInt 20) false
          = Ok (kept', ignored')
       /\ sublist kept kept'
       /\ sublist ignored' ignored.
Proof.
  assert (H1 : 10 <= 20) by lia.
  assert (H2 : Forall (fun i => returns (limit_predicate dict_dataset (PInt 10) i))
                      [3; 1; 2; 5; 6]).
  { repeat (constructor; [eexists; reflexivity|]). constructor. }
  split; [exact H1|]. split; [exact H2|].
  exact (filter_by_size_monotone [3; 1; 2; 5; 6] dict_dataset 10 20 H1 H2).
Defined.

(** X4: on the vectorised branches [noskip] changes nothing: the indices
    whose size is over the limit are dropped all the same. *)
Theorem filter_by_size_vectorised_ignores_noskip indices ds max_positions raise_exception
    noskip :
  dynamic_path ds max_positions = false ->
  filter_by_size indices ds max_positions raise_exception noskip
  = filter_by_size indices ds max_positions raise_exception false
  /\ (Forall (fun i => returns (limit_predicate ds max_positions i)) indices ->
      filter_by_size_select indices ds max_positions noskip
      = Ok (List.filter (fun i => passes (limit_predicate ds max_positions i)) indices,
            List.filter (fun i => negb (passes (limit_predicate ds max_positions i)))
                        indices)).
Proof.
  intros Hdyn.
  assert (Hsel : filter_by_size_select indices ds max_positions noskip
                 = filter_by_size_select indices ds max_positions false).
  { unfold filter_by_size_select, dynamic_path in *.
    destruct max_positions as [[| m |]|]; try done.
    by destruct (sizes ds) as [|a|[|a [|]]]. }
  split.
  - unfold filter_by_size. by rewrite Hsel.
  - intros Hret. rewrite Hsel. by apply filter_by_size_select_partition.
Qed.

Lemma filter_by_size_vectorised_ignores_noskip_witness :
  let ds := {| sizes := SizesNdarray [7; 30; 9]; size := fun _ => Atom ANone |} in
  dynamic_path ds (PInt 8) = false
  /\ filter_by_size [2; 0; 1] ds (PInt 8) false true
     = filter_by_size [2; 0; 1] ds (PInt 8) false false.
Proof.
  split; [reflexivity|].
  exact (proj1 (filter_by_size_vectorised_ignores_noskip [2; 0; 1]
                  {| sizes := SizesNdarray [7; 30; 9]; size := fun _ => Atom ANone |}
                  (PInt 8) false true eq_refl)).
Defined.

Lemma mapM_result_raise {A B : Type} (f : A -> result B) (e0 : exn) (l : list A) :
  (forall x e, f x = Raise e -> e = e0) ->
  Exists (fun x => exists e, f x = Raise e) l ->
  mapM (M := result) f l = Raise e0.
Proof.
  intros Hkind. induction 1 as [x l [e He]|x l _ IH]; cbn [mapM].
  - rewrite He. cbn. by rewrite (Hkind x e He).
  - destruct (f x) as [y|e] eqn:Hx; cbn; [by rewrite IH|].
    by rewrite (Hkind x e Hx).
Qed.

Lemma np_getitem_out_of_range a i :
  i < - Z.of_nat (length a) \/ Z.of_nat (length a) <= i ->
  np_getitem a i = Raise IndexError.
Proof.
  intros Hi. unfold np_getitem.
  destruct (_ && _) eqn:Hin; [|done].
  apply andb_true_iff in Hin as [H1%Z.leb_le H2%Z.ltb_lt]. lia.
Qed.

Lemma np_getitem_raise a i e : np_getitem a i = Raise e -> e = IndexError.
Proof. unfold np_getitem. repeat case_match; congruence. Qed.

(** X5: on the vectorised branch, one index outside the array of sizes
    (below [-len] or from [len] on) makes the whole call raise
    [IndexError], whatever the other indices and the flags. *)
Theorem filter_by_size_index_out_of_range indices a (size_fn : Z -> pyval) m raise_exception
    noskip i :
  i ∈ indices ->
  i < - Z.of_nat (length a) \/ Z.of_nat (length a) <= i ->
  filter_by_size indices {| sizes := SizesNdarray a; size := size_fn |} (PInt m)
                 raise_exception noskip
  = Raise IndexError.
Proof.
  intros Hi Hout.
  unfold filter_by_size, filter_by_size_select, filter_by_sizes_array, np_take. cbn.
  rewrite (mapM_result_raise _ IndexError); [done|apply np_getitem_raise|].
  apply Exists_exists. exists i. split; [done|].
  exists IndexError. by apply np_getitem_out_of_range.
Qed.

Lemma filter_by_size_index_out_of_range_witness :
  3 ∈ [0; 3; 1]
  /\ (3 < - Z.of_nat (length [7; 30; 9]) \/ Z.of_nat (length [7; 30; 9]) <= 3)
  /\ filter_by_size [0; 3; 1] {| sizes := SizesNdarray [7; 30; 9];
                                size := fun _ => Atom ANone |} (PInt 100) false true
     = Raise IndexError.
Proof.
  assert (H1 : 3 ∈ [0; 3; 1]) by (right; left).
  assert (H2 : 3 < - Z.of_nat (length [7; 30; 9]) \/ Z.of_nat (length [7; 30; 9]) <= 3)
    by (right; simpl; lia).
  split; [exact H1|]. split; [exact H2|].
  exact (filter_by_size_index_out_of_range [0; 3; 1] [7; 30; 9] (fun _ => Atom ANone) 100
           false true 3 H1 H2).
Defined.

(** ** Size filtering: the comparison of sizes with limits *)

Lemma check_size_dict_branch size_fn max_items idx_size idx :
  size_fn idx = Dict idx_size ->
  check_size size_fn (Dict max_items) idx
  = all_r (compare_field idx_size max_items) (intersect_keys max_items idx_size).
Proof. intros Hsize. unfold check_size. by rewrite Hsize. Qed.

Lemma elem_of_intersect_keys (max_items idx_size : list (string * atom)) (k : string) :
  k ∈ intersect_keys max_items idx_size <-> k ∈ keys max_items /\ k ∈ keys idx_size.
Proof.
  unfold intersect_keys. rewrite list_elem_of_In, filter_In, bool_decide_eq_true.
  rewrite <- list_elem_of_In. tauto.
Qed.

(** [all] gives [True] exactly when every test does, in whatever order
    the tests are run. *)
Lemma all_r_true {A : Type} (f : A -> result bool) (l : list A) :
  all_r f l = Ok true <-> forall x, x ∈ l -> f x = Ok true.
Proof.
  induction l as [|x l IH]; cbn [all_r].
  - split; [|done]. intros _ x Hx. by apply elem_of_nil in Hx.
  - split.
    + intros Hall y Hy. destruct (f x) as [[]|] eqn:Hx; cbn in Hall; try done.
      apply elem_of_cons in Hy as [->|Hy]; [done|]. by apply IH.
    + intros Hall. rewrite (Hall x) by left. cbn. apply IH.
      intros y Hy. apply Hall. by right.
Qed.

(** When no test raises, [all] returns. *)
Lemma all_r_returns {A : Type} (f : A -> result bool) (l : list A) :
  (forall x, x ∈ l -> returns (f x)) -> returns (all_r f l).
Proof.
  induction l as [|x l IH]; intros Hret; cbn [all_r]; [by eexists|].
  destruct (Hret x) as [b ->]; [by left|]. cbn. destruct b; [|by eexists].
  apply IH. intros y Hy. apply Hret. by right.
Qed.

Lemma result_bool_eq (r r' : result bool) :
  returns r -> returns r' -> (r = Ok true <-> r' = Ok true) -> r = r'.
Proof.
  intros [b ->] [b' ->] Hiff. destruct b, b'; try done.
  - by rewrite (proj1 Hiff).
  - by rewrite (proj2 Hiff).
Qed.

Lemma getitem_returns (d : list (string * atom)) (k : string) :
  returns (getitem d k) <-> k ∈ keys d.
Proof.
  induction d as [|[k0 v0] d IH]; cbn.
  - split; [by intros []|]. intros Hk. by apply elem_of_nil in Hk.
  - destruct (String.eqb k0 k) eqn:Hk0.
    + apply String.eqb_eq in Hk0 as ->. split; [by left|by eexists].
    + fold (keys d). rewrite IH, elem_of_cons. split; [by right|].
      intros [->|Hk]; [|done]. by rewrite String.eqb_refl in Hk0.
Qed.

(** X6: when the limit and the size are both dictionaries, only the
    fields they share are compared. An index passes exactly when every
    shared field passes, in whatever order the shared keys are visited.
    Two sizes that agree on every field the limit names, wherever their
    other fields stand, pass or fail to pass alike, and give the same
    result when no shared comparison raises. A size that shares no field
    with the limit passes. *)
Theorem check_size_dict_shared_fields size_fn size_fn' max_items idx_size idx_size' idx :
  size_fn idx = Dict idx_size ->
  size_fn' idx = Dict idx_size' ->
  (forall k, k ∈ keys max_items -> getitem idx_size' k = getitem idx_size k) ->
  let shared k := k ∈ keys max_items /\ k ∈ keys idx_size in
  let every_shared_field_passes :=
    forall k, shared k -> compare_field idx_size max_items k = Ok true in
  (check_size size_fn (Dict max_items) idx = Ok true <-> every_shared_field_passes)
  /\ (forall order,
        (forall k, k ∈ order <-> shared k) ->
        all_r (compare_field idx_size max_items) order = Ok true
        <-> every_shared_field_passes)
  /\ (check_size size_fn' (Dict max_items) idx = Ok true
      <-> check_size size_fn (Dict max_items) idx = Ok true)
  /\ ((forall k, shared k -> returns (compare_field idx_size max_items k)) ->
      check_size size_fn' (Dict max_items) idx = check_size size_fn (Dict max_items) idx)
  /\ ((forall k, ~ shared k) -> check_size size_fn (Dict max_items) idx = Ok true).
Proof.
  intros Hsize Hsize' Hagree shared every_shared_field_passes.
  assert (Hshared' : forall k, k ∈ keys max_items /\ k ∈ keys idx_size' <-> shared k).
  { intros k. unfold shared. rewrite <- !getitem_returns.
    split; intros [Hmax Hk]; (split; [done|]).
    - rewrite <- Hagree; [done|]. by apply getitem_returns.
    - rewrite Hagree; [done|]. by apply getitem_returns. }
  assert (Hfield : forall k, shared k ->
                     compare_field idx_size' max_items k = compare_field idx_size max_items k).
  { intros k [Hmax _]. unfold compare_field. by rewrite Hagree. }
  assert (Hcheck : check_size size_fn (Dict max_items) idx = Ok true
                   <-> every_shared_field_passes).
  { rewrite (check_size_dict_branch _ _ _ _ Hsize), all_r_true.
    unfold every_shared_field_passes, shared.
    by setoid_rewrite elem_of_intersect_keys. }
  assert (Hcheck' : check_size size_fn' (Dict max_items) idx = Ok true
                    <-> every_shared_field_passes).
  { rewrite (check_size_dict_branch _ _ _ _ Hsize'), all_r_true.
    unfold every_shared_field_passes. setoid_rewrite elem_of_intersect_keys.
    split; intros Hall k Hk.
    - rewrite <- Hfield by done. by apply Hall, Hshared'.
    - apply Hshared' in Hk. rewrite Hfield by done. by apply Hall. }
  split_and!.
  - done.
  - intros order Horder. rewrite all_r_true. unfold every_shared_field_passes.
    by setoid_rewrite Horder.
  - by rewrite Hcheck, Hcheck'.
  - intros Hret. apply result_bool_eq; [| |by rewrite Hcheck, Hcheck'].
    + rewrite (check_size_dict_branch _ _ _ _ Hsize'). apply all_r_returns.
      intros k Hk%elem_of_intersect_keys%Hshared'. rewrite Hfield by done. by apply Hret.
    + rewrite (check_size_dict_branch _ _ _ _ Hsize). apply all_r_returns.
      intros k Hk%elem_of_intersect_keys. by apply Hret.
  - intros Hnone. apply Hcheck. intros k Hk. by destruct (Hnone k).
Qed.

Lemma check_size_dict_shared_fields_witness :
  let max_items := [("en-de"%string, ATuple [Some 10; Some 10]);
                    ("fr-en"%string, ATuple [Some 10; Some 10])] in
  let idx_size := [("en-fr"%string, ATuple [Some 500; Some 500]);
                   ("en-de"%string, ATuple [Some 3; Some 40])] in
  let idx_size' := [("en-de"%string, ATuple [Some 3; Some 40]);
                    ("de-it"%string, ATuple [Some 99; Some 99])] in
  (forall k, k ∈ keys max_items -> getitem idx_size' k = getitem idx_size k)
  /\ check_size (fun _ => Dict idx_size) (Dict max_items) 0 = Ok false
  /\ check_size (fun _ => Dict idx_size') (Dict max_items) 0
     = check_size (fun _ => Dict idx_size) (Dict max_items) 0.
Proof.
  intros max_items idx_size idx_size'.
  assert (H : forall k, k ∈ keys max_items -> getitem idx_size' k = getitem idx_size k).
  { intros k Hk. cbn in Hk. apply elem_of_cons in Hk as [->|Hk]; [reflexivity|].
    apply list_elem_of_singleton in Hk as ->. reflexivity. }
  split; [exact H|]. split; [reflexivity|].
  refine (proj1 (proj2 (proj2 (proj2
            (check_size_dict_shared_fields (fun _ => Dict idx_size) (fun _ => Dict idx_size')
               max_items idx_size idx_size' 0 eq_refl eq_refl H)))) _).
  intros k [Hmax Hk]. cbn in Hmax, Hk.
  apply elem_of_cons in Hmax as [->|Hmax]; [by eexists|].
  apply list_elem_of_singleton in Hmax as ->.
  apply elem_of_cons in Hk as [Hk|Hk]; [discriminate Hk|].
  apply list_elem_of_singleton in Hk. discriminate Hk.
Defined.

Lemma combine_app_l_short {A B : Type} (l extra : list A) (m : list B) :
  (length m <= length l)%nat -> combine (l ++ extra) m = combine l m.
Proof.
  revert m. induction l as [|x l IH]; intros [|y m] Hlen; cbn in *; try done; try lia.
  - by destruct extra.
  - f_equal. apply IH. lia.
Qed.

Lemma forallb_combine_None (fields : list (option Z)) (n : nat) :
  forallb (fun '(x, y) => none_or_le x y) (combine fields (replicate n None)) = true.
Proof.
  revert n. induction fields as [|x fields IH]; intros [|n]; cbn; try done.
  rewrite IH. by destruct x.
Qed.

(** X7: a tuple limit against a tuple size is compared field by field as
    far as the limit reaches: the fields of the size beyond the length of
    the limit are never looked at, and a limit made of [None]s lets every
    tuple size pass. *)
Theorem check_size_tuple_limit_reach size_fn fields extra max_fields idx :
  size_fn idx = PTuple (fields ++ extra) ->
  (length max_fields <= length fields)%nat ->
  check_size size_fn (PTuple max_fields) idx
  = check_size (fun _ => PTuple fields) (PTuple max_fields) idx
  /\ forall n, check_size size_fn (PTuple (replicate n None)) idx = Ok true.
Proof.
  intros Hsize Hlen. unfold check_size. rewrite Hsize. split.
  - by rewrite combine_app_l_short.
  - intros n. by rewrite forallb_combine_None.
Qed.

Lemma check_size_tuple_limit_reach_witness :
  (fun _ : Z => PTuple ([Some 5] ++ [Some 1000])) 0 = PTuple ([Some 5] ++ [Some 1000])
  /\ (length [Some 10] <= length [Some 5])%nat
  /\ check_size (fun _ => PTuple ([Some 5] ++ [Some 1000])) (PTuple [Some 10]) 0 = Ok true.
Proof.
  assert (H : (length [Some 10] <= length [Some 5])%nat) by (simpl; lia).
  split; [reflexivity|]. split; [exact H|].
  exact (proj1 (check_size_tuple_limit_reach (fun _ => PTuple ([Some 5] ++ [Some 1000]))
                  [Some 5] [Some 1000] [Some 10] 0 eq_refl H)).
Defined.

(** X8: a number as size against a tuple limit must be at most every
    bound of the limit; here a [None] in the limit is not "no constraint":
    when the bounds before it all hold, the comparison with it raises
    [TypeError]. *)
Theorem check_size_scalar_size_tuple_limit size_fn s idx :
  size_fn idx = PInt s ->
  (forall bounds,
     check_size size_fn (PTuple (Some <$> bounds)) idx = Ok (forallb (fun b => s <=? b) bounds))
  /\ (forall before after,
        Forall (fun b => s <= b) before ->
        check_size size_fn (PTuple ((Some <$> before) ++ None :: after)) idx = Raise TypeError).
Proof.
  intros Hsize. unfold check_size. rewrite Hsize. split.
  - induction bounds as [|b bounds IH]; [done|]. cbn.
    destruct (s <=? b); [exact IH|done].
  - intros before after Hbefore.
    induction Hbefore as [|b before Hb _ IH]; [done|]. cbn.
    apply Z.leb_le in Hb. by rewrite Hb.
Qed.

Lemma check_size_scalar_size_tuple_limit_witness :
  (fun _ : Z => PInt 7) 0 = PInt 7
  /\ check_size (fun _ => PInt 7) (PTuple (Some <$> [10; 5])) 0 = Ok false
  /\ check_size (fun _ => PInt 7) (PTuple ((Some <$> [10]) ++ None :: [Some 5])) 0
     = Raise TypeError.
Proof.
  split; [reflexivity|]. split.
  - exact (proj1 (check_size_scalar_size_tuple_limit (fun _ => PInt 7) 7 0 eq_refl) [10; 5]).
  - refine (proj2 (check_size_scalar_size_tuple_limit (fun _ => PInt 7) 7 0 eq_refl)
              [10] [Some 5] _).
    constructor; [lia|constructor].
Defined.

(** ** [collate_tokens]: when it returns, and what with *)

Lemma mapM_result_returns {A B : Type} (f : A -> result B) (l : list A) :
  returns (mapM (M := result) f l) <-> Forall (fun x => returns (f x)) l.
Proof.
  induction l as [|x l IH]; cbn [mapM].
  - split; [constructor|by eexists].
  - rewrite Forall_cons, <- IH. clear IH. split.
    + intros [res Hres]. destruct (f x) as [y|]; [|done]. cbn in Hres.
      destruct (mapM f l) as [ys|]; [|done]. split; by eexists.
    + intros [[y ->] [ys ->]]. by eexists.
Qed.

Lemma copy_tensor_returns eos_idx move_eos_to_beginning src :
  returns (copy_tensor eos_idx move_eos_to_beginning src)
  <-> (move_eos_to_beginning = true -> exists e, eos_idx = Some e /\ last src = Some e).
Proof.
  unfold copy_tensor, last_item. destruct move_eos_to_beginning.
  - destruct (last src) as [x|]; cbn.
    + destruct eos_idx as [e|].
      * destruct (x =? e) eqn:Hx.
        -- apply Z.eqb_eq in Hx as ->. split; [by eexists|by eexists].
        -- split; [by intros []|]. intros [e' [[= ->] [= ->]]]; [done|].
           by rewrite Z.eqb_refl in Hx.
      * split; [by intros []|]. by intros [e [? _]].
    + split; [by intros []|]. by intros [e [_ ?]].
  - split; [done|by eexists].
Qed.

Lemma copy_tensor_raise eos_idx src :
  ~ (exists e, eos_idx = Some e /\ last src = Some e) ->
  copy_tensor eos_idx true src
  = Raise (match src with [] => IndexError | _ :: _ => AssertionError end).
Proof.
  intros Hbad. unfold copy_tensor, last_item.
  destruct (last src) as [x|] eqn:Hlast; cbn.
  - assert (src <> []) as Hne by (by intros ->).
    destruct eos_idx as [e|]; [|by destruct src].
    destruct (x =? e) eqn:Hx; [|by destruct src].
    apply Z.eqb_eq in Hx as ->. destruct Hbad. by exists e.
  - destruct src as [|y src]; [done|]. by apply last_None in Hlast.
Qed.

(** X9: [collate_tokens] returns a batch exactly when the list of
    sequences is not empty and, if [move_eos_to_beginning] is set, an
    [eos_idx] is given and every sequence ends with it; otherwise it
    raises: [ValueError] for the empty list, and for the first sequence
    that does not end with [eos_idx], [IndexError] when that sequence is
    empty and [AssertionError] when it ends otherwise or no [eos_idx] was
    given. *)
Theorem collate_tokens_returns values pad_idx eos_idx left_pad move_eos_to_beginning :
  (returns (collate_tokens values pad_idx eos_idx left_pad move_eos_to_beginning)
   <-> values <> []
       /\ (move_eos_to_beginning = true ->
           exists e, eos_idx = Some e /\ forall v, v ∈ values -> last v = Some e))
  /\ (values = [] ->
      collate_tokens values pad_idx eos_idx left_pad move_eos_to_beginning = Raise ValueError)
  /\ (forall good bad rest,
        values = good ++ bad :: rest ->
        move_eos_to_beginning = true ->
        Forall (fun v => exists e, eos_idx = Some e /\ last v = Some e) good ->
        ~ (exists e, eos_idx = Some e /\ last bad = Some e) ->
        collate_tokens values pad_idx eos_idx left_pad move_eos_to_beginning
        = Raise (match bad with [] => IndexError | _ :: _ => AssertionError end)).
Proof.
  split_and!.
  - unfold collate_tokens. destruct values as [|v0 values].
    { split; [by intros []|by intros []]. }
    rewrite max_size_max_list by done. cbn [mbind result_bind].
    rewrite mapM_result_returns, Forall_forall. split.
    + intros Hall. split; [done|]. intros Hmove.
      assert (Hv : forall v, v ∈ v0 :: values ->
                             exists e, eos_idx = Some e /\ last v = Some e).
      { intros v Hv. specialize (Hall v Hv). cbn in Hall.
        destruct (copy_tensor eos_idx move_eos_to_beginning v) eqn:Hcopy; [|by destruct Hall].
        apply (proj1 (copy_tensor_returns eos_idx move_eos_to_beginning v));
          [rewrite Hcopy; by eexists|done]. }
      destruct (Hv v0) as (e & He & _); [by left|].
      exists e. split; [done|]. intros v Hin.
      destruct (Hv v Hin) as (e' & He' & Hlast). congruence.
    + intros [_ Hmove] v Hv. cbn.
      assert (returns (copy_tensor eos_idx move_eos_to_beginning v)) as [dst ->].
      { apply copy_tensor_returns. intros Hm. destruct (Hmove Hm) as (e & He & Hlast).
        exists e. split; [done|]. by apply Hlast. }
      by eexists.
  - by intros ->.
  - intros good bad rest -> -> Hgood Hbad. unfold collate_tokens.
    rewrite max_size_max_list by (by destruct good). cbn [mbind result_bind].
    apply mapM_result_first_raise.
    + eapply Forall_impl; [exact Hgood|]. intros v Hv. cbn beta.
      assert (returns (copy_tensor eos_idx true v)) as [dst ->]; [|by eexists].
      apply copy_tensor_returns. by intros _.
    + cbn beta. by rewrite copy_tensor_raise.
Qed.

Example collate_tokens_bad_eos :
  collate_tokens [[5; 2]; [7; 3]; []] 1 (Some 2) false true = Raise AssertionError
  /\ collate_tokens [[5; 2]; []; [7; 3]] 1 (Some 2) false true = Raise IndexError
  /\ collate_tokens [[5; 2]] 1 None false true = Raise AssertionError.
Proof. split_and!; reflexivity. Qed.

Lemma length_removelast {A : Type} (l : list A) : length (removelast l) = (length l - 1)%nat.
Proof.
  induction l as [|x [|y l] IH]; [done|done|].
  cbn [removelast length] in *. rewrite IH. lia.
Qed.

Lemma last_Some_removelast {A : Type} (l : list A) (x : A) :
  last l = Some x -> l = removelast l ++ [x].
Proof.
  induction l as [|y [|z l] IH]; [done| |].
  - by intros [= ->].
  - intros Hlast. cbn [removelast]. cbn. f_equal. by apply IH.
Qed.

(** X10: with [move_eos_to_beginning], on sequences that all end with
    [eos_idx], every row of the batch has the width of the longest
    sequence, is padded on the side [left_pad] names, and without its
    padding is the sequence turned by one place: [eos_idx] first, then the
    sequence less its last element. *)
Theorem collate_tokens_move_eos values pad_idx e left_pad :
  values <> [] ->
  (forall v, v ∈ values -> last v = Some e) ->
  let size := max_list (length <$> values) in
  exists res,
    collate_tokens values pad_idx (Some e) left_pad true = Ok res
    /\ Forall2 (fun v row =>
                  length row = size
                  /\ decollate_row left_pad (length v) row = e :: removelast v
                  /\ v = removelast v ++ [e]
                  /\ row = (if left_pad
                            then replicate (size - length v) pad_idx ++ e :: removelast v
                            else e :: removelast v ++ replicate (size - length v) pad_idx))
               values res.
Proof.
  intros Hne Hlast size.
  set (g v := if left_pad
              then replicate (size - length v) pad_idx ++ e :: removelast v
              else e :: removelast v ++ replicate (size - length v) pad_idx).
  exists (g <$> values).
  assert (Hle : forall v, v ∈ values -> (length v <= size)%nat).
  { intros v Hv. apply max_list_elem_of_le. by apply list_elem_of_fmap_2. }
  assert (Hlen : forall v, v ∈ values -> length (e :: removelast v) = length v).
  { intros v Hv. specialize (Hlast v Hv). cbn. rewrite length_removelast.
    destruct v; [done|]. cbn. lia. }
  split.
  - unfold collate_tokens. rewrite max_size_max_list by done. cbn.
    apply mapM_result_fmap. intros v Hv. unfold copy_tensor, last_item.
    rewrite (Hlast v Hv). cbn. rewrite Z.eqb_refl. cbn.
    specialize (Hle v Hv). specialize (Hlen v Hv). unfold g. destruct left_pad.
    + rewrite <- Hlen. rewrite write_at_left by lia. by rewrite Hlen.
    + rewrite <- Hlen. rewrite write_at_right. by rewrite Hlen.
  - apply Forall2_fmap_r, Forall_Forall2_diag, Forall_forall.
    intros v Hv. specialize (Hle v Hv). specialize (Hlen v Hv).
    unfold compose, g, decollate_row. destruct left_pad.
    + rewrite length_app, length_replicate, Hlen.
      split_and!; [lia| |apply last_Some_removelast; by apply Hlast|done].
      apply drop_app_length'. rewrite length_replicate. lia.
    + rewrite (app_comm_cons (removelast v)), length_app, length_replicate, Hlen.
      split_and!; [lia| |apply last_Some_removelast; by apply Hlast|done].
      rewrite <- Hlen. by rewrite take_app_length.
Qed.

Lemma collate_tokens_move_eos_witness :
  [[5; 6; 2]; [7; 2]] <> []
  /\ (forall v, v ∈ [[5; 6; 2]; [7; 2]] -> last v = Some 2)
  /\ collate_tokens [[5; 6; 2]; [7; 2]] 1 (Some 2) true true = Ok [[2; 5; 6]; [1; 2; 7]].
Proof.
  assert (H1 : [[5; 6; 2]; [7; 2]] <> ([] : list (list Z))) by discriminate.
  assert (H2 : forall v, v ∈ [[5; 6; 2]; [7; 2]] -> last v = Some 2).
  { intros v Hv. apply elem_of_cons in Hv as [->|Hv]; [reflexivity|].
    apply list_elem_of_singleton in Hv as ->. reflexivity. }
  split; [exact H1|]. split; [exact H2|].
  destruct (collate_tokens_move_eos [[5; 6; 2]; [7; 2]] 1 2 true H1 H2) as (res & Hres & _).
  reflexivity.
Defined.

(** Sequences of one common length are batched as they are: no
    padding is added on either side. *)
Theorem collate_tokens_equal_lengths values pad_idx eos_idx left_pad (n : nat) :
  values <> [] ->
  (forall v, v ∈ values -> length v = n) ->
  collate_tokens values pad_idx eos_idx left_pad false = Ok values.
Proof.
  intros Hne Hlen.
  assert (Hmax : max_list (length <$> values) = n).
  { assert (length <$> values <> []) as Hne' by (by destruct values).
    apply max_list_elem_of, list_elem_of_fmap in Hne' as (v & -> & Hv).
    by apply Hlen. }
  unfold collate_tokens. rewrite max_size_max_list, Hmax by done. cbn.
  rewrite (mapM_result_fmap _ id); [by rewrite list_fmap_id|].
  intros v Hv. cbn. rewrite <- (Hlen v Hv). destruct left_pad.
  - rewrite write_at_left by lia. by rewrite Nat.sub_diag.
  - rewrite write_at_right, Nat.sub_diag. cbn. by rewrite app_nil_r.
Qed.

Lemma collate_tokens_equal_lengths_witness :
  [[5; 6; 2]; [7; 8; 2]] <> []
  /\ (forall v, v ∈ [[5; 6; 2]; [7; 8; 2]] -> length v = 3%nat)
  /\ collate_tokens [[5; 6; 2]; [7; 8; 2]] 1 None true false = Ok [[5; 6; 2]; [7; 8; 2]].
Proof.
  assert (H1 : [[5; 6; 2]; [7; 8; 2]] <> ([] : list (list Z))) by discriminate.
  assert (H2 : forall v, v ∈ [[5; 6; 2]; [7; 8; 2]] -> length v = 3%nat).
  { intros v Hv. apply elem_of_cons in Hv as [->|Hv]; [reflexivity|].
    apply list_elem_of_singleton in Hv as ->. reflexivity. }
  split; [exact H1|]. split; [exact H2|].
  exact (collate_tokens_equal_lengths [[5; 6; 2]; [7; 8; 2]] 1 None true 3 H1 H2).
Defined.

(** ** [switchout]: what it leaves alone and where its output lies *)

Lemma count_true_all_false (mask : list (list bool)) :
  Forall (Forall (fun b => b = false)) mask -> count_true mask = 0%nat.
Proof.
  unfold count_true. induction 1 as [|m mask Hm _ IH]; [done|].
  cbn [concat]. rewrite List.filter_app, length_app, IH, Nat.add_0_r.
  clear IH. induction Hm as [|b m -> _ IH]; [done|]. exact IH.
Qed.

Lemma length_masked_scatter (mask : list (list bool)) (source : nat -> Z) :
  forall k : nat, length (masked_scatter mask source k) = length mask.
Proof.
  induction mask as [|m mask IH]; intros k; cbn [masked_scatter]; [done|].
  destruct (masked_scatter_row m source k) as [r k']. cbn. by rewrite IH.
Qed.

(** X12: when the count drawn for every row is 0, [switchout] returns its
    input, whatever the coins and the storage hold. *)
Theorem switchout_no_words d (tokens : list (list Z)) (lengths : list Z) dic :
  (forall i, num_words d i = 0) ->
  switchout d tokens lengths dic = tokens.
Proof.
  intros Hzero. unfold switchout.
  rewrite count_true_all_false; [done|].
  apply Forall_lookup. intros i m Hm. apply Forall_lookup. intros j b Hb.
  unfold corrupt_pos in Hm. rewrite list_lookup_imap in Hm.
  destruct (tokens !! i) as [row|]; [|done]. injection Hm as <-.
  rewrite list_lookup_imap in Hb. destruct (row !! j) as [t|]; [|done].
  injection Hb as <-. rewrite Hzero. by destruct (sample_mask dic t).
Qed.

Lemma switchout_no_words_witness :
  (forall i, num_words {| num_words := fun _ => 0; coins := fun _ _ => true;
                          corrupt_val := fun _ => 7 |} i = 0)
  /\ switchout {| num_words := fun _ => 0; coins := fun _ _ => true;
                  corrupt_val := fun _ => 7 |} [[0; 5; 6; 2; 1]] [4] small_dic
     = [[0; 5; 6; 2; 1]].
Proof.
  assert (H : forall i : nat, num_words {| num_words := fun _ => 0; coins := fun _ _ => true;
                                           corrupt_val := fun _ => 7 |} i = 0)
    by reflexivity.
  split; [exact H|].
  exact (switchout_no_words _ [[0; 5; 6; 2; 1]] [4] small_dic H).
Defined.

(** X13: the output of [switchout] has the shape of its input, and a
    position that was not selected and holds an id of the dictionary keeps
    its token. *)
Theorem switchout_unselected d (tokens : list (list Z)) (lengths : list Z) dic
    (i j : nat) (row : list Z) (m : list bool) (t : Z) :
  tokens !! i = Some row ->
  row !! j = Some t ->
  corrupt_pos dic d tokens lengths !! i = Some m ->
  m !! j = Some false ->
  0 <= t < dic_len dic ->
  dic_len dic <= 2 ^ 63 ->
  length (switchout d tokens lengths dic) = length tokens
  /\ exists row',
       switchout d tokens lengths dic !! i = Some row'
       /\ length row' = length row
       /\ row' !! j = Some t.
Proof.
  intros Hi Hj Hm Hmj Ht Hlen. split.
  { unfold switchout. destruct (_ =? _)%nat; [done|].
    rewrite length_zip_with, length_masked_scatter.
    unfold corrupt_pos. rewrite length_imap. lia. }
  destruct (switchout_position d tokens lengths dic i j row t Hi Hj)
    as (row' & m' & Hout & Hlen' & Hm' & [Hsame | (c & Hval & Hc)]).
  { by exists row'. }
  exists row'. split_and!; [done|done|].
  destruct (corrupt_pos_lookup dic d tokens lengths i row j t Hi Hj) as (m2 & Hm2 & _ & Hm2j).
  assert (m2 = m) as -> by congruence.
  rewrite Hmj in Hm2j. injection Hm2j as Hbern. rewrite <- Hbern in Hc. subst c.
  rewrite Hval. f_equal. destruct (t =? pad dic) eqn:Hpad.
  - symmetry. by apply Z.eqb_eq.
  - rewrite Z.add_0_r, wrap64_small by lia. by apply Z.mod_small.
Qed.

Lemma switchout_unselected_witness :
  0 <= 5 < dic_len small_dic
  /\ dic_len small_dic <= 2 ^ 63
  /\ exists row',
       switchout {| num_words := fun _ => 2;
                    coins := fun _ j => bool_decide (j = 2%nat);
                    corrupt_val := fun _ => 7 |} [[0; 5; 6; 2; 1]] [4] small_dic !! 0%nat
       = Some row'
       /\ length row' = 5%nat
       /\ row' !! 1%nat = Some 5.
Proof.
  assert (H1 : 0 <= 5 < dic_len small_dic) by (simpl; lia).
  assert (H2 : dic_len small_dic <= 2 ^ 63) by (simpl; lia).
  split; [exact H1|]. split; [exact H2|].
  exact (proj2 (switchout_unselected
                  {| num_words := fun _ => 2; coins := fun _ j => bool_decide (j = 2%nat);
                     corrupt_val := fun _ => 7 |}
                  [[0; 5; 6; 2; 1]] [4] small_dic 0 1 [0; 5; 6; 2; 1]
                  [false; false; true; false; false] 5
                  eq_refl eq_refl eq_refl eq_refl H1 H2)).
Defined.

(** X14: once a position has been selected, every element of the output
    is [pad] or an id of the dictionary, whatever the tokens of the input
    and the storage were. *)
Theorem switchout_in_vocabulary d (tokens : list (list Z)) (lengths : list Z) dic
    (i j : nat) (row' : list Z) (x : Z) :
  0 < dic_len dic ->
  count_true (corrupt_pos dic d tokens lengths) <> 0%nat ->
  switchout d tokens lengths dic !! i = Some row' ->
  row' !! j = Some x ->
  x = pad dic \/ 0 <= x < dic_len dic.
Proof.
  intros Hlen Hcount Hi Hj. unfold switchout in Hi.
  apply Nat.eqb_neq in Hcount. rewrite Hcount in Hi.
  apply lookup_zip_with_Some in Hi as (row & crow & -> & _ & _).
  apply lookup_zip_with_Some in Hj as (t & c & -> & _ & _).
  destruct (t =? pad dic); [by left|right]. by apply Z.mod_pos_bound.
Qed.

Lemma switchout_in_vocabulary_witness :
  0 < dic_len small_dic
  /\ count_true (corrupt_pos small_dic (eager_draws (fun _ => 7)) [[0; 55; -6; 2; 1]] [4])
     <> 0%nat
  /\ switchout (eager_draws (fun _ => 7)) [[0; 55; -6; 2; 1]] [4] small_dic
     = [[0; 2; 1; 2; 1]]
  /\ (2 = pad small_dic \/ 0 <= 2 < dic_len small_dic).
Proof.
  assert (H1 : 0 < dic_len small_dic) by (simpl; lia).
  assert (H2 : count_true (corrupt_pos small_dic (eager_draws (fun _ => 7))
                             [[0; 55; -6; 2; 1]] [4]) <> 0%nat) by (vm_compute; lia).
  split; [exact H1|]. split; [exact H2|]. split; [reflexivity|].
  exact (switchout_in_vocabulary (eager_draws (fun _ => 7)) [[0; 55; -6; 2; 1]] [4] small_dic
           0 1 [0; 2; 1; 2; 1] 2 H1 H2 eq_refl eq_refl).
Defined.

(** ** [numpy_seed]: reproducible draws *)

(** X15: when seeding the generator with the seed of the scope gives the
    same state from two states, what the body computes inside the scope is
    the same from both: entered from either state with the same seeds, the
    scope gives the same result, and each time the state outside is put
    back. The seed of the scope is [seed], or
    [int(hash((seed, *addl_seeds)) % 1e6)] with auxiliary seeds; nothing is
    asked of the generator at any other seed. *)
Theorem numpy_seed_reproducible {rng A : Type} (np_random_seed : Z -> M rng unit)
    (hash : list Z -> Z) (seeded : rng) (seed : Z) (addl_seeds : list Z)
    (body : M rng A) (st1 st2 : rng) :
  let effective := if (0 <? length addl_seeds)%nat
                   then mod_1e6 (hash (seed :: addl_seeds))
                   else seed in
  np_random_seed effective st1 = (Ok tt, seeded) ->
  np_random_seed effective st2 = (Ok tt, seeded) ->
  (numpy_seed np_random_seed hash (Some seed) addl_seeds body st1).1
  = (numpy_seed np_random_seed hash (Some seed) addl_seeds body st2).1
  /\ (numpy_seed np_random_seed hash (Some seed) addl_seeds body st1).2 = st1
  /\ (numpy_seed np_random_seed hash (Some seed) addl_seeds body st2).2 = st2.
Proof.
  intros effective Hseed1 Hseed2. subst effective.
  rewrite !numpy_seed_seeded, Hseed1, Hseed2. done.
Qed.

Lemma numpy_seed_reproducible_witness :
  checked_seed 358272 10 = (Ok tt, 358272)
  /\ checked_seed 358272 20 = (Ok tt, 358272)
  /\ checked_seed (-1) 10 = (Raise ValueError, 10)
  /\ (numpy_seed checked_seed cpython_tuple_hash (Some 1) [2] np_random_get_state 10).1
     = (numpy_seed checked_seed cpython_tuple_hash (Some 1) [2] np_random_get_state 20).1.
Proof.
  split; [reflexivity|]. split; [reflexivity|]. split; [reflexivity|].
  refine (proj1 (numpy_seed_reproducible checked_seed cpython_tuple_hash 358272 1 [2]
                   np_random_get_state 10 20 _ _)); vm_compute; reflexivity.
Defined.

(** X16: with auxiliary seeds the seed handed to [np.random.seed] is
    always at least 0 and below 1_000_000, whatever the hash is, negative
    hashes included. *)
Theorem numpy_seed_aux_seed_range {rng A : Type} (np_random_seed : Z -> M rng unit)
    (hash : list Z -> Z) (seed aux : Z) (addl_seeds : list Z) (body : M rng A) (st : rng) :
  exists s,
    0 <= s < 1000000
    /\ numpy_seed np_random_seed hash (Some seed) (aux :: addl_seeds) body st
       = match np_random_seed s st with
         | (Ok _, st_seeded) => ((body st_seeded).1, st)
         | (Raise e, st') => (Raise e, st')
         end.
Proof.
  exists (mod_1e6 (hash (seed :: aux :: addl_seeds))).
  split; [apply mod_1e6_range|]. apply numpy_seed_seeded.
Qed.

(** ** [process_bpe_symbol]: what the result cannot contain *)

Lemma lstrip_suffix (s : list Z) :
  exists spaces, s = spaces ++ lstrip s /\ Forall (fun c => isspace c = true) spaces.
Proof.
  induction s as [|c s (spaces & Hs & Hspaces)]; [by exists []|].
  cbn. destruct (isspace c) eqn:Hc.
  - exists (c :: spaces). split; [by rewrite <- app_comm_cons, <- Hs|by constructor].
  - by exists [].
Qed.

Lemma head_lstrip (s : list Z) (c : Z) : head (lstrip s) = Some c -> isspace c = false.
Proof.
  induction s as [|c' s IH]; [done|]. cbn. destruct (isspace c') eqn:Hc; [done|].
  by intros [= <-].
Qed.

Lemma rstrip_prefix (s : list Z) :
  exists spaces, s = rstrip s ++ spaces /\ Forall (fun c => isspace c = true) spaces.
Proof.
  destruct (lstrip_suffix (rev s)) as (spaces & Hs & Hspaces).
  exists (rev spaces). split.
  - unfold rstrip. rewrite <- rev_app_distr, <- Hs. by rewrite rev_involutive.
  - apply Forall_forall. intros c Hc. rewrite Forall_forall in Hspaces.
    apply Hspaces. by rewrite list_elem_of_In, in_rev, <- list_elem_of_In.
Qed.

Lemma last_rstrip (s : list Z) (c : Z) : last (rstrip s) = Some c -> isspace c = false.
Proof.
  unfold rstrip. intros Hlast. apply (head_lstrip (rev s)).
  destruct (lstrip (rev s)) as [|c' l]; [done|].
  cbn [rev] in Hlast. rewrite last_snoc in Hlast. by injection Hlast as ->.
Qed.

Lemma head_strip (s : list Z) (c : Z) : head (strip s) = Some c -> isspace c = false.
Proof.
  unfold strip. intros Hhead.
  destruct (rstrip_prefix (lstrip s)) as (spaces & Hs & _).
  apply (head_lstrip s). rewrite Hs.
  destruct (rstrip (lstrip s)); [done|]. exact Hhead.
Qed.

Lemma strip_subseteq (s : list Z) (c : Z) : c ∈ strip s -> c ∈ s.
Proof.
  unfold strip. intros Hc.
  destruct (rstrip_prefix (lstrip s)) as (post & Hpost & _).
  destruct (lstrip_suffix s) as (pre & Hpre & _).
  rewrite Hpre, Hpost. apply elem_of_app. right. apply elem_of_app. by left.
Qed.

(** Replacing one character: every occurrence goes, nothing else does. *)
Lemma replace_single (x : Z) (new s : list Z) :
  replace [x] new s = flat_map (fun c => if x =? c then new else [c]) s.
Proof.
  unfold replace. induction s as [|c s IH]; [done|].
  cbn [replace_from startswith flat_map length]. rewrite andb_true_r.
  destruct (x =? c); cbn; by rewrite IH.
Qed.

(** X17: with the symbol ["sentencepiece"] the result holds no word
    marker [U+2581] any more, and it neither starts nor ends with white
    space. *)
Theorem process_bpe_symbol_sentencepiece sentence :
  let result := process_bpe_symbol sentence (Some (str "sentencepiece")) in
  (u2581 ∉ result)
  /\ (forall c, head result = Some c -> isspace c = false)
  /\ (forall c, last result = Some c -> isspace c = false).
Proof.
  cbv zeta. unfold process_bpe_symbol. rewrite bool_decide_eq_true_2 by done.
  split_and!.
  - intros Hin%strip_subseteq. rewrite replace_single in Hin.
    apply list_elem_of_In, in_flat_map in Hin as (c & _ & Hc).
    destruct (u2581 =? c) eqn:Hcu.
    + by destruct Hc as [[=]|[]].
    + destruct Hc as [->|[]]. by rewrite Z.eqb_refl in Hcu.
  - apply head_strip.
  - intros c. unfold strip. apply last_rstrip.
Qed.

Lemma startswith_spec (prefix s : list Z) :
  startswith prefix s = true <-> exists rest, s = prefix ++ rest.
Proof.
  revert s. induction prefix as [|a prefix IH]; intros s; cbn.
  - split; [by eexists|done].
  - destruct s as [|b s]; [split; [done|by intros [? ?]]|].
    rewrite andb_true_iff, Z.eqb_eq, IH. split.
    + intros [-> [rest ->]]. by exists rest.
    + intros [rest [= -> ->]]. split; [done|by exists rest].
Qed.

(** A pattern that does not occur leaves the string as it is. *)
Lemma replace_from_absent (old new s : list Z) :
  (forall before after, s <> before ++ old ++ after) ->
  replace_from old new 0 s = s.
Proof.
  induction s as [|c s IH]; intros Habsent; [done|]. cbn [replace_from].
  destruct (startswith old (c :: s)) eqn:Hstart.
  - apply startswith_spec in Hstart as [rest Hrest]. by destruct (Habsent [] rest).
  - f_equal. apply IH. intros before after ->. by apply (Habsent (c :: before) after).
Qed.

Lemma rstrip_snoc_space (s : list Z) (c : Z) : isspace c = true -> rstrip (s ++ [c]) = rstrip s.
Proof. intros Hc. unfold rstrip. rewrite rev_unit. cbn. by rewrite Hc. Qed.

(** X18: with any other symbol the result never ends with white space,
    and when the symbol does not occur in the sentence followed by a space,
    the result is the sentence less its trailing white space. *)
Theorem process_bpe_symbol_other symbol sentence :
  symbol <> str "sentencepiece" ->
  (forall c, last (process_bpe_symbol sentence (Some symbol)) = Some c -> isspace c = false)
  /\ ((forall before after, sentence ++ str " " <> before ++ symbol ++ after) ->
      process_bpe_symbol sentence (Some symbol) = rstrip sentence).
Proof.
  intros Hsym. unfold process_bpe_symbol. rewrite bool_decide_eq_false_2 by done. split.
  - intros c. apply last_rstrip.
  - intros Habsent. destruct symbol as [|a symbol].
    { by destruct (Habsent [] (sentence ++ str " ")). }
    unfold replace. rewrite replace_from_absent by done.
    by apply rstrip_snoc_space.
Qed.

Lemma process_bpe_symbol_other_witness :
  str "@@ " <> str "sentencepiece"
  /\ (forall c, last (process_bpe_symbol (str "he@@ llo  ") (Some (str "@@ "))) = Some c ->
                isspace c = false)
  /\ process_bpe_symbol (str "he@@ llo  ") (Some (str "@@ ")) = str "hello".
Proof.
  assert (H : str "@@ " <> str "sentencepiece") by discriminate.
  split; [exact H|]. split; [|reflexivity].
  exact (proj1 (process_bpe_symbol_other (str "@@ ") (str "he@@ llo  ") H)).
Defined.

(** ** [train_step] and [valid_step]: what they touch and what they raise *)

Section StepEffects.
Context `{Torch}.

(** What no iteration changes, the loop does not change. *)
Lemma for_each_preserves {X A T : Type} (f : world -> T) (body : X -> A -> M world A)
    (l : list X) :
  (forall x acc w, f (body x acc w).2 = f w) ->
  forall acc w, f (for_each l body acc w).2 = f w.
Proof.
  intros Hbody. induction l as [|x l IH]; intros acc w; cbn [for_each]; [done|].
  unfold mbind, M_bind. specialize (Hbody x acc w).
  destruct (body x acc w) as [[acc'|e] w']; cbn in *; [by rewrite IH|done].
Qed.

Lemma valid_loop_world sample model criterion lang_pairs w :
  (valid_loop sample model criterion lang_pairs w).2 = w.
Proof.
  unfold valid_loop. apply (for_each_preserves id).
  intros lp [[l s] out] w0. unfold id.
  destruct (absent sample lp); [done|].
  unfold dict_get, sample_get, raise, mbind, M_bind, mret, M_ret.
  repeat case_match; by simplify_eq/=.
Qed.

Lemma backward_events_ignore optimizer loss w :
  exists evs, events (backward optimizer loss w).2 = events w ++ evs.
Proof.
  destruct optimizer as [o|os]; cbn.
  - by eexists.
  - unfold mbind, M_bind.
    assert (Hloop : forall l w0, exists evs w1,
               for_each l (fun o (_ : unit) => emit (Backward o loss true)) tt w0
               = (Ok tt, w1) /\ events w1 = events w0 ++ evs).
    { induction l as [|o l IH]; intros w0; cbn [for_each].
      - exists [], w0. by rewrite app_nil_r.
      - unfold mbind, M_bind. cbn.
        destruct (IH {| events := events w0 ++ [Backward o loss true];
                        loss_copy := loss_copy w0;
                        data_actor_out := data_actor_out w0 |}) as (evs & w1 & -> & Hev).
        eexists _, w1. split; [done|]. rewrite Hev. cbn. by rewrite <- app_assoc. }
    destruct (Hloop (removelast os) w) as (evs & w1 & -> & Hev).
    destruct (last os); cbn; rewrite Hev.
    + eexists. by rewrite <- app_assoc.
    + by eexists.
Qed.

Lemma loss_loop_events_ignore_grad self sample model criterion optimizer data_score normed
    lang_pairs w :
  events (loss_loop self sample model criterion optimizer true data_score normed
                    lang_pairs w).2
  = events w.
Proof.
  unfold loss_loop. apply (for_each_preserves events).
  intros lp [[l s] out] w0.
  destruct (absent sample lp); [done|].
  unfold dict_get, sample_get, raise, set_loss_copy, loss_copy_is_not_None,
    mbind, M_bind, mret, M_ret.
  repeat case_match; by simplify_eq/=.
Qed.

Lemma score_loop_events sample data_actor lang_pairs w :
  events (score_loop sample data_actor lang_pairs w).2 = events w.
Proof.
  unfold score_loop. apply (for_each_preserves events).
  intros lp [[ds ss] es] w0.
  destruct (absent sample lp); [done|].
  unfold sample_get, raise, set_data_actor_out, mbind, M_bind, mret, M_ret.
  repeat case_match; by simplify_eq/=.
Qed.

Lemma normalise_loop_world self sample data_score sum_score example_size lang_pairs w :
  (normalise_loop self sample data_score sum_score example_size lang_pairs w).2 = w.
Proof.
  unfold normalise_loop. apply (for_each_preserves id).
  intros lp normed w0. unfold id.
  destruct (absent sample lp); [done|].
  unfold dict_get, raise, mbind, M_bind, mret, M_ret.
  repeat case_match; by simplify_eq/=.
Qed.

(** X19: [valid_step] changes nothing but the mode of the model: whether
    it returns or raises, no backward pass has been run and [loss_copy] and
    [data_actor_out] are as they were. *)
Theorem valid_step_touches_nothing (self : task) (sample : gmap string (option batch))
    (model : gmap string submodel) (criterion : criterion_t) (w : world) :
  (valid_step self sample model criterion w).2
  = {| events := events w ++ [ModelEval];
       loss_copy := loss_copy w;
       data_actor_out := data_actor_out w |}.
Proof.
  unfold valid_step, mbind, M_bind, emit. apply valid_loop_world.
Qed.

(** X20: with [ignore_grad], [train_step] runs no backward pass: whether
    it returns or raises, the only call it has added is the switch of the
    model to training mode. *)
Theorem train_step_ignore_grad_no_backward (self : task)
    (sample : gmap string (option batch)) (model : gmap string submodel)
    (criterion : criterion_t) (optimizer : optimizer_t)
    (data_actor : option (batch -> tensor)) (w : world) :
  events (train_step self sample model criterion optimizer true data_actor w).2
  = events w ++ [ModelTrain].
Proof.
  unfold train_step, mbind, M_bind, emit.
  set (w0 := {| events := events w ++ [ModelTrain];
                loss_copy := loss_copy w;
                data_actor_out := data_actor_out w |}).
  change (events w ++ [ModelTrain]) with (events w0).
  destruct (data_actor_step_update self), data_actor as [actor|];
    try apply loss_loop_events_ignore_grad.
  pose proof (score_loop_events sample actor (model_lang_pairs self) w0) as Hscore.
  destruct (score_loop _ _ _ _) as [[[[data_score sum_score] example_size]|e] w1];
    [|exact Hscore].
  pose proof (normalise_loop_world self sample data_score sum_score example_size
                (model_lang_pairs self) w1) as Hnorm.
  destruct (normalise_loop _ _ _ _ _ _ _) as [[normed|e] w2]; cbn in Hnorm; subst w2;
    [|exact Hscore].
  unfold mret, M_ret. rewrite <- Hscore. apply loss_loop_events_ignore_grad.
Qed.
End StepEffects.

Section StepResults.
Context `{Torch}.

(** A loop whose iterations add at most their own key to a dictionary of
    the accumulator. *)
Lemma for_each_keys {A V : Type} (g : A -> gmap string V) (adds : string -> bool)
    (body : string -> A -> M world A) (l : list string) :
  (forall x acc w acc' w',
     body x acc w = (Ok acc', w') ->
     forall lp, is_Some (g acc' !! lp) <-> is_Some (g acc !! lp) \/ (lp = x /\ adds x = true)) ->
  forall acc w acc' w',
    for_each l body acc w = (Ok acc', w') ->
    forall lp, is_Some (g acc' !! lp)
               <-> is_Some (g acc !! lp) \/ (lp ∈ l /\ adds lp = true).
Proof.
  intros Hbody. induction l as [|x l IH]; intros acc w acc' w' Hrun lp;
    cbn [for_each] in Hrun.
  - injection Hrun as -> _. rewrite elem_of_nil. tauto.
  - unfold mbind, M_bind in Hrun.
    destruct (body x acc w) as [[acc1|e] w1] eqn:Hx; [|done].
    rewrite (IH _ _ _ _ Hrun lp), (Hbody _ _ _ _ _ Hx lp), elem_of_cons.
    split; [|intros [?|[[->|?] ?]]; tauto].
    intros [[?|[-> ?]]|[? ?]]; tauto.
Qed.

Lemma loss_loop_keys self sample model criterion optimizer ignore_grad data_score normed
    lang_pairs w agg_loss agg_sample_size agg_logging_output w' :
  loss_loop self sample model criterion optimizer ignore_grad data_score normed lang_pairs w
  = (Ok (agg_loss, agg_sample_size, agg_logging_output), w') ->
  forall lp, is_Some (agg_logging_output !! lp)
             <-> lp ∈ lang_pairs /\ absent sample lp = false.
Proof.
  unfold loss_loop. intros Hrun lp.
  eapply (for_each_keys (fun acc => acc.2) (fun x => negb (absent sample x))) in Hrun.
  - cbn in Hrun. rewrite Hrun, lookup_empty, negb_true_iff.
    split; [intros [[] %is_Some_None|]; done|by right].
  - clear. intros x [[l s] out] w0 [[l' s'] out'] w0' Hbody lp0. cbn.
    destruct (absent sample x) eqn:Hx.
    { injection Hbody as -> -> -> _. cbn. split; [by left|by intros [?|[_ ?]]]. }
    unfold dict_get, sample_get, raise, set_loss_copy, loss_copy_is_not_None, backward,
      mbind, M_bind, mret, M_ret in Hbody.
    assert (exists v, out' = <[x := v]> out) as [v ->].
    { repeat (case_match; simplify_eq/=); by eexists. }
    rewrite lookup_insert. case_decide; subst.
    + split; [by right|by eexists].
    + split; [by left|by intros [?|[? _]]].
Qed.

Lemma valid_loop_keys sample model criterion lang_pairs w agg_loss agg_sample_size
    agg_logging_output w' :
  valid_loop sample model criterion lang_pairs w
  = (Ok (agg_loss, agg_sample_size, agg_logging_output), w') ->
  forall lp, is_Some (agg_logging_output !! lp)
             <-> lp ∈ lang_pairs /\ absent sample lp = false.
Proof.
  unfold valid_loop. intros Hrun lp.
  eapply (for_each_keys (fun acc => acc.2) (fun x => negb (absent sample x))) in Hrun.
  - cbn in Hrun. rewrite Hrun, lookup_empty, negb_true_iff.
    split; [intros [[] %is_Some_None|]; done|by right].
  - clear. intros x [[l s] out] w0 [[l' s'] out'] w0' Hbody lp0. cbn.
    destruct (absent sample x) eqn:Hx.
    { injection Hbody as -> -> -> _. cbn. split; [by left|by intros [?|[_ ?]]]. }
    unfold dict_get, sample_get, raise, mbind, M_bind, mret, M_ret in Hbody.
    assert (exists v, out' = <[x := v]> out) as [v ->].
    { repeat (case_match; simplify_eq/=); by eexists. }
    rewrite lookup_insert. case_decide; subst.
    + split; [by right|by eexists].
    + split; [by left|by intros [?|[? _]]].
Qed.

(** X21: when a step returns, its logging output has an entry for exactly
    the configured language pairs that are in the sample. *)
Theorem step_logging_output_keys (self : task) (sample : gmap string (option batch))
    (model : gmap string submodel) (criterion : criterion_t) (optimizer : optimizer_t)
    (ignore_grad : bool) (data_actor : option (batch -> tensor)) (w : world) :
  (forall agg_loss agg_sample_size agg_logging_output w',
     train_step self sample model criterion optimizer ignore_grad data_actor w
     = (Ok (agg_loss, agg_sample_size, agg_logging_output), w') ->
     forall lp, is_Some (agg_logging_output !! lp)
                <-> lp ∈ model_lang_pairs self /\ absent sample lp = false)
  /\ (forall agg_loss agg_sample_size agg_logging_output w',
        valid_step self sample model criterion w
        = (Ok (agg_loss, agg_sample_size, agg_logging_output), w') ->
        forall lp, is_Some (agg_logging_output !! lp)
                   <-> lp ∈ eval_lang_pairs self /\ absent sample lp = false).
Proof.
  split.
  - intros agg_loss agg_sample_size agg_logging_output w' Hrun.
    unfold train_step, mbind, M_bind, mret, M_ret, emit in Hrun.
    destruct (data_actor_step_update self), data_actor as [actor|];
      try (by eapply loss_loop_keys).
    destruct (score_loop _ _ _ _) as [[[[data_score sum_score] example_size]|e] w1]; [|done].
    destruct (normalise_loop _ _ _ _ _ _ _) as [[normed|e] w2]; [|done].
    by eapply loss_loop_keys.
  - intros agg_loss agg_sample_size agg_logging_output w' Hrun.
    unfold valid_step, mbind, M_bind, emit in Hrun.
    by eapply valid_loop_keys.
Qed.

(** X22: for a criterion that returns on every pair it is given (the
    criterion is a function here; one that raises is not covered),
    [valid_step] does not return when one configured language pair is in
    the sample but has no model: [model.models[lang_pair]] raises
    [KeyError], at that pair or at an earlier one that has no model
    either. *)
Theorem valid_step_missing_model (self : task) (sample : gmap string (option batch))
    (model : gmap string submodel) (criterion : criterion_t) (w : world) (lang_pair : string) :
  lang_pair ∈ eval_lang_pairs self ->
  absent sample lang_pair = false ->
  model !! lang_pair = None ->
  (valid_step self sample model criterion w).1 = Raise KeyError.
Proof.
  intros Hin Hpresent Hmodel.
  unfold valid_step, valid_loop, mbind, M_bind, emit.
  generalize ({| events := events w ++ [ModelEval];
                 loss_copy := loss_copy w;
                 data_actor_out := data_actor_out w |}).
  generalize (float_zero, float_zero, (∅ : gmap string logging)).
  induction (eval_lang_pairs self) as [|x l IH]; intros acc w0.
  { by apply elem_of_nil in Hin. }
  cbn [for_each]. unfold mbind, M_bind. destruct acc as [[a s] out].
  apply elem_of_cons in Hin as [<-|Hin].
  - rewrite Hpresent. unfold dict_get. by rewrite Hmodel.
  - destruct (absent sample x) eqn:Hx; [by apply IH|].
    unfold dict_get, sample_get, raise, mbind, M_bind, mret, M_ret.
    unfold absent in Hx.
    destruct (model !! x); [|done].
    destruct (sample !! x) as [[b|]|]; try done.
    destruct (criterion _ _ _) as [[[? ?] ?] ?]. by apply IH.
Qed.
End StepResults.

Lemma step_logging_output_keys_witness :
  is_Some ((<["en-de"%string := 2%nat]> ∅ : gmap string nat) !! "fr-en"%string)
  <-> "fr-en"%string ∈ model_lang_pairs toy_task
      /\ absent (H := toy_torch) toy_sample "fr-en" = false.
Proof.
  exact (proj1 (step_logging_output_keys (H := toy_torch) toy_task toy_sample toy_model
                  toy_criterion (OptimizerList (H := toy_torch) [0; 1]%nat) false
                  (Some (fun b => foldr Z.add 0 b)) toy_world)
               14 2 (<["en-de"%string := 2%nat]> ∅) _ train_step_toy "fr-en"%string).
Defined.

Lemma valid_step_missing_model_witness :
  "en-de"%string ∈ eval_lang_pairs toy_task
  /\ absent (H := toy_torch) toy_sample "en-de" = false
  /\ (∅ : gmap string Z) !! "en-de"%string = None
  /\ (valid_step (H := toy_torch) toy_task toy_sample ∅ toy_criterion toy_world).1
     = Raise KeyError.
Proof.
  assert (H1 : "en-de"%string ∈ eval_lang_pairs toy_task) by (right; left).
  split; [exact H1|]. split; [reflexivity|]. split; [reflexivity|].
  exact (valid_step_missing_model (H := toy_torch) toy_task toy_sample ∅ toy_criterion
           toy_world "en-de" H1 eq_refl eq_refl).
Defined.

(** ** Splitting, joining and [infer_language_pair] *)

Section Split.
Context {A : Type} `{EqDecision A}.
Implicit Types (sep : A) (s : list A) (pieces : list (list A)).

Lemma split_on_not_nil sep s : split_on sep s <> [].
Proof. induction s as [|c s IH]; cbn; [done|]. case_decide; [done|]. by destruct (split_on sep s). Qed.

(** Joining the pieces with the separator gives the string back. *)
Lemma join_split_on sep s : join [sep] (split_on sep s) = s.
Proof.
  induction s as [|c s IH]; [done|]. cbn [split_on]. case_decide as Hc.
  - subst c. pose proof (split_on_not_nil sep s) as Hne.
    cbn [join]. destruct (split_on sep s) as [|p ps] eqn:Hs; [done|].
    by rewrite IH.
  - pose proof (split_on_not_nil sep s) as Hne.
    destruct (split_on sep s) as [|p ps] eqn:Hs; [done|].
    rewrite <- IH. cbn [join]. by destruct ps.
Qed.

(** No piece holds the separator. *)
Lemma split_on_pieces sep s : Forall (fun piece => sep ∉ piece) (split_on sep s).
Proof.
  induction s as [|c s IH]; cbn [split_on].
  - constructor; [apply not_elem_of_nil|constructor].
  - case_decide as Hc.
    + constructor; [apply not_elem_of_nil|done].
    + destruct (split_on sep s) as [|p ps].
      { constructor; [|constructor]. rewrite not_elem_of_cons.
        split; [congruence|apply not_elem_of_nil]. }
      apply Forall_cons in IH as [Hp Hps]. constructor; [|done].
      rewrite not_elem_of_cons. split; [congruence|done].
Qed.

(** Splitting what was joined from separator-free pieces gives the
    pieces back. *)
Lemma split_on_join sep pieces :
  pieces <> [] ->
  Forall (fun piece => sep ∉ piece) pieces ->
  split_on sep (join [sep] pieces) = pieces.
Proof.
  induction pieces as [|p ps IH]; [done|]. intros _ [Hp Hps]%Forall_cons.
  destruct ps as [|p' ps].
  - cbn [join]. clear IH Hps. induction p as [|c p IHp]; [done|].
    apply not_elem_of_cons in Hp as [Hc Hp]. cbn [split_on].
    rewrite decide_False by congruence. by rewrite IHp.
  - specialize (IH ltac:(done) Hps).
    change (join [sep] (p :: p' :: ps)) with (p ++ sep :: join [sep] (p' :: ps)).
    set (rest := join [sep] (p' :: ps)) in *. clearbody rest.
    induction p as [|c p IHp].
    + cbn [app split_on]. rewrite decide_True by done. by rewrite IH.
    + apply not_elem_of_cons in Hp as [Hc Hp]. cbn [app split_on].
      rewrite decide_False by congruence. by rewrite (IHp Hp).
Qed.
End Split.

Example split_on_edges :
  split_on 46 (str "a..b.") = [str "a"; []; str "b"; []]
  /\ split_on 46 [] = [[]]
  /\ join (str ", ") [str "a"; str "b"] = str "a, b".
Proof. split_and!; reflexivity. Qed.

(** X23: [infer_language_pair] always returns two values; when they are
    languages [a] and [b], some file of the directory is named
    [<prefix>.<a>-<b>.<rest>], where neither the prefix nor the languages
    hold a dot and the languages hold no hyphen; on an empty directory it
    returns [(None, None)]. *)
Theorem infer_language_pair_sound listdir :
  length (infer_language_pair listdir) = 2%nat
  /\ infer_language_pair [] = [None; None]
  /\ forall a b,
       infer_language_pair listdir = [Some a; Some b] ->
       exists filename prefix rest,
         filename ∈ listdir
         /\ filename = prefix ++ [46] ++ (a ++ [45] ++ b) ++ [46] ++ rest
         /\ (46 ∉ prefix) /\ (46 ∉ a) /\ (46 ∉ b) /\ (45 ∉ a) /\ (45 ∉ b).
Proof.
  split_and!; [|done|].
  - induction listdir as [|filename listdir IH]; [done|]. cbn [infer_language_pair].
    destruct (split_on 46 filename !! 1%nat) as [part|]; [|done].
    destruct (_ && _) eqn:Hif; [|done].
    apply andb_true_iff in Hif as [_ Hlen%Nat.eqb_eq]. by rewrite length_fmap.
  - intros a b. induction listdir as [|filename listdir IH]; [done|].
    cbn [infer_language_pair].
    destruct (split_on 46 filename !! 1%nat) as [part|] eqn:Hpart.
    2:{ intros (f & p & r & Hin & Hrest)%IH. exists f, p, r. split; [by right|done]. }
    destruct (_ && _) eqn:Hif.
    2:{ intros (f & p & r & Hin & Hrest)%IH. exists f, p, r. split; [by right|done]. }
    apply andb_true_iff in Hif as [Hparts%Nat.leb_le _]. intros Hab.
    destruct (split_on 45 part) as [|a' [|b' [|]]] eqn:Hsplit; try done.
    injection Hab as -> ->.
    pose proof (join_split_on 45 part) as Hjoin_part. rewrite Hsplit in Hjoin_part.
    pose proof (split_on_pieces 45 part) as Hfree_part. rewrite Hsplit in Hfree_part.
    apply Forall_cons in Hfree_part as [Ha [Hb _]%Forall_cons].
    pose proof (join_split_on 46 filename) as Hjoin.
    pose proof (split_on_pieces 46 filename) as Hfree.
    destruct (split_on 46 filename) as [|p0 [|p1 [|p2 more]]] eqn:Hfile;
      cbn in Hparts; try lia.
    cbn in Hpart. injection Hpart as ->.
    apply Forall_cons in Hfree as [Hp0 [Hp1 _]%Forall_cons].
    cbn [join] in Hjoin, Hjoin_part.
    exists filename, p0, (join [46] (p2 :: more)).
    split; [by left|]. rewrite <- Hjoin_part in Hp1.
    rewrite !elem_of_app in Hp1. cbn [join]. rewrite Hjoin_part, <- Hjoin.
    split_and!; try done; tauto.
Qed.

Example infer_language_pair_example :
  infer_language_pair [str "README"; str "train.en-de.en.idx"; str "x.fr-it.bin"]
  = [Some (str "en"); Some (str "de")]
  /\ infer_language_pair [str "dict.en.txt"; str "train.en-de-fr.bin"] = [None; None].
Proof. split; reflexivity. Qed.

(** ** [add_tag] *)

Lemma insert_cons_alter (sample : gmap string (list Z)) (key : string) (tag : Z)
    (orig_data : list Z) :
  sample !! key = Some orig_data ->
  <[key := tag :: orig_data]> sample = alter (cons tag) key sample.
Proof.
  intros Hkey. apply map_eq. intros k. rewrite lookup_insert, lookup_alter.
  case_decide; subst; [by rewrite Hkey|done].
Qed.

Lemma add_tag_from_tagged key tag (before : list (gmap string (list Z))) :
  Forall (fun sample => is_Some (sample !! key)) before ->
  forall done after,
    add_tag_from key tag done (before ++ after)
    = add_tag_from key tag (done ++ (alter (cons tag) key <$> before)) after.
Proof.
  induction 1 as [|sample before [orig Horig] _ IH]; intros done after.
  - by rewrite app_nil_r.
  - cbn [app add_tag_from]. rewrite Horig, IH, (insert_cons_alter _ _ _ _ Horig).
    cbn. by rewrite <- app_assoc.
Qed.

(** X24: [add_tag] puts the tag in front of the field [key] of every
    sample and leaves the other fields alone; when a sample lacks the
    field it raises [KeyError], and the samples before that one have
    already been tagged. *)
Theorem add_tag_tags_in_order key tag (before after : list (gmap string (list Z))) :
  Forall (fun sample => is_Some (sample !! key)) before ->
  add_tag key tag before = (Ok tt, alter (cons tag) key <$> before)
  /\ (forall sample,
        sample !! key = None ->
        add_tag key tag (before ++ sample :: after)
        = (Raise KeyError, (alter (cons tag) key <$> before) ++ sample :: after))
  /\ Forall2 (fun sample tagged =>
                tagged !! key = cons tag <$> sample !! key
                /\ forall field, field <> key -> tagged !! field = sample !! field)
             before (alter (cons tag) key <$> before).
Proof.
  intros Hkeys. unfold add_tag. split_and!.
  - rewrite <- (app_nil_r before) at 1. by rewrite add_tag_from_tagged.
  - intros sample Hsample. rewrite add_tag_from_tagged by done.
    cbn. by rewrite Hsample.
  - apply Forall2_fmap_r, Forall_Forall2_diag, Forall_forall. intros sample _.
    unfold compose. split; [by rewrite lookup_alter_eq|].
    intros field Hfield. by rewrite lookup_alter_ne.
Qed.

Lemma add_tag_tags_in_order_witness :
  let s1 : gmap string (list Z) := <["source"%string := [5; 6; 2]]> ∅ in
  let s2 : gmap string (list Z) := <["target"%string := [7; 2]]> ∅ in
  Forall (fun sample => is_Some (sample !! "source"%string)) [s1]
  /\ s2 !! "source"%string = None
  /\ add_tag "source" 9 ([s1] ++ [s2])
     = (Raise KeyError, (alter (cons 9) "source"%string <$> [s1]) ++ [s2]).
Proof.
  intros s1 s2.
  assert (H : Forall (fun sample => is_Some (sample !! "source"%string)) [s1]).
  { constructor; [by eexists|constructor]. }
  split; [exact H|]. split; [reflexivity|].
  exact (proj1 (proj2 (add_tag_tags_in_order "source" 9 [s1] [] H)) s2 eq_refl).
Defined.

(** ** The configuration of the task *)

(** X25: [check_args] of [build_model] accepts the model's arguments
    exactly when they name the same set of language pairs as the task's
    (order and repetitions do not count) and agree with them on
    [encoder_langtok] and [decoder_langtok]; otherwise it raises
    [ValueError]. *)
Theorem check_args_accepts (self_args args : task_args) :
  (check_args self_args args = Ok tt
   <-> (forall lang_pair, lang_pair ∈ lang_pairs self_args <-> lang_pair ∈ lang_pairs args)
       /\ encoder_langtok self_args = encoder_langtok args
       /\ decoder_langtok self_args = decoder_langtok args)
  /\ (check_args self_args args = Ok tt \/ check_args self_args args = Raise ValueError).
Proof.
  unfold check_args, check_args_messages.
  set (given := list_to_set (lang_pairs self_args) : gset string).
  set (expected := list_to_set (lang_pairs args) : gset string).
  assert (Hsets : base.size (given ∖ expected ∪ expected ∖ given) = 0%nat
                  <-> (forall lp, lp ∈ lang_pairs self_args <-> lp ∈ lang_pairs args)).
  { rewrite size_empty_iff. split.
    - intros Hempty lp.
      assert (lp ∉ given ∖ expected ∪ expected ∖ given) as Hlp by (rewrite Hempty; set_solver).
      unfold given, expected in Hlp.
      rewrite elem_of_union, !elem_of_difference, !elem_of_list_to_set in Hlp.
      destruct (decide (lp ∈ lang_pairs self_args)), (decide (lp ∈ lang_pairs args)); tauto.
    - intros Hsame. apply set_equiv. intros lp. unfold given, expected.
      rewrite elem_of_union, !elem_of_difference, !elem_of_list_to_set, (Hsame lp).
      rewrite elem_of_empty. tauto. }
  destruct (decide (base.size (given ∖ expected ∪ expected ∖ given) = 0%nat)) as [Hz|Hnz].
  - rewrite (bool_decide_eq_false_2 (_ ≠ 0%nat)) by (intros Hne; by apply Hne).
    pose proof (proj1 Hsets Hz) as Hsame. split.
    + repeat case_bool_decide; cbn; (split; [try done|intros (_ & Henc & Hdec); done]).
    + repeat case_bool_decide; cbn; auto.
  - rewrite (bool_decide_eq_true_2 (_ ≠ 0%nat)) by done. cbn. split; [|by right].
    split; [done|]. intros (Hsame & _). by pose proof (proj2 Hsets Hsame).
Qed.

Example check_args_order :
  let task_side := {| lang_pairs := ["en-de"; "en-fr"; "en-de"]%string;
                      source_lang := None; target_lang := None;
                      encoder_langtok := Some "tgt"%string; decoder_langtok := false;
                      max_source_positions := 1024; max_target_positions := 1024 |} in
  let model_side := {| lang_pairs := ["en-fr"; "en-de"]%string;
                       source_lang := None; target_lang := None;
                       encoder_langtok := Some "tgt"%string; decoder_langtok := false;
                       max_source_positions := 1024; max_target_positions := 1024 |} in
  check_args task_side model_side = Ok tt.
Proof. vm_compute. reflexivity. Qed.

Lemma langpair2id_snoc (pairs : list string) (l : string) :
  langpair2id (pairs ++ [l]) = <[l := length pairs]> (langpair2id pairs).
Proof.
  unfold langpair2id. rewrite imap_app, fold_left_app. cbn.
  by rewrite Nat.add_0_r.
Qed.

(** X26: [langpair2id] gives every configured language pair, and no other
    string, a position at which the pair stands in the list; when the list
    has no repetition, it is the inverse of indexing the list. *)
Theorem langpair2id_inverse (model_lang_pairs : list string) :
  (forall l, is_Some (langpair2id model_lang_pairs !! l) <-> l ∈ model_lang_pairs)
  /\ (forall l i, langpair2id model_lang_pairs !! l = Some i -> model_lang_pairs !! i = Some l)
  /\ (NoDup model_lang_pairs ->
      forall l i, model_lang_pairs !! i = Some l -> langpair2id model_lang_pairs !! l = Some i).
Proof.
  induction model_lang_pairs as [|x pairs (IHdom & IHinv & IHdup)] using rev_ind.
  { split_and!.
    - intros l. unfold langpair2id. cbn. rewrite lookup_empty, elem_of_nil.
      split; [by intros []|done].
    - intros l i. unfold langpair2id. cbn. by rewrite lookup_empty.
    - by intros _ l i. }
  rewrite langpair2id_snoc. split_and!.
  - intros l. rewrite lookup_insert, elem_of_app, list_elem_of_singleton, <- IHdom.
    case_decide; subst.
    + split; [by right|by eexists].
    + split; [by left|]. intros [?|?]; [done|congruence].
  - intros l i. rewrite lookup_insert. case_decide; subst.
    + intros [= <-]. by rewrite lookup_app_r, Nat.sub_diag.
    + intros Hl. rewrite lookup_app_l; [by apply IHinv|].
      eapply lookup_lt_Some, IHinv, Hl.
  - intros Hdup l i Hi. apply NoDup_app in Hdup as (Hdup & Hnot & _).
    rewrite lookup_insert. case_decide; subst.
    + destruct (decide (i < length pairs)%nat) as [Hlt|Hge].
      * rewrite lookup_app_l in Hi by done.
        destruct (Hnot l); [by eapply list_elem_of_lookup_2|by left].
      * apply lookup_lt_Some in Hi as Hlen. rewrite length_app in Hlen. cbn in Hlen.
        f_equal. lia.
    + apply IHdup; [done|]. destruct (decide (i < length pairs)%nat) as [Hlt|Hge].
      * by rewrite lookup_app_l in Hi.
      * rewrite lookup_app_r in Hi by lia.
        destruct (i - length pairs)%nat; [|done]. cbn in Hi. congruence.
Qed.

Example langpair2id_repeated :
  langpair2id ["en-de"; "en-fr"; "en-de"]%string !! "en-de"%string = Some 2%nat.
Proof. vm_compute. reflexivity. Qed.

Lemma list_ascii_of_string_app (a b : string) :
  list_ascii_of_string (a ++ b) = list_ascii_of_string a ++ list_ascii_of_string b.
Proof. induction a as [|c a IH]; [done|]. simpl. by rewrite IH. Qed.

Lemma list_ascii_of_string_inj (a b : string) :
  list_ascii_of_string a = list_ascii_of_string b -> a = b.
Proof.
  intros Heq. rewrite <- (string_of_list_ascii_of_string a), Heq.
  apply string_of_list_ascii_of_string.
Qed.

(** Distinct languages have distinct language tokens. *)
Theorem lang_token_injective (a b : string) : _lang_token a = _lang_token b -> a = b.
Proof.
  unfold _lang_token. intros Heq.
  apply (f_equal list_ascii_of_string) in Heq.
  rewrite !list_ascii_of_string_app in Heq. cbn in Heq.
  injection Heq as Heq. apply app_inv_tail in Heq.
  by apply list_ascii_of_string_inj.
Qed.

Lemma lang_token_injective_witness :
  _lang_token "de" = _lang_token "de" /\ "de"%string = "de"%string.
Proof. split; [reflexivity|]. exact (lang_token_injective "de" "de" eq_refl). Defined.

(** X28: what [get_encoder_langtok] returns comes from the dictionary of
    the source language in every case: its [eos] when no encoder token is
    configured; otherwise the index of the language token of the source
    language for ['src'], and of the target language for any other value;
    and that index is never the dictionary's [unk_index]. A source language
    without dictionary raises [KeyError]. *)
Theorem get_encoder_langtok_result (args : task_args) (dicts : gmap string lang_dictionary)
    (src_lang tgt_lang : string) :
  (dicts !! src_lang = None -> get_encoder_langtok args dicts src_lang tgt_lang = Raise KeyError)
  /\ forall idx,
       get_encoder_langtok args dicts src_lang tgt_lang = Ok idx ->
       exists dic,
         dicts !! src_lang = Some dic
         /\ match encoder_langtok args with
            | None => idx = lang_eos dic
            | Some langtok =>
                idx <> unk_index dic
                /\ idx = index dic (_lang_token (if String.eqb langtok "src"
                                                 then src_lang else tgt_lang))
            end.
Proof.
  unfold get_encoder_langtok, getitem_map, _lang_token_index. split.
  - intros ->. destruct (encoder_langtok args) as [langtok|]; [|done].
    by destruct (String.eqb langtok "src").
  - intros idx. destruct (dicts !! src_lang) as [dic|].
    2:{ destruct (encoder_langtok args) as [langtok|]; [|done].
        by destruct (String.eqb langtok "src"). }
    destruct (encoder_langtok args) as [langtok|]; cbn.
    + destruct (String.eqb langtok "src"); cbn;
        (destruct (_ =? _) eqn:Hunk; [done|]; intros [= <-]; exists dic;
         split; [done|]; split; [by apply Z.eqb_neq|done]).
    + intros [= <-]. by exists dic.
Qed.

(** The [bos_token] that [inference_step] gives the generator is the
    decoder language token of the target language, the one
    [get_decoder_langtok] gives for the datasets. *)
Theorem inference_bos_token_is_decoder_langtok (args : task_args)
    (dicts : gmap string lang_dictionary) (tgt_lang : string) :
  target_lang args = Some tgt_lang ->
  inference_bos_token args dicts = get_decoder_langtok args dicts tgt_lang.
Proof.
  intros Htgt. unfold inference_bos_token, get_decoder_langtok, target_dictionary.
  rewrite Htgt. by destruct (decoder_langtok args).
Qed.

Lemma inference_bos_token_is_decoder_langtok_witness :
  let args := {| lang_pairs := ["en-de"%string]; source_lang := Some "en"%string;
                 target_lang := Some "de"%string; encoder_langtok := None;
                 decoder_langtok := true;
                 max_source_positions := 1024; max_target_positions := 1024 |} in
  let dicts : gmap string lang_dictionary :=
    <["de"%string := {| lang_eos := 2; unk_index := 3;
                        index := fun s => if String.eqb s "__de__" then 7 else 3 |}]> ∅ in
  target_lang args = Some "de"%string
  /\ inference_bos_token args dicts = get_decoder_langtok args dicts "de"
  /\ get_decoder_langtok args dicts "de" = Ok 7.
Proof.
  intros args dicts. split; [reflexivity|]. split; [|reflexivity].
  exact (inference_bos_token_is_decoder_langtok args dicts "de" eq_refl).
Defined.

Section LoggingFacts.
Context `{Torch}.
Variable get_ntokens : batch -> option num.
Variable target_size : batch -> option num.

Lemma sum_over_returns (f : batch -> num) (e : exn) (values : list (option batch)) :
  forall acc,
    (Forall is_Some values -> returns (sum_over f e values acc))
    /\ (~ Forall is_Some values -> sum_over f e values acc = Raise e).
Proof.
  induction values as [|[b|] values IH]; intros acc; cbn [sum_over].
  - split; [by eexists|]. intros Hnot. destruct Hnot. constructor.
  - destruct (IH (add acc (f b))) as [IH1 IH2]. split.
    + intros [_ Hall]%Forall_cons. by apply IH1.
    + intros Hnot. apply IH2. intros Hall. apply Hnot. constructor; [by eexists|done].
  - split; [|done]. intros [[] _]%Forall_cons. done.
Qed.

(** X30: [init_logging_output] returns zeros for no sample at all, and
    on a sample it returns exactly when no language pair of the sample is
    [None]; a [None] entry, which [train_step] and [valid_step] pass over,
    makes it raise [AttributeError]. *)
Theorem init_logging_output_returns (items : list (string * option batch)) :
  init_logging_output get_ntokens target_size None = Ok (int_zero, int_zero)
  /\ (returns (init_logging_output get_ntokens target_size (Some items))
      <-> Forall (fun item => is_Some item.2) items)
  /\ (~ Forall (fun item => is_Some item.2) items ->
      init_logging_output get_ntokens target_size (Some items) = Raise AttributeError).
Proof.
  assert (Hvalues : Forall is_Some (map snd items)
                    <-> Forall (fun item => is_Some item.2) items).
  { by rewrite Forall_fmap. }
  split; [done|]. unfold init_logging_output.
  assert (Hraise : ~ Forall (fun item => is_Some item.2) items ->
                   (ntokens ← sum_over (fun s => default int_zero (get_ntokens s))
                                       AttributeError (map snd items) int_zero;
                    nsentences ← sum_over (fun s => default int_zero (target_size s))
                                          TypeError (map snd items) int_zero;
                    Ok (ntokens, nsentences)) = Raise AttributeError).
  { intros Hnot. rewrite <- Hvalues in Hnot.
    by rewrite (proj2 (sum_over_returns _ AttributeError _ int_zero) Hnot). }
  split; [|exact Hraise]. split.
  - intros [r Hr]. destruct (decide (Forall (fun item => is_Some item.2) items)) as [|Hnot];
      [done|]. by rewrite (Hraise Hnot) in Hr.
  - intros Hall. apply Hvalues in Hall.
    destruct (proj1 (sum_over_returns (fun s => default int_zero (get_ntokens s))
                       AttributeError _ int_zero) Hall) as [n1 ->].
    destruct (proj1 (sum_over_returns (fun s => default int_zero (target_size s))
                       TypeError _ int_zero) Hall) as [n2 ->].
    by eexists.
Qed.
End LoggingFacts.

Example init_logging_output_None_entry :
  init_logging_output (H := toy_torch) (fun b => Some (Z.of_nat (length b))) (fun _ => None)
                      (Some [("en-de"%string, Some [3; 4]); ("en-fr"%string, None)])
  = Raise AttributeError
  /\ init_logging_output (H := toy_torch) (fun b => Some (Z.of_nat (length b)))
                         (fun _ => None)
                         (Some [("en-de"%string, Some [3; 4]); ("en-es"%string, Some [])])
     = Ok (2, 0).
Proof. split; reflexivity. Qed.

#[local] Instance string_le_total : Total string_le.
Proof.
  intros a b. unfold string_le.
  destruct (String.leb_total a b) as [-> | ->]; [by left|by right].
Qed.

(** X11: [prepare] refuses a missing [--lang-pairs] with [ValueError];
    otherwise the pairs are the pieces between the commas, the evaluation
    pairs default to them, the languages are exactly the hyphen-separated
    pieces of the pairs, each once and in sorted order, and the task is a
    training task exactly when neither a source nor a target language was
    given. *)
Theorem prepare_languages_result (given : string) (eval_arg source_arg target_arg : option string) :
  prepare_languages None eval_arg source_arg target_arg = Raise ValueError
  /\ exists eval_pairs sorted_langs training,
       prepare_languages (Some given) eval_arg source_arg target_arg
       = Ok (split_string "," given, eval_pairs, sorted_langs, training)
       /\ eval_pairs = match eval_arg with
                       | Some e => split_string "," e
                       | None => split_string "," given
                       end
       /\ Sorted string_le sorted_langs
       /\ NoDup sorted_langs
       /\ (forall lang, lang ∈ sorted_langs
                        <-> exists lang_pair, lang_pair ∈ split_string "," given
                                              /\ lang ∈ split_string "-" lang_pair)
       /\ (training = true <-> source_arg = None /\ target_arg = None).
Proof.
  split; [done|]. unfold prepare_languages. eexists _, _, _. split; [done|].
  split_and!.
  - done.
  - apply Sorted_merge_sort, _.
  - rewrite merge_sort_Permutation. apply NoDup_elements.
  - intros lang. rewrite merge_sort_Permutation, elem_of_elements, elem_of_list_to_set.
    rewrite list_elem_of_In, in_flat_map. setoid_rewrite <- list_elem_of_In. done.
  - destruct source_arg, target_arg; cbn; split; try done; by intros [? ?].
Qed.

Example prepare_languages_example :
  prepare_languages (Some "en-de,fr-en,de-it"%string) None None None
  = Ok (["en-de"; "fr-en"; "de-it"]%string, ["en-de"; "fr-en"; "de-it"]%string,
        ["de"; "en"; "fr"; "it"]%string, true).
Proof. vm_compute. reflexivity. Qed.

Lemma split_on_two {A : Type} `{EqDecision A} (sep : A) (l x y : list A) :
  split_on sep l = [x; y] <-> l = x ++ [sep] ++ y /\ (sep ∉ x) /\ (sep ∉ y).
Proof.
  split.
  - intros Hsplit. pose proof (join_split_on sep l) as Hjoin.
    pose proof (split_on_pieces sep l) as Hfree. rewrite Hsplit in Hjoin, Hfree.
    apply Forall_cons in Hfree as [Hx [Hy _]%Forall_cons]. by split.
  - intros (-> & Hx & Hy).
    apply (split_on_join sep [x; y]); [done|]. by repeat constructor.
Qed.

Lemma unpack_pair_Ok (s a b : string) :
  unpack_pair s = Ok (a, b)
  <-> s = (a ++ "-" ++ b)%string
      /\ ("-"%char ∉ list_ascii_of_string a) /\ ("-"%char ∉ list_ascii_of_string b).
Proof.
  unfold unpack_pair, split_string. split.
  - destruct (split_on "-"%char (list_ascii_of_string s)) as [|x [|y [|]]] eqn:Hsplit;
      try done.
    cbn. intros [= <- <-]. apply split_on_two in Hsplit as (Hs & Hx & Hy).
    rewrite !list_ascii_of_string_of_list_ascii. split; [|done].
    apply list_ascii_of_string_inj.
    rewrite !list_ascii_of_string_app, !list_ascii_of_string_of_list_ascii. exact Hs.
  - intros (-> & Ha & Hb).
    rewrite !list_ascii_of_string_app.
    rewrite (proj2 (split_on_two "-"%char _ (list_ascii_of_string a)
                      (list_ascii_of_string b))); [|done].
    cbn. by rewrite !string_of_list_ascii_of_string.
Qed.

(** X27: in training, [__init__] takes the source and target language from
    the first language pair, which must be two hyphen-free languages joined
    by one hyphen: any other first pair raises [ValueError], and no pair at
    all raises [IndexError]. At inference the only pair is built from the
    two languages, and splits back into them. *)
Theorem init_lang_pairs_languages (args : task_args) :
  (lang_pairs args = [] -> init_lang_pairs args true = Raise IndexError)
  /\ (forall first rest,
        lang_pairs args = first :: rest ->
        (forall src tgt,
           init_lang_pairs args true = Ok (lang_pairs args, Some src, Some tgt)
           <-> first = (src ++ "-" ++ tgt)%string
               /\ ("-"%char ∉ list_ascii_of_string src)
               /\ ("-"%char ∉ list_ascii_of_string tgt))
        /\ (returns (init_lang_pairs args true)
            \/ init_lang_pairs args true = Raise ValueError))
  /\ (forall src tgt,
        source_lang args = Some src -> target_lang args = Some tgt ->
        "-"%char ∉ list_ascii_of_string src -> "-"%char ∉ list_ascii_of_string tgt ->
        exists lang_pair,
          init_lang_pairs args false = Ok ([lang_pair], Some src, Some tgt)
          /\ unpack_pair lang_pair = Ok (src, tgt)).
Proof.
  unfold init_lang_pairs. split_and!.
  - by intros ->.
  - intros first rest ->. split.
    + intros src tgt. rewrite <- unpack_pair_Ok.
      destruct (unpack_pair first) as [[a b]|e]; cbn; [|done].
      split; [by intros [= -> ->]|by intros [= -> ->]].
    + destruct (unpack_pair first) as [[a b]|e] eqn:Hpair; cbn; [left; by eexists|right].
      unfold unpack_pair in Hpair. repeat case_match; congruence.
  - intros src tgt -> -> Hsrc Htgt. eexists. split; [done|].
    cbn. by apply unpack_pair_Ok.
Qed.

Example init_lang_pairs_examples :
  let args lps := {| lang_pairs := lps; source_lang := None; target_lang := None;
                     encoder_langtok := None; decoder_langtok := false;
                     max_source_positions := 1024; max_target_positions := 1024 |} in
  init_lang_pairs (args ["en-de"; "fr-en"]%string) true
  = Ok (["en-de"; "fr-en"]%string, Some "en"%string, Some "de"%string)
  /\ init_lang_pairs (args ["en-de-fr"]%string) true = Raise ValueError
  /\ init_lang_pairs (args ["ende"]%string) true = Raise ValueError
  /\ init_lang_pairs (args []) false = Ok (["None-None"%string], None, None).
Proof. split_and!; reflexivity. Qed.

(** ** [max_positions]: the limits handed to the size filter *)

Lemma getitem_setitem (d : list (string * atom)) (k k' : string) (v : atom) :
  getitem (setitem d k v) k' = if String.eqb k k' then Ok v else getitem d k'.
Proof.
  induction d as [|[k0 v0] d IH]; cbn; [done|].
  destruct (String.eqb k0 k) eqn:Hk0; cbn.
  - apply String.eqb_eq in Hk0 as ->. by destruct (String.eqb k k').
  - rewrite IH. destruct (String.eqb k0 k') eqn:Hk0'; [|done].
    apply String.eqb_eq in Hk0' as ->.
    destruct (String.eqb k k') eqn:Hk; [|done].
    apply String.eqb_eq in Hk as ->. by rewrite String.eqb_refl in Hk0.
Qed.

Lemma keys_setitem (d : list (string * atom)) (k k' : string) (v : atom) :
  k' ∈ keys (setitem d k v) <-> k' = k \/ k' ∈ keys d.
Proof.
  induction d as [|[k0 v0] d IH]; cbn.
  - rewrite list_elem_of_singleton, elem_of_nil. tauto.
  - destruct (String.eqb k0 k) eqn:Hk0; cbn.
    + apply String.eqb_eq in Hk0 as ->. rewrite elem_of_cons. tauto.
    + fold (keys (setitem d k v)) (keys d). rewrite !elem_of_cons, IH. tauto.
Qed.

Lemma ordered_dict_snoc (items : list (string * atom)) (k : string) (v : atom) :
  ordered_dict (items ++ [(k, v)]) = setitem (ordered_dict items) k v.
Proof. unfold ordered_dict. by rewrite fold_left_app. Qed.

Lemma keys_ordered_dict (items : list (string * atom)) (k : string) :
  k ∈ keys (ordered_dict items) <-> k ∈ map fst items.
Proof.
  induction items as [|[k0 v0] items IH] using rev_ind; [done|].
  rewrite ordered_dict_snoc, keys_setitem, map_app, elem_of_app, IH. cbn.
  rewrite list_elem_of_singleton. tauto.
Qed.

Lemma getitem_ordered_dict (items : list (string * atom)) (limit : atom) (k : string) :
  Forall (fun kv => kv.2 = limit) items ->
  k ∈ map fst items -> getitem (ordered_dict items) k = Ok limit.
Proof.
  induction items as [|[k0 v0] items IH] using rev_ind; intros Hall Hk.
  - by apply elem_of_nil in Hk.
  - apply Forall_app in Hall as [Hall [Hv0 _]%Forall_cons]. cbn in Hv0. subst v0.
    rewrite ordered_dict_snoc, getitem_setitem.
    destruct (String.eqb k0 k) eqn:Hk0; [done|].
    apply IH; [done|]. rewrite map_app, elem_of_app in Hk. destruct Hk as [Hk|Hk]; [done|].
    cbn in Hk. apply list_elem_of_singleton in Hk as ->. by rewrite String.eqb_refl in Hk0.
Qed.

Lemma getitem_keys (d : list (string * atom)) (limit : atom) (k : string) :
  getitem d k = Ok limit -> k ∈ keys d.
Proof.
  induction d as [|[k0 v0] d IH]; cbn; [done|].
  destruct (String.eqb k0 k) eqn:Hk0.
  - apply String.eqb_eq in Hk0 as ->. intros _. by left.
  - intros Hget. right. by apply IH.
Qed.

(** X29: [max_positions] gives one and the same pair of limits to every
    key: without datasets the only key is the pair of the task's source
    and target language, with datasets the keys are the keys of the loaded
    datasets. A size [dict] with one pair of lengths under such a key
    passes [check_size] exactly when the source length is at most
    [max_source_positions] and the target length at most
    [max_target_positions]; under any other key it always passes. *)
Theorem check_size_max_positions (args : task_args) (datasets : list (string * list string))
    (size_fn : Z -> pyval) (idx : Z) (key : string) (s t : Z) :
  size_fn idx = Dict [(key, ATuple [Some s; Some t])] ->
  let known :=
    (datasets = []
     /\ key = (percent_s (source_lang args) ++ "-" ++ percent_s (target_lang args))%string)
    \/ (exists split dataset_keys, (split, dataset_keys) ∈ datasets /\ key ∈ dataset_keys) in
  (known ->
   check_size size_fn (max_positions args datasets) idx
   = Ok ((s <=? max_source_positions args) && (t <=? max_target_positions args)))
  /\ (~ known -> check_size size_fn (max_positions args datasets) idx = Ok true).
Proof.
  intros Hsize known.
  set (limit := ATuple [Some (max_source_positions args); Some (max_target_positions args)]).
  assert (Hdict : exists max_items,
            max_positions args datasets = Dict max_items
            /\ (known -> getitem max_items key = Ok limit)
            /\ (~ known -> key ∉ keys max_items)).
  { unfold max_positions. fold limit. destruct datasets as [|d0 datasets'].
    - cbn. eexists. split; [done|]. split.
      + intros [[_ ->] | (split & ks & Hin & _)]; [|by apply elem_of_nil in Hin].
        cbn. by rewrite String.eqb_refl.
      + intros Hnot Hin. apply Hnot. left. split; [done|].
        cbn in Hin. by apply list_elem_of_singleton in Hin.
    - set (datasets := d0 :: datasets') in *.
      replace (length datasets =? 0)%nat with false by done.
      set (items := flat_map _ datasets).
      assert (Hkeys : key ∈ map fst items <-> known).
      { unfold items, known. rewrite list_elem_of_In, in_map_iff. split.
        - intros ([k v] & Hk & Hin). cbn in Hk. subst k.
          apply in_flat_map in Hin as ([split ks] & Hin & Hkv).
          apply in_map_iff in Hkv as (k & [= -> _] & Hk).
          right. exists split, ks. split; by apply list_elem_of_In.
        - intros [[Hnil _] | (split & ks & Hin & Hk)]; [done|].
          exists (key, limit). split; [done|]. apply in_flat_map.
          exists (split, ks). split; [by apply list_elem_of_In|].
          apply in_map_iff. exists key. split; [done|]. by apply list_elem_of_In. }
      eexists. split; [done|]. split.
      + intros Hknown. apply getitem_ordered_dict; [|by apply Hkeys].
        apply Forall_forall. intros [k v] Hin. unfold items in Hin.
        apply list_elem_of_In, in_flat_map in Hin as ([split ks] & _ & Hkv).
        by apply in_map_iff in Hkv as (k' & [= _ <-] & _).
      + intros Hnot Hin. apply Hnot, Hkeys. by apply keys_ordered_dict. }
  destruct Hdict as (max_items & -> & Hknown & Hunknown).
  unfold check_size. rewrite Hsize. unfold intersect_keys. cbn [keys map fst List.filter].
  split.
  - intros Hk. rewrite bool_decide_eq_true_2 by (eapply getitem_keys; by apply Hknown).
    cbn. rewrite String.eqb_refl. cbn. rewrite (Hknown Hk). cbn.
    by destruct (s <=? _), (t <=? _).
  - intros Hk. by rewrite bool_decide_eq_false_2 by (by apply Hunknown).
Qed.

Lemma check_size_max_positions_witness :
  let args := {| lang_pairs := ["en-de"; "fr-en"]%string; source_lang := None;
                 target_lang := None; encoder_langtok := None; decoder_langtok := false;
                 max_source_positions := 10; max_target_positions := 20 |} in
  let datasets := [("train"%string, ["en-de"; "fr-en"]%string);
                   ("valid"%string, ["en-de"]%string)] in
  let size_fn := fun _ : Z => Dict [("fr-en"%string, ATuple [Some 10; Some 21])] in
  size_fn 0 = Dict [("fr-en"%string, ATuple [Some 10; Some 21])]
  /\ check_size size_fn (max_positions args datasets) 0 = Ok false.
Proof.
  intros args datasets size_fn. split; [reflexivity|].
  refine (proj1 (check_size_max_positions args datasets size_fn 0 "fr-en" 10 21 eq_refl) _).
  right. exists "train"%string, ["en-de"; "fr-en"]%string.
  split; [left|right; left].
Defined.

Example max_positions_examples :
  let args := {| lang_pairs := ["en-de"]%string; source_lang := None;
                 target_lang := Some "de"%string; encoder_langtok := None;
                 decoder_langtok := false;
                 max_source_positions := 10; max_target_positions := 20 |} in
  max_positions args [] = Dict [("None-de"%string, ATuple [Some 10; Some 20])]
  /\ max_positions args [("train"%string, ["en-de"; "fr-en"]%string);
                         ("valid"%string, ["fr-en"; "en-de"]%string)]
     = Dict [("en-de"%string, ATuple [Some 10; Some 20]);
             ("fr-en"%string, ATuple [Some 10; Some 20])].
Proof. split; reflexivity. Qed.
